(** * Rufs - remote union file system: a shallow embedding

    The development follows the layout of the Go sources:

    - [GoLib]    the few functions of the Go standard library the code
                 relies on ([path.Clean], [path.Join], [path.Split],
                 [strings.HasPrefix], error values);
    - [Node]     package [node]: the RPC server ([checkToken], [Ping],
                 [Data]) and the RPC client ([RegisterPeer], [RemovePeer],
                 [SendRequest], [SendPing], [SendData]);
    - [Host]     a small model of the host of a branch: its file system
                 and the shared byte slice pool;
    - [Branch]   the branch engine of package [rufs]
                 ([constructSubPath], [ReadFile], [WriteFile], [ItemOp],
                 [Dir], [requestHandler]);
    - [Tree]     the tree client of package [rufs] ([findPathBranches],
                 [Dir], [ReadFile], [WriteFile]) over an oracle for the
                 answers of the remote branches;
    - [Props]    the properties under study, and [Examples], the inputs
                 they are tried on;
    - [NodePeers], [BranchIO], [TreeOps], [TreeAdmin]: more of the same
                 packages: the list of peers of the client, reading and
                 writing whole files, [Stat], [ItemOp] and [relPath] of the
                 tree, and its administration ([AddBranch], [AddMapping],
                 [Reset]); [MoreProps] and [MoreExamples] go with them;
    - [NodeFacts], [HostFacts], [BranchFacts], [TreeFacts]: the proofs,
                 followed by [NodeMoreFacts], [BranchMoreFacts],
                 [TreeItemFacts], [TreeClientFacts], [TreeAdminFacts] and
                 [TreeUtilFacts].

    Go values are modelled as follows: [string] is a Rocq [string] (a byte
    sequence), [[]byte] is [list byte], [int]/[int64] are [Z], a Go map
    with string keys is a [gmap string _], an [error] is [option error]
    ([None] is [nil]). *)

From Stdlib Require Import ZArith Lia Ascii String List.
From Stdlib.Strings Require Import Byte.
From stdpp Require Import base option list strings gmap pretty sorting.

Open Scope string_scope.
Open Scope Z_scope.

#[global] Instance byte_eq_dec : EqDecision byte := Byte.byte_eq_dec.

(* ====================================================================== *)
(** ** Go standard library                                                 *)
(* ====================================================================== *)

Module GoLib.

(** *** Errors

    [error] collects the error values which flow through the modelled code.
    [RufsError] is [node.Error]; its first field is one of the five error
    types declared in package [node]. *)

Inductive errno := ENOENT | ENOTDIR | EISDIR | EEXIST | ENOTEMPTY | EINVAL.

Inductive ErrType :=
  | ErrNodeComm | ErrRemoteAction | ErrUnknownTarget
  | ErrUntrustedTarget | ErrInvalidToken.

Inductive error :=
  | ErrNotExist                                  (* os.ErrNotExist *)
  | EOF                                          (* io.EOF *)
  | ErrUnexpectedEOF                             (* io.ErrUnexpectedEOF *)
  | ErrShutdown                                  (* rpc.ErrShutdown *)
  | PathError (op path : string) (e : errno)     (* *os.PathError *)
  | LinkError (op old new : string) (e : errno)  (* *os.LinkError *)
  | NetError (msg : string)                      (* any net.Error *)
  | Errorf (msg : string)                        (* fmt.Errorf, errors.New *)
  | TypeError (e : ErrType)                      (* the bare node.Err... values *)
  | RufsError (ty : ErrType) (detail : string) (isNotExist : bool).

#[global] Instance errno_eq_dec : EqDecision errno.
Proof. solve_decision. Defined.
#[global] Instance ErrType_eq_dec : EqDecision ErrType.
Proof. solve_decision. Defined.
#[global] Instance error_eq_dec : EqDecision error.
Proof. solve_decision. Defined.

Definition errno_string (e : errno) : string :=
  match e with
  | ENOENT => "no such file or directory"
  | ENOTDIR => "not a directory"
  | EISDIR => "is a directory"
  | EEXIST => "file exists"
  | ENOTEMPTY => "directory not empty"
  | EINVAL => "invalid argument"
  end.

Definition ErrType_string (t : ErrType) : string :=
  match t with
  | ErrNodeComm => "Network error"
  | ErrRemoteAction => "Remote error"
  | ErrUnknownTarget => "Unknown target node"
  | ErrUntrustedTarget => "Unexpected SSL certificate from target node"
  | ErrInvalidToken => "Invalid node token"
  end.

(** [err.Error()]. *)
Definition Error (e : error) : string :=
  match e with
  | ErrNotExist => "file does not exist"
  | EOF => "EOF"
  | ErrUnexpectedEOF => "unexpected EOF"
  | ErrShutdown => "connection is shut down"
  | PathError op p e => op +:+ " " +:+ p +:+ ": " +:+ errno_string e
  | LinkError op o n e =>
      op +:+ " " +:+ o +:+ " " +:+ n +:+ ": " +:+ errno_string e
  | NetError msg => msg
  | Errorf msg => msg
  | TypeError t => ErrType_string t
  | RufsError t d _ =>
      if decide (d = "") then "RufsError: " +:+ ErrType_string t
      else "RufsError: " +:+ ErrType_string t +:+ " (" +:+ d +:+ ")"
  end.

(** [os.IsNotExist]. *)
Definition IsNotExist (e : option error) : bool :=
  match e with
  | Some ErrNotExist => true
  | Some (PathError _ _ ENOENT) => true
  | Some (LinkError _ _ _ ENOENT) => true
  | _ => false
  end.

(** *** Strings and paths *)

Definition HasPrefix (s pre : string) : bool := String.prefix pre s.

Fixpoint HasSuffix_rev (s suf : list ascii) : bool :=
  match suf, s with
  | [], _ => true
  | c :: suf', d :: s' => if decide (c = d) then HasSuffix_rev s' suf' else false
  | _ :: _, [] => false
  end.

Definition HasSuffix (s suf : string) : bool :=
  HasSuffix_rev (rev (list_ascii_of_string s)) (rev (list_ascii_of_string suf)).

(** [strings.Contains s sub] for a one character [sub]. *)
Fixpoint ContainsChar (s : string) (c : ascii) : bool :=
  match s with
  | EmptyString => false
  | String d s' => if decide (c = d) then true else ContainsChar s' c
  end.

(** [strings.Split s "/"]: the pieces between the slashes. *)
Fixpoint split_slash (s : string) : list string :=
  match s with
  | EmptyString => [EmptyString]
  | String c s' =>
      if decide (c = "/"%char) then EmptyString :: split_slash s'
      else match split_slash s' with
           | [] => [String c EmptyString]
           | h :: t => String c h :: t
           end
  end.

Definition join_slash (l : list string) : string := String.concat "/" l.

(** One element of the input of [Clean]; [stack] holds the elements kept
    so far, last one first.  A [".."] removes the last real element; where
    there is none it is dropped for a rooted path and kept otherwise. *)
Definition clean_step (rooted : bool) (stack : list string) (c : string)
  : list string :=
  if decide (c = "") then stack
  else if decide (c = ".") then stack
  else if decide (c = "..") then
    match stack with
    | top :: rest => if decide (top = "..") then c :: stack else rest
    | [] => if rooted then [] else [c]
    end
  else c :: stack.

Definition is_rooted (p : string) : bool :=
  match p with
  | String c _ => if decide (c = "/"%char) then true else false
  | EmptyString => false
  end.

(** [path.Clean] (and [filepath.Clean] on a system whose separator is the
    slash): the shortest path equivalent to [p] by purely lexical
    processing. *)
Definition Clean (p : string) : string :=
  if decide (p = "") then "."
  else
    let rooted := is_rooted p in
    let kept := rev (fold_left (clean_step rooted) (split_slash p) []) in
    let out := (if rooted then "/" else "") +:+ join_slash kept in
    if decide (out = "") then "." else out.

Fixpoint drop_empty (l : list string) : list string :=
  match l with
  | [] => []
  | e :: l' => if decide (e = "") then drop_empty l' else l
  end.

(** [path.Join] / [filepath.Join]: empty leading elements are ignored, the
    result is cleaned, and joining nothing gives the empty string. *)
Definition Join (elem : list string) : string :=
  match drop_empty elem with
  | [] => ""
  | l => Clean (join_slash l)
  end.

(** [path.Split] / [filepath.Split]: the text up to and including the last
    slash, and the text after it. *)
Fixpoint Split (p : string) : string * string :=
  match p with
  | EmptyString => ("", "")
  | String c p' =>
      let '(d, f) := Split p' in
      if decide (c = "/"%char) then
        if decide (d = "") then (String c "", f) else (String c d, f)
      else
        if decide (d = "") then ("", String c f) else (String c d, f)
  end.

(** [filepath.Abs] with the working directory [cwd] of the process. *)
Definition Abs (cwd p : string) : string :=
  if is_rooted p then Clean p else Join [cwd; p].

(** The non-empty components of a path. *)
Definition components (p : string) : list string :=
  filter (λ c, c ≠ "") (split_slash p).

(** [strings.ToLower] on ASCII letters. *)
Definition lower_ascii (c : ascii) : ascii :=
  let n := nat_of_ascii c in
  if (Nat.leb 65 n && Nat.leb n 90)%bool then ascii_of_nat (n + 32) else c.

Fixpoint ToLower (s : string) : string :=
  match s with
  | EmptyString => EmptyString
  | String c s' => String (lower_ascii c) (ToLower s')
  end.

End GoLib.


Import GoLib.

(** A Go call either returns or panics. *)
Inductive outcome (A : Type) := Return (a : A) | Panic.
Arguments Return {A} a.
Arguments Panic {A}.

(* ====================================================================== *)
(** ** Package node                                                        *)
(* ====================================================================== *)

Module Node.

(** [RPCFunction]: the two functions the server exposes. *)
Inductive RPCFunction := RPCPing | RPCData.

(** [RufsNodeToken] authenticates a node to other nodes. *)
Record RufsNodeToken := { NodeName : string; NodeAuth : string }.

(** A request as the server receives it: the map from [RequestArgument] to
    values with its four entries [RequestTARGET], [RequestTOKEN],
    [RequestCTRL] and [RequestDATA] present and of the expected dynamic
    type (the server does no checks of its own and panics otherwise). *)
Record Request := {
  RequestTARGET : string;
  RequestTOKEN : RufsNodeToken;
  RequestCTRL : gmap string string;
  RequestDATA : list byte
}.

(** The dynamically typed response value. *)
Inductive Response :=
  | RespNil
  | RespStrings (l : list string)
  | RespBytes (b : list byte).

#[global] Instance Response_eq_dec : EqDecision Response.
Proof. solve_decision. Defined.

(** [RequestHandler]: handles a data request, returns the result or an
    error. *)
Definition RequestHandler : Type :=
  gmap string string → list byte → list byte * option error.

(** The part of [RufsNode] the server looks at. *)
Record RufsNode := {
  name : string;
  secret : string;
  DataHandler : option RequestHandler
}.

(** [RufsServer]: the map of the local nodes. *)
Record RufsServer := { nodes : gmap string RufsNode }.

Section Server.

(** [fmt.Sprintf("%X", sha512.Sum512_224([]byte(s)))]: the upper case hex
    digits of the SHA512/224 digest of [s]. *)
Variable sha512_224_hex : string → string.

(** The token [NewNode] generates for a node. *)
Definition NewToken (name secret : string) : RufsNodeToken :=
  {| NodeName := name; NodeAuth := sha512_224_hex (name +:+ secret) |}.

(** [checkToken] checks the member token in a given request. *)
Definition checkToken (s : RufsServer) (request : Request)
  : option RufsNode * option error :=
  let err := TypeError ErrUnknownTarget in
  let target := RequestTARGET request in
  let token := RequestTOKEN request in
  match nodes s !! target with
  | Some node =>
      let err := TypeError ErrInvalidToken in
      let expectedAuth :=
        sha512_224_hex (NodeName token +:+ secret node) in
      if decide (NodeAuth token = expectedAuth) then (Some node, None)
      else (None, Some err)
  | None => (None, Some err)
  end.

(** [Ping] answers with a Pong if the given client token was verified and
    the local node exists.  The first component is the value stored in
    [*response] ([RespNil] when nothing is stored). *)
Definition Ping (s : RufsServer) (request : Request)
  : Response * option error :=
  match checkToken s request with
  | (_, Some err) => (RespNil, Some err)
  | (_, None) => (RespStrings ["Pong"], None)
  end.

(** [Data] handles data requests. *)
Definition Data (s : RufsServer) (request : Request)
  : Response * option error :=
  match checkToken s request with
  | (_, Some err) => (RespNil, Some err)
  | (None, None) => (RespNil, None)
  | (Some node, None) =>
      match DataHandler node with
      | None => (RespNil, None)
      | Some handler =>
          match handler (RequestCTRL request) (RequestDATA request) with
          | (res, None) => (RespBytes res, None)
          | (_, Some err) => (RespNil, Some err)
          end
      end
  end.

End Server.


(** *** The client *)

(** A cached [*rpc.Client].  [conn_peer_cert] is the raw leaf certificate
    of the TLS connection state ([PeerCertificates[0].Raw]) when the
    connection was wrapped in TLS, and [None] for a plain TCP connection. *)
Record Conn := {
  conn_laddr : string;
  conn_peer_cert : option (list byte)
}.

(** [Client] is the client for the RPC API of a node.  [has_cert] tells
    whether [cert != nil && cert.Certificate[0] != nil]. *)
Record Client := {
  token : RufsNodeToken;
  rpc : string;
  peers : gmap string string;
  conns : gmap string Conn;
  fingerprints : gmap string string;
  has_cert : bool;
  redial : bool
}.

Definition set_peers (f : gmap string string → gmap string string)
  (c : Client) : Client :=
  {| token := token c; rpc := rpc c; peers := f (peers c);
     conns := conns c; fingerprints := fingerprints c;
     has_cert := has_cert c; redial := redial c |}.

Definition set_conns (f : gmap string Conn → gmap string Conn)
  (c : Client) : Client :=
  {| token := token c; rpc := rpc c; peers := peers c;
     conns := f (conns c); fingerprints := fingerprints c;
     has_cert := has_cert c; redial := redial c |}.

Definition set_fingerprints (f : gmap string string → gmap string string)
  (c : Client) : Client :=
  {| token := token c; rpc := rpc c; peers := peers c;
     conns := conns c; fingerprints := f (fingerprints c);
     has_cert := has_cert c; redial := redial c |}.

Definition set_redial (b : bool) (c : Client) : Client :=
  {| token := token c; rpc := rpc c; peers := peers c;
     conns := conns c; fingerprints := fingerprints c;
     has_cert := has_cert c; redial := b |}.

(** What [net.DialTimeout] gives: an error, or a connection to a listener
    which presents the leaf certificate [server_cert] in a TLS handshake
    ([None]: the listener does not speak TLS). *)
Inductive DialResult :=
  | DialError (e : error)
  | DialOk (server_cert : option (list byte)).

(** The arguments [SendRequest] adds to the request. *)
Record RequestArgs := {
  ArgCTRL : gmap string string;
  ArgDATA : list byte
}.

(** [fingerprint] converts a given set of bytes to a fingerprint: a colon
    goes after every second character of the hex digest but the last.
    [i] is the index of the first character of [hs]. *)
Fixpoint fingerprint_loop (i len : nat) (hs : list ascii) : list ascii :=
  match hs with
  | [] => []
  | ch :: hs' =>
      if (Nat.eqb ((i + 1) mod 2) 0 && negb (Nat.eqb i (len - 1)))%bool
      then ch :: ":"%char :: fingerprint_loop (S i) len hs'
      else ch :: fingerprint_loop (S i) len hs'
  end.

Section ClientOps.

(** [fmt.Sprintf("%x", sha256.Sum256(b))]. *)
Variable sha256_hex : list byte → string.

(** The network: its state, what a dial gives, and what a call over a
    connection gives ([conn.Call]: the decoded response and the error). *)
Variable World : Type.
Variable dial : World → string → World * DialResult.
Variable call :
  World → Conn → RPCFunction → string → RufsNodeToken →
  option RequestArgs → World * (Response * option error).

Definition fingerprint (b : list byte) : string :=
  let hs := list_ascii_of_string (sha256_hex b) in
  string_of_list_ascii (fingerprint_loop 0 (length hs) hs).

(** [RegisterPeer] registers a new peer to communicate with. *)
Definition RegisterPeer (c : Client) (node rpc fingerprint : string)
  : Client * option error :=
  match peers c !! node with
  | Some _ => (c, Some (Errorf ("Peer already registered: " +:+ node)))
  | None =>
      if decide (rpc = "") then
        (c, Some (Errorf "RPC interface must not be empty"))
      else
        (set_fingerprints (insert node fingerprint)
           (set_conns (delete node)
              (set_peers (insert node rpc) c)), None)
  end.

(** [RemovePeer] removes a registered peer. *)
Definition RemovePeer (c : Client) (node : string) : Client :=
  set_fingerprints (delete node)
    (set_conns (delete node) (set_peers (delete node) c)).

(** [Shutdown] closes all stored connections. *)
Definition Shutdown (c : Client) : Client := set_conns (λ _, ∅) c.

(** The closure [handleError] of [SendRequest]: categorizes errors. *)
Definition handleError (err : option error) : option error :=
  match err with
  | Some (NetError msg) => Some (RufsError ErrNodeComm msg false)
  | Some e =>
      if negb (HasPrefix (Error e) "RufsError: ") then
        Some (RufsError ErrRemoteAction (Error e)
                (bool_decide (Error e = Error ErrNotExist)))
      else Some e
  | None => None
  end.

(** One pass through the body of [SendRequest]: either it returns, or it
    asks for the request to be sent again (the recursive call). *)
Inductive Attempt :=
  | Done (c : Client) (w : World)
      (r : outcome (Response * option error))
  | Again (c : Client) (w : World).

Definition is_closed (err : option error) : bool :=
  bool_decide (err = Some ErrShutdown ∨ err = Some EOF
               ∨ err = Some ErrUnexpectedEOF).

(** The end of [SendRequest], once [conn] is the connection to use. *)
Definition SendRequest_call (c : Client) (w : World) (conn : Conn)
  (node : string) (remoteCall : RPCFunction) (args : option RequestArgs)
  : Attempt :=
  let '(w', (response, err)) :=
    call w conn remoteCall node (token c) args in
  if (negb (redial c) && is_closed err)%bool then
    Again (set_redial true (set_conns (delete node) c)) w'
  else
    Done (set_redial false c) w' (Return (response, handleError err)).

Definition SendRequest_attempt (c : Client) (w : World) (node : string)
  (remoteCall : RPCFunction) (args : option RequestArgs) : Attempt :=
  match peers c !! node with
  | Some laddr =>
      match conns c !! node with
      | Some conn => SendRequest_call c w conn node remoteCall args
      | None =>
          match dial w laddr with
          | (w1, DialError e) =>
              Done c w1 (Return (RespNil, handleError (Some e)))
          | (w1, DialOk server_cert) =>
              if has_cert c then
                match server_cert with
                | None => Done c w1 Panic
                | Some raw =>
                    let rfp := fingerprint raw in
                    let expected := default "" (fingerprints c !! node) in
                    let conn := {| conn_laddr := laddr;
                                   conn_peer_cert := Some raw |} in
                    if decide (expected = "") then
                      SendRequest_call
                        (set_conns (insert node conn)
                           (set_fingerprints (insert node rfp) c))
                        w1 conn node remoteCall args
                    else if decide (expected ≠ rfp) then
                      Done c w1
                        (Return (RespNil,
                           Some (RufsError ErrUntrustedTarget node false)))
                    else
                      SendRequest_call (set_conns (insert node conn) c)
                        w1 conn node remoteCall args
                end
              else
                let conn := {| conn_laddr := laddr;
                               conn_peer_cert := None |} in
                SendRequest_call (set_conns (insert node conn) c)
                  w1 conn node remoteCall args
          end
      end
  | None =>
      Done c w (Return (RespNil,
                  Some (RufsError ErrUnknownTarget node false)))
  end.

(** [SendRequest] sends a request to another node.  The recursive call
    happens with the [redial] flag set, which excludes another one: the
    recursion is unrolled [fuel] times ([SendRequest] uses two). *)
Fixpoint SendRequest_fuel (fuel : nat) (c : Client) (w : World)
  (node : string) (remoteCall : RPCFunction) (args : option RequestArgs)
  : option (Client * World * outcome (Response * option error)) :=
  match SendRequest_attempt c w node remoteCall args with
  | Done c' w' r => Some (c', w', r)
  | Again c' w' =>
      match fuel with
      | O => None
      | S k => SendRequest_fuel k c' w' node remoteCall args
      end
  end.

Definition SendRequest (c : Client) (w : World) (node : string)
  (remoteCall : RPCFunction) (args : option RequestArgs)
  : Client * World * outcome (Response * option error) :=
  match SendRequest_fuel 1 c w node remoteCall args with
  | Some r => r
  | None => (c, w, Panic)
  end.

(** [SendPing] sends a ping to a node and returns the result: the answer,
    the fingerprint of the presented server certificate and any error.
    The deferred removal of a temporary registration also runs when the
    call panics. *)
Definition SendPing (c : Client) (w : World) (node rpc : string)
  : Client * World * outcome (list string * string * option error) :=
  let temporary :=
    (bool_decide (peers c !! node = None)
     && bool_decide (rpc ≠ ""))%bool in
  let c1 := if temporary then set_peers (insert node rpc) c else c in
  let '(c2, w2, out) := SendRequest c1 w node RPCPing None in
  let result :=
    match out with
    | Panic => Panic
    | Return (RespNil, err) => Return ([], "", err)
    | Return (_, Some err) => Return ([], "", Some err)
    | Return (RespStrings ret, None) =>
        Return (ret, default "" (fingerprints c2 !! node), None)
    | Return (RespBytes _, None) => Panic
    end in
  let c3 := if temporary then RemovePeer c2 node else c2 in
  (c3, w2, result).

(** [SendData] sends a portion of data and some control information to a
    node and returns the result. *)
Definition SendData (c : Client) (w : World) (node : string)
  (ctrl : gmap string string) (data : list byte)
  : Client * World * outcome (list byte * option error) :=
  match peers c !! node with
  | None => (c, w, Return ([], Some (Errorf ("Unknown peer: " +:+ node))))
  | Some _ =>
      let '(c', w', out) :=
        SendRequest c w node RPCData
          (Some {| ArgCTRL := ctrl; ArgDATA := data |}) in
      (c', w',
       match out with
       | Panic => Panic
       | Return (RespBytes b, err) => Return (b, err)
       | Return (RespNil, err) => Return ([], err)
       | Return (RespStrings _, _) => Panic
       end)
  end.

(** [NewClient]: a client without peers. *)
Definition NewClient (tok : RufsNodeToken) (cert : bool) : Client :=
  {| token := tok; rpc := ""; peers := ∅; conns := ∅;
     fingerprints := ∅; has_cert := cert; redial := false |}.

End ClientOps.

Arguments Done {World} c w r.
Arguments Again {World} c w.

End Node.

(* ====================================================================== *)
(** ** The host of a branch: file system and byte slice pool               *)
(* ====================================================================== *)

Module Host.

(** The file system is a tree.  The entries of a directory are kept in the
    order [ioutil.ReadDir] reports them, which is by name.  Symbolic links,
    permission bits and modification times are not modelled: the process
    may read and write everything. *)
#[warnings="-register-all"]
Inductive node :=
  | RegularFile (data : list byte)
  | Directory (entries : list (string * node)).

Fixpoint assoc {A} (k : string) (l : list (string * A)) : option A :=
  match l with
  | [] => None
  | (k', v) :: l' => if decide (k = k') then Some v else assoc k l'
  end.

Fixpoint remove_entry {A} (k : string) (l : list (string * A))
  : list (string * A) :=
  match l with
  | [] => []
  | (k', v) :: l' =>
      if decide (k = k') then remove_entry k l' else (k', v) :: remove_entry k l'
  end.

(** Sets the entry [k], at its place in the order of names. *)
Fixpoint put_entry {A} (k : string) (v : A) (l : list (string * A))
  : list (string * A) :=
  match l with
  | [] => [(k, v)]
  | (k', v') :: l' =>
      if decide (k = k') then (k, v) :: l'
      else if String.ltb k k' then (k, v) :: l
      else (k', v') :: put_entry k v l'
  end.

(** The node a list of path components leads to. *)
Fixpoint walk (p : list string) (n : node) : errno + node :=
  match p with
  | [] => inr n
  | c :: p' =>
      match n with
      | RegularFile _ => inl ENOTDIR
      | Directory es =>
          match assoc c es with
          | None => inl ENOENT
          | Some ch => walk p' ch
          end
      end
  end.

(** Puts [new] at the place [c :: p] below [n]; the directory which is to
    hold it has to exist. *)
Fixpoint put (c : string) (p : list string) (new : node) (n : node)
  : errno + node :=
  match n with
  | RegularFile _ => inl ENOTDIR
  | Directory es =>
      match p with
      | [] => inr (Directory (put_entry c new es))
      | c' :: p' =>
          match assoc c es with
          | None => inl ENOENT
          | Some ch =>
              match put c' p' new ch with
              | inl e => inl e
              | inr ch' => inr (Directory (put_entry c ch' es))
              end
          end
      end
  end.

(** Puts [new] at the place [p], the root included. *)
Definition put_path (p : list string) (new : node) (n : node)
  : errno + node :=
  match p with
  | [] => inr new
  | c :: cs => put c cs new n
  end.

(** Removes what is at [p] with all it contains; nothing happens when there
    is nothing at [p].  Removing the root empties it. *)
Fixpoint remove (p : list string) (n : node) : node :=
  match p, n with
  | [], Directory _ => Directory []
  | [c], Directory es => Directory (remove_entry c es)
  | c :: p', Directory es =>
      match assoc c es with
      | Some ch => Directory (put_entry c (remove p' ch) es)
      | None => n
      end
  | _, RegularFile _ => n
  end.

(** [os.MkdirAll] on path components: creates the directories which are
    missing; fails where a file is in the way. *)
Fixpoint mkdirAll (p : list string) (n : node) : errno + node :=
  match n with
  | RegularFile _ => inl ENOTDIR
  | Directory es =>
      match p with
      | [] => inr n
      | c :: p' =>
          match mkdirAll p' (default (Directory []) (assoc c es)) with
          | inl e => inl e
          | inr ch => inr (Directory (put_entry c ch es))
          end
      end
  end.

(** The state of the host of a branch: the file system, the working
    directory of the process, and the two package variables
    [DefaultReadBufferSize] and [byteSlicePool].  The pool is a [sync.Pool]
    whose [New] makes a zeroed slice of [DefaultReadBufferSize] bytes;
    [byteSlicePool] lists the slices which were put back and not yet taken
    out again, the last one first.  (A [sync.Pool] may drop what was put
    back at any time; the model keeps it, which is what the requests of
    one connection, handled one after the other, observe.) *)
Record state := {
  fs : node;
  cwd : string;
  DefaultReadBufferSize : Z;
  byteSlicePool : list (list byte)
}.

Definition set_fs (n : node) (h : state) : state :=
  {| fs := n; cwd := cwd h;
     DefaultReadBufferSize := DefaultReadBufferSize h;
     byteSlicePool := byteSlicePool h |}.

Definition set_pool (p : list (list byte)) (h : state) : state :=
  {| fs := fs h; cwd := cwd h;
     DefaultReadBufferSize := DefaultReadBufferSize h;
     byteSlicePool := p |}.

(** [make([]byte, n)]. *)
Definition make (n : Z) : list byte := replicate (Z.to_nat n) x00.

(** [byteSlicePool.Get()]: a slice which was put back if there is one, a
    new one otherwise. *)
Definition pool_Get (h : state) : list byte * state :=
  match byteSlicePool h with
  | buf :: rest => (buf, set_pool rest h)
  | [] => (make (DefaultReadBufferSize h), h)
  end.

(** [byteSlicePool.Put(buf)]. *)
Definition pool_Put (buf : list byte) (h : state) : state :=
  set_pool (buf :: byteSlicePool h) h.

(** [os.Stat]. *)
Definition Stat (h : state) (path : string) : error + node :=
  match walk (components path) (fs h) with
  | inl e => inl (PathError "stat" path e)
  | inr n => inr n
  end.

(** [fileutil.PathExists]: the boolean it returns. *)
Definition PathExists (h : state) (path : string) : bool :=
  match Stat h path with inr _ => true | inl _ => false end.

(** [os.MkdirAll]. *)
Definition MkdirAll (h : state) (path : string) : state * option error :=
  match mkdirAll (components path) (fs h) with
  | inl e => (h, Some (PathError "mkdir" path e))
  | inr n => (set_fs n h, None)
  end.

(** [os.RemoveAll]. *)
Definition RemoveAll (h : state) (path : string) : state :=
  set_fs (remove (components path) (fs h)) h.

Definition is_empty_dir (n : node) : bool :=
  match n with Directory [] => true | _ => false end.

Definition is_dir (n : node) : bool :=
  match n with Directory _ => true | RegularFile _ => false end.

(** [os.Rename], after rename(2). *)
Definition Rename (h : state) (old new : string) : state * option error :=
  let fail e := (h, Some (LinkError "rename" old new e)) in
  let po := components old in
  let pn := components new in
  match walk po (fs h) with
  | inl e => fail e
  | inr src =>
      if decide (po = pn) then (h, None)
      else if bool_decide (po `prefix_of` pn) then fail EINVAL
      else
        let blocked :=
          match walk pn (fs h) with
          | inr dst =>
              if (is_dir src && negb (is_dir dst))%bool then Some ENOTDIR
              else if (negb (is_dir src) && is_dir dst)%bool then Some EEXIST
              else if (is_dir dst && negb (is_empty_dir dst))%bool
                   then Some ENOTEMPTY
              else None
          | inl _ => None
          end in
        match blocked, pn with
        | Some e, _ => fail e
        | None, [] => fail EEXIST
        | None, c :: p =>
            match put c p src (remove po (fs h)) with
            | inl e => fail e
            | inr n => (set_fs n h, None)
            end
        end
  end.

(** An open file: its content and the position of the next write. *)
Record handle := { content : list byte; pos : nat }.

(** [f.Write]: writes at the position and moves it on. *)
Definition f_Write (f : handle) (b : list byte) : handle :=
  let d := content f in
  {| content :=
       take (pos f) d ++ replicate (pos f - length d)%nat x00 ++ b
       ++ drop (pos f + length b)%nat d;
     pos := (pos f + length b)%nat |}.

(** [f.Seek(offset, io.SeekStart)]: a negative offset is an error and
    leaves the position alone. *)
Definition f_Seek (f : handle) (offset : Z) : handle :=
  if offset <? 0 then f
  else {| content := content f; pos := Z.to_nat offset |}.

End Host.

(* ====================================================================== *)
(** ** The branch engine                                                   *)
(* ====================================================================== *)

Module Branch.
Import Host.

(** [FileInfo]: name, size, the directory bit of the mode, checksum. *)
Record FileInfo := {
  FiName : string;
  FiSize : Z;
  FiIsDir : bool;
  FiChecksum : string
}.

#[global] Instance FileInfo_eq_dec : EqDecision FileInfo.
Proof. solve_decision. Defined.

(** [Branch] models a single exported branch. *)
Record Branch := {
  rootPath : string;
  Name : string;
  readonly : bool
}.

(** The value [requestHandler] encodes as its answer. *)
Inductive Result :=
  | ResNil
  | ResDir (dirs : list string) (fis : list (list FileInfo))
  | ResRead (n : Z) (buf : list byte)
  | ResInt (n : Z)
  | ResBool (b : bool).

Definition ItemOpAction := "itemop_action".
Definition ItemOpName := "itemop_name".
Definition ItemOpNewName := "itemop_newname".
Definition ItemOpActRename := "rename".
Definition ItemOpActDelete := "delete".
Definition ItemOpActMkDir := "mkdir".

Definition ParamAction := "a".
Definition ParamPath := "p".
Definition ParamPattern := "x".
Definition ParamRecursive := "r".
Definition ParamChecksums := "c".
Definition ParamOffset := "o".
Definition ParamSize := "s".

Definition OpDir := "dir".
Definition OpRead := "read".
Definition OpWrite := "write".
Definition OpItemOp := "itemop".

(** A Go map read at a key: the zero value where the key is missing. *)
Definition get (m : gmap string string) (k : string) : string :=
  default "" (m !! k).

(** [strconv.ParseInt(s, 10, 64)] (and [strconv.Atoi] on a 64 bit
    system). *)
Fixpoint parse_digits (acc : Z) (s : string) : option Z :=
  match s with
  | EmptyString => Some acc
  | String c s' =>
      let n := Z.of_nat (nat_of_ascii c) in
      if (48 <=? n) && (n <=? 57) then parse_digits (10 * acc + (n - 48)) s'
      else None
  end.

(** [strconv.Quote] of a text without special characters. *)
Definition Quote (s : string) : string :=
  String "034" (s +:+ String "034" EmptyString).

(** [fn] is the name of the function in the error text, [ParseInt] or
    [Atoi]. *)
Definition ParseInt (fn s : string) : error + Z :=
  let syntax :=
    Errorf ("strconv." +:+ fn +:+ ": parsing " +:+ Quote s
            +:+ ": invalid syntax") in
  let range :=
    Errorf ("strconv." +:+ fn +:+ ": parsing " +:+ Quote s
            +:+ ": value out of range") in
  let '(neg, digits) :=
    match s with
    | String "-" s' => (true, s')
    | String "+" s' => (false, s')
    | _ => (false, s)
    end in
  if decide (digits = "") then inl syntax
  else match parse_digits 0 digits with
       | None => inl syntax
       | Some v =>
           let v := if neg then - v else v in
           if (- 2 ^ 63 <=? v) && (v <? 2 ^ 63) then inr v else inl range
       end.

(** [strings.Replace(s, old, "", -1)] for a non-empty [old]; [skip] counts
    the characters of a match which are still to be dropped. *)
Fixpoint remove_all (old : string) (skip : nat) (s : string) : string :=
  match s with
  | EmptyString => EmptyString
  | String c s' =>
      match skip with
      | S k => remove_all old k s'
      | O =>
          if String.prefix old s
          then remove_all old (String.length old - 1) s'
          else String c (remove_all old 0 s')
      end
  end.

(** [IsEOF] tests if the given error is an EOF error. *)
Definition IsEOF (err : option error) : bool :=
  match err with
  | Some EOF => true
  | Some (RufsError _ detail _) => bool_decide (detail = Error EOF)
  | _ => false
  end.

(** The loop of the closure [growFile] of [WriteFile]: writes [toWrite]
    bytes of [buf] to [f], at most [DefaultReadBufferSize] at a time.  Each
    turn of the loop uses one unit of [fuel]. *)
Fixpoint growFile_loop (fuel : nat) (size : Z) (buf : list byte)
  (f : handle) (toWrite : Z) : handle :=
  match fuel with
  | O => f
  | S k =>
      if 0 <? toWrite then
        if size <? toWrite then
          growFile_loop k size buf
            (f_Write f (take (Z.to_nat size) buf)) (toWrite - size)
        else f_Write f (take (Z.to_nat toWrite) buf)
      else f
  end.

Section Engine.

(** [regexp.Compile]: an error, or what [MatchString] answers. *)
Variable regexp_Compile : string → error + (string → bool).
(** [stringutil.GlobToRegex]. *)
Variable GlobToRegex : string → error + string.
(** [fileutil.CheckSumFileFast] on the content of a file. *)
Variable CheckSumFileFast : list byte → string.

(** [checkReadOnly] returns an error if this branch is read-only. *)
Definition checkReadOnly (b : Branch) : option error :=
  if readonly b then
    Some (Errorf ("Branch " +:+ Name b +:+ " is read-only"))
  else None.

(** [constructSubPath]: the path below the root, or an error. *)
Definition constructSubPath (b : Branch) (h : state) (rpath : string)
  : error + string :=
  let subPath := Join [rootPath b; rpath] in
  let absSubPath := Abs (cwd h) subPath in
  if HasPrefix absSubPath (rootPath b) then inr subPath
  else inl (Errorf ("Requested path " +:+ rpath
                    +:+ " is outside of the branch")).

(** [ReadFile] reads up to [len(p)] bytes into [p] from the given offset.
    It returns the number of bytes read, the buffer and any error. *)
Definition ReadFile (b : Branch) (h : state) (spath : string)
  (p : list byte) (offset : Z) : Z * list byte * option error :=
  match constructSubPath b h spath with
  | inl err => (0, p, Some err)
  | inr subPath =>
      match Stat h subPath with
      | inl err => (0, p, Some err)
      | inr (Directory _) =>
          (0, p, Some (Errorf ("read /" +:+ spath +:+ ": is a directory")))
      | inr (RegularFile data) =>
          (* sr := io.NewSectionReader(f, 0, fi.Size()) *)
          if offset <? 0 then
            (0, p, Some (Errorf "Seek: invalid offset"))
          else if Z.of_nat (List.length data) <=? offset then (0, p, Some EOF)
          else
            let got := take (List.length p) (drop (Z.to_nat offset) data) in
            (Z.of_nat (List.length got), (got ++ drop (List.length got) p)%list, None)
      end
  end.

Definition growFile (h : state) (buf : list byte) (f : handle) (n : Z)
  : handle :=
  growFile_loop (Z.to_nat n) (DefaultReadBufferSize h) buf f n.

(** [WriteFile] writes [p] into the given file from the given offset.  It
    returns the number of written bytes and any error. *)
Definition WriteFile (b : Branch) (h : state) (spath : string)
  (p : list byte) (offset : Z) : state * (Z * option error) :=
  match checkReadOnly b with
  | Some err => (h, (0, Some err))
  | None =>
      let '(buf, h) := pool_Get h in
      let '(h', r) :=
        match constructSubPath b h spath with
        | inl err => (h, (0, Some err))
        | inr subPath =>
            match Stat h subPath with
            | inl err =>
                if IsNotExist (Some err) then
                  let '(dir, _) := Split subPath in
                  match MkdirAll h dir with
                  | (h1, Some err) => (h1, (0, Some err))
                  | (h1, None) =>
                      (* os.OpenFile(subPath, os.O_RDWR|os.O_CREATE, 0644) *)
                      let f0 := {| content := []; pos := 0 |} in
                      let f1 :=
                        if 0 <? offset then growFile h1 buf f0 offset
                        else f0 in
                      let f2 := f_Write f1 p in
                      match put_path (components subPath)
                              (RegularFile (content f2)) (fs h1) with
                      | inl e => (h1, (0, Some (PathError "open" subPath e)))
                      | inr n =>
                          (set_fs n h1, (Z.of_nat (List.length p), None))
                      end
                  end
                else (h, (0, Some err))
            | inr (Directory _) =>
                (* the error of os.OpenFile stays in the inner err *)
                (h, (0, None))
            | inr (RegularFile data) =>
                let f0 := {| content := data; pos := 0 |} in
                let size := Z.of_nat (List.length data) in
                let f1 :=
                  if size <? offset then
                    growFile h buf (f_Seek f0 size) (offset - size)
                  else f_Seek f0 offset in
                let f2 := f_Write f1 p in
                match put_path (components subPath)
                        (RegularFile (content f2)) (fs h) with
                | inl _ => (h, (0, None))
                | inr n => (set_fs n h, (Z.of_nat (List.length p), None))
                end
            end
        end in
      (pool_Put buf h', r)
  end.

(** [ioutil.ReadDir]: the entries of a directory, by name. *)
Definition ReadDir (h : state) (path : string)
  : error + list (string * node) :=
  match walk (components path) (fs h) with
  | inl e => inl (PathError "open" path e)
  | inr (RegularFile _) => inl (PathError "readdirent" path ENOTDIR)
  | inr (Directory es) => inr es
  end.

(** [WrapFileInfo] of the entry [name] of a directory.  A directory
    reports the size 4096. *)
Definition WrapFileInfo (name : string) (n : node) : FileInfo :=
  match n with
  | RegularFile d =>
      {| FiName := name; FiSize := Z.of_nat (List.length d);
         FiIsDir := false; FiChecksum := "" |}
  | Directory _ =>
      {| FiName := name; FiSize := 4096; FiIsDir := true;
         FiChecksum := "" |}
  end.

(** The closure [createRufsFileInfos] of [Dir]: keeps the entries whose
    name matches the pattern, wraps them and adds the checksum of the
    files if asked for. *)
Definition createRufsFileInfos (re : string → bool) (checksums : bool)
  (afis : list (string * node)) : list FileInfo :=
  List.map
    (λ e : string * node,
       let fi := WrapFileInfo e.1 e.2 in
       match e.2 with
       | RegularFile d =>
           if checksums then
             {| FiName := FiName fi; FiSize := FiSize fi;
                FiIsDir := FiIsDir fi;
                FiChecksum := CheckSumFileFast d |}
           else fi
       | Directory _ => fi
       end)
    (List.filter (λ e : string * node, re e.1) afis).

(** The closure [addSubDir] of [Dir]: walks [n], the directory whose
    path in the answer is [rp], and all directories below it. *)
Fixpoint addSubDir (re : string → bool) (checksums : bool) (rp : string)
  (n : node) : list (string * list FileInfo) :=
  match n with
  | RegularFile _ => []
  | Directory es =>
      (rp, createRufsFileInfos re checksums es)
      :: (fix sub (l : list (string * node)) :=
            match l with
            | [] => []
            | (name, ch) :: l' =>
                ((if is_dir ch
                  then addSubDir re checksums (Join [rp; name]) ch
                  else []) ++ sub l')%list
            end) es
  end.

(** [Dir] returns file listings matching a given pattern of one or more
    directories: the list of traversed directories and their
    corresponding contents. *)
Definition Dir (b : Branch) (h : state) (spath pattern : string)
  (recursive checksums : bool)
  : list string * list (list FileInfo) * option error :=
  match regexp_Compile pattern with
  | inl err => ([], [], Some err)
  | inr re =>
      let listing :=
        match constructSubPath b h spath with
        | inl err => inl err
        | inr subPath =>
            match ReadDir h subPath with
            | inl err => inl err
            | inr es =>
                if recursive
                then inr (addSubDir re checksums spath (Directory es))
                else inr [(spath, createRufsFileInfos re checksums es)]
            end
        end in
      match listing with
      | inr l => (l.*1, l.*2, None)
      | inl err =>
          (* Ignore any not exists errors *)
          ([], [], if IsNotExist (Some err) then None else Some err)
      end
  end.

(** The closure [fileFromOpData] of [ItemOp]. *)
Definition fileFromOpData (opdata : gmap string string) (subPath : string)
  (key : string) : error + string :=
  let '(_, name) := Split (get opdata key) in
  if decide (name = "") then
    inl (Errorf "This operation requires a specific file or directory")
  else inr (Join [subPath; name]).

(** The closure [del] of [ItemOp]. *)
Definition del (h : state) (name : string) : state * option error :=
  if PathExists h name then (RemoveAll h name, None)
  else (h, Some ErrNotExist).

(** The removal loop of the wildcard case of [ItemOp]. *)
Definition remove_matches (h : state) (rootdir : string)
  (dirs : list string) (fis : list (list FileInfo)) : state :=
  fold_left
    (λ h (e : string * list FileInfo),
       fold_left
         (λ h fi, RemoveAll h (Join [rootdir; e.1; FiName fi]))
         e.2 h)
    (zip dirs fis) h.

(** The action of [ItemOp] once the checks have passed: the state it
    leaves and the error of the action. *)
Definition ItemOp_action (b : Branch) (h : state) (spath subPath : string)
  (opdata : gmap string string) : state * option error :=
  let action := get opdata ItemOpAction in
  if decide (action = ItemOpActMkDir) then
    match fileFromOpData opdata subPath ItemOpName with
    | inl err => (h, Some err)
    | inr name => MkdirAll h name
    end
  else if decide (action = ItemOpActRename) then
    match fileFromOpData opdata subPath ItemOpName with
    | inl err => (h, Some err)
    | inr name =>
        match fileFromOpData opdata subPath ItemOpNewName with
        | inl err => (h, Some err)
        | inr newname => Rename h name newname
        end
    end
  else if decide (action = ItemOpActDelete) then
    match fileFromOpData opdata subPath ItemOpName with
    | inl err => (h, Some err)
    | inr name =>
        if ContainsChar name "*" then
          let '(rootdir, glob) := Split name in
          match GlobToRegex glob with
          | inl err => (h, Some err)
          | inr rex =>
              match Dir b h spath rex true false with
              | (dirs, fis, None) =>
                  (remove_matches h rootdir dirs fis, None)
              | (_, _, Some err) => (h, Some err)
              end
          end
        else del h name
    end
  else (h, None).

(** [ItemOp] executes a file or directory specific operation which can
    either succeed or fail (e.g. rename or delete). *)
Definition ItemOp (b : Branch) (h : state) (spath : string)
  (opdata : gmap string string) : state * (bool * option error) :=
  match checkReadOnly b with
  | Some err => (h, (false, Some err))
  | None =>
      match constructSubPath b h spath with
      | inl err => (h, (false, Some err))
      | inr subPath =>
          let '(h', err) := ItemOp_action b h spath subPath opdata in
          (* Determine if we succeeded *)
          (h', (bool_decide (err = None) || IsNotExist err, err))
      end
  end.

(** [requestHandler] handles incoming requests from other branches or
    trees.  The answer is the value which the handler encodes; the
    encoding itself is left out.  A negative size makes the slice
    expression [buf[:size]] panic. *)
Definition requestHandler (b : Branch) (h : state)
  (ctrl : gmap string string) (data : list byte)
  : state * outcome (Result * option error) :=
  let action := get ctrl ParamAction in
  let run : state * outcome (Result * option error) :=
    if decide (action = OpDir) then
      let rec := bool_decide (ToLower (get ctrl ParamRecursive) = "true") in
      let sum := bool_decide (ToLower (get ctrl ParamChecksums) = "true") in
      match Dir b h (get ctrl ParamPath) (get ctrl ParamPattern) rec sum with
      | (dirs, fis, None) => (h, Return (ResDir dirs fis, None))
      | (_, _, Some err) => (h, Return (ResNil, Some err))
      end
    else if decide (action = OpItemOp) then
      let '(h', (res, err)) := ItemOp b h (get ctrl ParamPath) ctrl in
      (h', Return (ResBool res, err))
    else if decide (action = OpRead) then
      match ParseInt "Atoi" (get ctrl ParamSize) with
      | inl err => (h, Return (ResNil, Some err))
      | inr size =>
          match ParseInt "ParseInt" (get ctrl ParamOffset) with
          | inl err => (h, Return (ResNil, Some err))
          | inr offset =>
              let '(buf, h1) := pool_Get h in
              let buf :=
                if Z.of_nat (List.length buf) <? size then make size
                else buf in
              if size <? 0 then (pool_Put buf h1, Panic)
              else
                let k := Z.to_nat size in
                let '(n, p, err) :=
                  ReadFile b h1 (get ctrl ParamPath) (take k buf) offset in
                (* the read went into the array of buf *)
                let buf := (p ++ drop k buf)%list in
                (pool_Put buf h1,
                 Return (match err with
                         | None => (ResRead n (take k buf), None)
                         | Some e => (ResNil, Some e)
                         end))
          end
      end
    else if decide (action = OpWrite) then
      match ParseInt "ParseInt" (get ctrl ParamOffset) with
      | inl err => (h, Return (ResNil, Some err))
      | inr offset =>
          let '(h', (n, err)) :=
            WriteFile b h (get ctrl ParamPath) data offset in
          (h', Return (ResInt n, err))
      end
    else (h, Return (ResNil, None)) in
  match run with
  | (h', Return (res, Some err)) =>
      (* Ensure we don't leak local paths *)
      let absRoot := Abs (cwd h) (rootPath b) in
      (h', Return (ResNil, Some (Errorf (remove_all absRoot 0 (Error err)))))
  | r => r
  end.

End Engine.

End Branch.

(* ====================================================================== *)
(** ** The tree client                                                     *)
(* ====================================================================== *)

Module Tree.
Import Branch.

(** [treeItem] models an item in the tree.  [children] is the map from
    path component to item, listed by name, the order [sort.Strings] gives
    and in which the items are visited. *)
#[warnings="-register-all"]
Inductive treeItem :=
  | TreeItem (children : list (string * treeItem))
      (remoteBranches : list string) (remoteBranchWriting : list bool).

Definition children (t : treeItem) :=
  match t with TreeItem c _ _ => c end.
Definition remoteBranches (t : treeItem) :=
  match t with TreeItem _ b _ => b end.
Definition remoteBranchWriting (t : treeItem) :=
  match t with TreeItem _ _ w => w end.

(** What the function [visit] of [findPathBranches] receives. *)
Record Visit := {
  v_item : treeItem;
  v_treePath : string;
  v_branchPath : list string;
  v_branches : list string;
  v_writable : list bool
}.

(** [createMappingPath] properly splits a given path into a mapping
    path. *)
Definition createMappingPath (path : string) : list string :=
  components path.

(** [findPathBranches] finds all relevant branches for a single path.  The
    result lists the calls of [visit] in their order. *)
Fixpoint findPathBranches (t : treeItem) (treePath : string)
  (branchPath : list string) (recursive : bool) : list Visit :=
  match t with
  | TreeItem chs bs ws =>
      {| v_item := t; v_treePath := treePath; v_branchPath := branchPath;
         v_branches := bs; v_writable := ws |}
      :: match branchPath with
         | c :: rest =>
             (fix find (l : list (string * treeItem)) : list Visit :=
                match l with
                | [] => []
                | (n, ch) :: l' =>
                    if decide (n = c)
                    then findPathBranches ch (Join [treePath; c]) rest
                           recursive
                    else find l'
                end) chs
         | [] =>
             if recursive then
               (fix all (l : list (string * treeItem)) : list Visit :=
                  match l with
                  | [] => []
                  | (n, ch) :: l' =>
                      (findPathBranches ch (Join [treePath; n]) []
                         recursive ++ all l')%list
                  end) chs
             else []
         end
  end.

(** [addMapping] adds a new mapping; an empty child name fails the
    assertion. *)
Fixpoint addMapping (mappingPath : list string) (branchName : string)
  (writable : bool) (t : treeItem) : outcome treeItem :=
  match mappingPath with
  | childName :: rest =>
      if decide (childName = "") then Panic
      else
        let child :=
          default (TreeItem [] [] []) (Host.assoc childName (children t)) in
        match addMapping rest branchName writable child with
        | Panic => Panic
        | Return ch =>
            Return (TreeItem (Host.put_entry childName ch (children t))
                      (remoteBranches t) (remoteBranchWriting t))
        end
  | [] =>
      Return (TreeItem (children t) (remoteBranches t ++ [branchName])
                (remoteBranchWriting t ++ [writable]))
  end.

(** [copy(p, buf)]. *)
Definition copy (p buf : list byte) : list byte :=
  (take (List.length p) buf ++ drop (List.length buf) p)%list.

(** The error [ReadFile] and [Stat] start from. *)
Definition ErrRemoteNotExist : error :=
  RufsError ErrRemoteAction (Error ErrNotExist) true.

Definition ErrNotWritable : error :=
  Errorf "All applicable branches for the requested path were mounted as not writable".

(** The names in a listing: the keys of the map [existing]. *)
Definition names (fis : list FileInfo) : list string := FiName <$> fis.

(** Only add new files to the overall result: the entries of [bfi] whose
    name is not among the names [fi] had before. *)
Definition add_new (fi bfi : list FileInfo) : list FileInfo :=
  let existing := names fi in
  (fi ++ List.filter (λ x, bool_decide (FiName x ∉ existing)) bfi)%list.

(** The loop over [dirs] which merges the listing [bfi] of the directory
    [d] into the overall result; [j] is the index of the head of [dirs]. *)
Fixpoint merge_found (j : nat) (dirs : list string) (d : string)
  (bfi : list FileInfo) (fis : list (list FileInfo)) (found : bool)
  : list (list FileInfo) * bool :=
  match dirs with
  | [] => (fis, found)
  | dir :: dirs' =>
      if decide (dir = d)
      then merge_found (S j) dirs' d bfi
             (alter (λ l, add_new l bfi) j fis) true
      else merge_found (S j) dirs' d bfi fis found
  end.

(** The loop over the directories [bdirs] a branch returned; [i] is the
    index of the head of [bdirs].  [None] is the panic of [bfis[i]] for a
    missing listing. *)
Fixpoint merge_branch (treePath : string) (i : nat) (bdirs : list string)
  (bfis : list (list FileInfo)) (dirs : list string)
  (fis : list (list FileInfo))
  : option (list string * list (list FileInfo)) :=
  match bdirs with
  | [] => Some (dirs, fis)
  | d :: bdirs' =>
      match bfis !! i with
      | None => None
      | Some bfi =>
          let d' := Join [treePath; d] in
          let '(fis1, found) := merge_found 0 dirs d' bfi fis false in
          if found then merge_branch treePath (S i) bdirs' bfis dirs fis1
          else merge_branch treePath (S i) bdirs' bfis
                 (dirs ++ [d']) (fis1 ++ [bfi])
      end
  end.

(** [fmt.Sprint] of a boolean. *)
Definition Sprint_bool (b : bool) : string := if b then "true" else "false".

(** The map [dirsMap] of [Dir]. *)
Definition make_dirsMap (dirs : list string) : gmap string nat :=
  fold_left (λ (m : gmap string nat) (e : nat * string), <[e.2 := e.1]> m)
    (imap (λ i d, (i, d)) dirs) ∅.

(** The pseudo directory of the mapping component [n]. *)
Definition pseudo_dir (n : string) : FileInfo :=
  {| FiName := n; FiSize := 0; FiIsDir := true; FiChecksum := "" |}.

(** Add pseudo dirs if a physical directory is not present: the loop over
    the children of an item. *)
Definition add_pseudo_dirs (re : string → bool) (chs : list string)
  (fi : list FileInfo) : list FileInfo :=
  fold_left
    (λ (fi : list FileInfo) (n : string),
       if bool_decide (n ∈ names fi) then fi
       else if re n then (fi ++ [pseudo_dir n])%list
       else fi)
    chs fi.

Section Client.

(** [regexp.Compile]. *)
Variable regexp_Compile : string → error + (string → bool).

(** The branches as the tree reaches them through [client.SendData]. *)
Variable World : Type.
Variable SendData :
  World → string → gmap string string → list byte →
  World * (list byte * option error).

(** Decoding the answers: an error, or the decoded value. *)
Variable decode_dir :
  list byte → error + (list string * list (list FileInfo)).
Variable decode_read : list byte → error + (Z * list byte).
Variable decode_int : list byte → error + Z.

(** The state the visitor of [Dir] works on. *)
Record DirState := {
  d_world : World;
  d_dirs : list string;
  d_fis : list (list FileInfo);
  d_err : option error
}.

(** One turn of the loop over the branches in the visitor of [Dir]. *)
Definition Dir_branch (pattern : string) (recursive checksums : bool)
  (treePath : string) (branchPath : list string)
  (st : option DirState) (b : string) : option DirState :=
  match st with
  | None => None
  | Some st =>
      match d_err st with
      | Some _ => Some st
      | None =>
          let '(w, (res, err)) :=
            SendData (d_world st) b
              {[ ParamAction := OpDir;
                 ParamPath := Join branchPath;
                 ParamPattern := pattern;
                 ParamRecursive := Sprint_bool recursive;
                 ParamChecksums := Sprint_bool checksums ]} [] in
          let fail e :=
            Some {| d_world := w; d_dirs := d_dirs st; d_fis := d_fis st;
                    d_err := Some e |} in
          match err with
          | Some e => fail e
          | None =>
              match decode_dir res with
              | inl e => fail e
              | inr (bdirs, bfis) =>
                  match merge_branch treePath 0 bdirs bfis
                          (d_dirs st) (d_fis st) with
                  | None => None
                  | Some (dirs, fis) =>
                      Some {| d_world := w; d_dirs := dirs; d_fis := fis;
                              d_err := None |}
                  end
              end
          end
      end
  end.

(** The visitor of the first traversal of [Dir]. *)
Definition Dir_visit (pattern : string) (recursive checksums : bool)
  (st : option DirState) (v : Visit) : option DirState :=
  fold_left
    (Dir_branch pattern recursive checksums (v_treePath v)
       (v_branchPath v))
    (v_branches v) st.

(** The visitor of the second traversal of [Dir]: adds the pseudo
    directories.  [None] is the panic of an index out of range. *)
Definition Dir_pseudo (re : string → bool) (dir : string)
  (st : option (list string * list (list FileInfo) * gmap string nat))
  (v : Visit)
  : option (list string * list (list FileInfo) * gmap string nat) :=
  match st with
  | None => None
  | Some (dirs, fis, dirsMap) =>
      if negb (HasPrefix (v_treePath v) dir) then st
      else
        let '(dirs, fis, dirsMap, idx) :=
          match dirsMap !! v_treePath v with
          | Some idx => (dirs, fis, dirsMap, idx)
          | None =>
              let dirs := (dirs ++ [v_treePath v])%list in
              let idx := (List.length dirs - 1)%nat in
              (dirs, (fis ++ [[]])%list,
               <[v_treePath v := idx]> dirsMap, idx)
          end in
        match fis !! idx with
        | None => None
        | Some fi =>
            Some (dirs,
                  <[idx := add_pseudo_dirs re
                             ((children (v_item v)).*1) fi]> fis,
                  dirsMap)
        end
  end.

Definition strip_slash (dir : string) : string :=
  if HasSuffix dir "/"
  then substring 0 (String.length dir - 1) dir
  else dir.

(** [Dir] returns file listings matching a given pattern of one or more
    directories. *)
Definition Dir (root : treeItem) (w : World) (dir pattern : string)
  (recursive checksums : bool)
  : World * outcome (list string * list (list FileInfo) * option error) :=
  match regexp_Compile pattern with
  | inl err => (w, Return ([], [], Some err))
  | inr re =>
      let dir := strip_slash dir in
      let visits :=
        findPathBranches root "/" (createMappingPath dir) recursive in
      match
        fold_left (Dir_visit pattern recursive checksums) visits
          (Some {| d_world := w; d_dirs := []; d_fis := [];
                   d_err := None |})
      with
      | None => (w, Panic)
      | Some st =>
          match
            fold_left (Dir_pseudo re dir) visits
              (Some (d_dirs st, d_fis st, make_dirsMap (d_dirs st)))
          with
          | None => (d_world st, Panic)
          | Some (dirs, fis, _) =>
              (d_world st, Return (dirs, fis, d_err st))
          end
      end
  end.

(** The variables of [ReadFile] its visitor works on. *)
Record ReadState := {
  r_world : World;
  r_n : Z;
  r_p : list byte;
  r_err : option error;
  r_success : bool
}.

(** One turn of the loop over the branches in the visitor of
    [ReadFile]. *)
Definition ReadFile_branch (file : string) (offset : Z)
  (branchPath : list string) (st : ReadState) (b : string) : ReadState :=
  if r_success st then st
  else
    let rpath := Join [Join branchPath; file] in
    let '(w, (res, err)) :=
      SendData (r_world st) b
        {[ ParamAction := OpRead;
           ParamPath := rpath;
           ParamOffset := pretty offset;
           ParamSize := pretty (Z.of_nat (List.length (r_p st))) ]} [] in
    let '(n, p, err) :=
      match err with
      | Some e => (r_n st, r_p st, Some e)
      | None =>
          match decode_read res with
          | inl e => (r_n st, r_p st, Some e)
          | inr (n, buf) => (n, copy (r_p st) buf, None)
          end
      end in
    {| r_world := w; r_n := n; r_p := p; r_err := err;
       r_success := bool_decide (err = None) || IsEOF err |}.

Definition ReadFile_visit (file : string) (offset : Z)
  (st : ReadState) (v : Visit) : ReadState :=
  fold_left (ReadFile_branch file offset (v_branchPath v))
    (v_branches v) st.

(** [ReadFile] reads up to [len(p)] bytes into [p] from the given
    offset.  It returns the number of bytes read, the buffer and any
    error encountered. *)
Definition ReadFile (root : treeItem) (w : World) (spath : string)
  (p : list byte) (offset : Z) : World * (Z * list byte * option error) :=
  let '(dir, file) := Split spath in
  let st :=
    fold_left (ReadFile_visit file offset)
      (findPathBranches root dir (createMappingPath dir) false)
      {| r_world := w; r_n := 0; r_p := p;
         r_err := Some ErrRemoteNotExist; r_success := false |} in
  (r_world st, (r_n st, r_p st, r_err st)).

(** The variables of [WriteFile] its visitor works on. *)
Record WriteState := {
  w_world : World;
  w_n : Z;
  w_err : option error;
  w_totalCount : Z;
  w_ignoreCount : Z
}.

(** One turn of the loop over the branches in the visitor of
    [WriteFile]; [ib] is the index and the name of the branch.  [None]
    is the panic of [writable[i]] for a missing flag. *)
Definition WriteFile_branch (file : string) (p : list byte) (offset : Z)
  (branchPath : list string) (writable : list bool)
  (st : option WriteState) (ib : nat * string) : option WriteState :=
  match st with
  | None => None
  | Some st =>
      match w_err st with
      | Some _ => Some st
      | None =>
          match writable !! ib.1 with
          | None => None
          | Some false =>
              (* Ignore all non-writable branches *)
              Some {| w_world := w_world st; w_n := w_n st;
                      w_err := None;
                      w_totalCount := w_totalCount st + 1;
                      w_ignoreCount := w_ignoreCount st + 1 |}
          | Some true =>
              let rpath := Join [Join branchPath; file] in
              let '(w, (res, err)) :=
                SendData (w_world st) ib.2
                  {[ ParamAction := OpWrite;
                     ParamPath := rpath;
                     ParamOffset := pretty offset ]} p in
              let '(n, err) :=
                match err with
                | Some e => (w_n st, Some e)
                | None =>
                    match decode_int res with
                    | inl e => (w_n st, Some e)
                    | inr n => (n, None)
                    end
                end in
              Some {| w_world := w; w_n := n; w_err := err;
                      w_totalCount := w_totalCount st + 1;
                      w_ignoreCount := w_ignoreCount st |}
          end
      end
  end.

Definition WriteFile_visit (file : string) (p : list byte) (offset : Z)
  (st : option WriteState) (v : Visit) : option WriteState :=
  fold_left
    (WriteFile_branch file p offset (v_branchPath v) (v_writable v))
    (imap (λ i b, (i, b)) (v_branches v)) st.

(** [WriteFile] writes [p] into the given file from the given offset.  It
    returns the number of written bytes and any error encountered. *)
Definition WriteFile (root : treeItem) (w : World) (spath : string)
  (p : list byte) (offset : Z) : outcome (World * (Z * option error)) :=
  let '(dir, file) := Split spath in
  match
    fold_left (WriteFile_visit file p offset)
      (findPathBranches root dir (createMappingPath dir) false)
      (Some {| w_world := w; w_n := 0; w_err := None;
               w_totalCount := 0; w_ignoreCount := 0 |})
  with
  | None => Panic
  | Some st =>
      if bool_decide (w_err st = None)
         && bool_decide (w_totalCount st = w_ignoreCount st)
      then Return (w_world st, (w_n st, Some ErrNotWritable))
      else Return (w_world st, (w_n st, w_err st))
  end.

End Client.

End Tree.

(* ====================================================================== *)
(** ** The properties under study                                          *)
(* ====================================================================== *)

Module Props.

(** *** Transport *)

Section Transport.
Import Node.

Variable sha256_hex : list byte → string.
Variable World : Type.
Variable dial : World → string → World * DialResult.
Variable call :
  World → Conn → RPCFunction → string → RufsNodeToken →
  option RequestArgs → World * (Response * option error).

Abbreviation fingerprint := (fingerprint sha256_hex).
Abbreviation SendRequest := (SendRequest sha256_hex World dial call).

(** Every cached connection of a peer with a non-empty expected
    fingerprint is a TLS connection whose peer leaf certificate hashes
    to that fingerprint. *)
Definition pinned (c : Client) : Prop :=
  ∀ node fp conn,
    fingerprints c !! node = Some fp → fp ≠ "" →
    conns c !! node = Some conn →
    ∃ raw, conn_peer_cert conn = Some raw ∧ fingerprint raw = fp.

(** What a request does on the first connection to a peer whose
    listener presents the leaf certificate [raw]: trust on first use for
    an empty expected fingerprint, and the untrusted target error with
    no cached connection for a differing one. *)
Definition first_connection_checked (c : Client) (w : World)
  (node : string) (remoteCall : RPCFunction) (args : option RequestArgs)
  : Prop :=
  ∀ laddr w1 raw,
    peers c !! node = Some laddr →
    conns c !! node = None →
    dial w laddr = (w1, DialOk (Some raw)) →
    let expected := default "" (fingerprints c !! node) in
    let r := SendRequest c w node remoteCall args in
    (expected = "" → fingerprints r.1.1 !! node = Some (fingerprint raw))
    ∧ (expected ≠ "" → expected ≠ fingerprint raw →
       r.2 = Return (RespNil,
               Some (RufsError ErrUntrustedTarget node false))
       ∧ conns r.1.1 !! node = None).

(** What a pass of [SendRequest] leaves, for a client with a certificate:
    the certificate, the invariant, a non-empty fingerprint of the node,
    and the redial flag when the pass asks for another one. *)
Definition after_attempt (c : Client) (node : string) (a : Attempt World)
  : Prop :=
  let c' := match a with Done c' _ _ => c' | Again c' _ => c' end in
  has_cert c' = true
  ∧ (pinned c → pinned c')
  ∧ (∀ fp, fingerprints c !! node = Some fp → fp ≠ "" →
           fingerprints c' !! node = Some fp)
  ∧ match a with Again c' _ => redial c' = true | _ => True end.

(** The transport property for one request of one client. *)
Definition pinning (c : Client) (w : World) (node : string)
  (remoteCall : RPCFunction) (args : option RequestArgs) : Prop :=
  first_connection_checked c w node remoteCall args
  ∧ (pinned c → pinned (SendRequest c w node remoteCall args).1.1).

End Transport.

(** *** Branch engine *)

Section Engine.
Import Host Branch.

(** [p] is [root] or lies below it: the components of [root] start the
    components of [p]. *)
Definition descendant (root p : string) : Prop :=
  components root `prefix_of` components p.

(** The sandbox property for one path argument: when the check lets the
    path through, the absolute path is a descendant of the root, and
    when the absolute path is not one, the check fails with the error. *)
Definition sandboxed (b : Branch) (h : state) (rpath : string) : Prop :=
  let absSubPath := Abs (cwd h) (Join [rootPath b; rpath]) in
  match constructSubPath b h rpath with
  | inr _ => descendant (rootPath b) absSubPath
  | inl err =>
      err = Errorf ("Requested path " +:+ rpath
                    +:+ " is outside of the branch")
  end.

(** The content of the regular file at [path], if there is one. *)
Definition file_content (h : state) (path : string) : option (list byte) :=
  match Stat h path with
  | inr (RegularFile d) => Some d
  | _ => None
  end.

(** A write beyond the end of the file [old] leaves zero bytes between
    the old end and [offset], and the payload from [offset] on. *)
Definition zero_padded (old new p : list byte) (offset : Z) : Prop :=
  new = (old ++ replicate (Z.to_nat offset - List.length old)%nat x00
         ++ p)%list.

(** The slice the pool hands out is zeroed and long enough: this holds
    for a new slice, not for every slice which was put back. *)
Definition pool_clean (h : state) : Prop :=
  match byteSlicePool h with
  | [] => True
  | buf :: _ =>
      ∃ m, buf = replicate m x00 ∧ DefaultReadBufferSize h ≤ Z.of_nat m
  end.

(** The handle [WriteFile] has when it writes the payload: at [offset],
    after the file was grown where the offset lies beyond its end. *)
Definition seek_or_grow (h : state) (buf : list byte)
  (old : option (list byte)) (offset : Z) : handle :=
  match old with
  | Some data =>
      let f0 := {| content := data; pos := 0 |} in
      let size := Z.of_nat (List.length data) in
      if size <? offset
      then growFile h buf (f_Seek f0 size) (offset - size)
      else f_Seek f0 offset
  | None =>
      let f0 := {| content := []; pos := 0 |} in
      if 0 <? offset then growFile h buf f0 offset else f0
  end.

(** The round trip for one path and one byte string: a successful write
    at offset 0 followed by a read at offset 0 into a buffer [buf] at
    least as large gives back exactly the written bytes. *)
Definition write_read_roundtrip (b : Branch) (h : state) (spath : string)
  (bytes buf : list byte) : Prop :=
  (List.length bytes ≤ List.length buf)%nat →
  ∀ h' n, WriteFile b h spath bytes 0 = (h', (n, None)) →
  ∃ buf', ReadFile b h' spath buf 0
          = (Z.of_nat (List.length bytes), buf', None)
          ∧ take (List.length bytes) buf' = bytes.

End Engine.

(** *** Tree client *)

Section Client.
Import Branch Tree.

Variable World : Type.
Variable SendData :
  World → string → gmap string string → list byte →
  World * (list byte * option error).
Variable decode_dir :
  list byte → error + (list string * list (list FileInfo)).
Variable decode_read : list byte → error + (Z * list byte).
Variable decode_int : list byte → error + Z.

(** The branches [ReadFile] may ask, in overlay order, each with the
    path to ask it for. *)
Definition read_calls (root : treeItem) (spath : string)
  : list (string * string) :=
  let '(dir, file) := Split spath in
  v ← findPathBranches root dir (createMappingPath dir) false;
  (λ b, (b, Join [Join (v_branchPath v); file])) <$> v_branches v.

(** The answer of one branch to a read: an error, or the count and the
    bytes. *)
Definition read_answer (w : World) (b rpath : string) (offset : Z)
  (size : nat) : World * (error + Z * list byte) :=
  let '(w', (res, err)) :=
    SendData w b
      {[ ParamAction := OpRead; ParamPath := rpath;
         ParamOffset := pretty offset;
         ParamSize := pretty (Z.of_nat size) ]} [] in
  (w', match err with
       | Some e => inl e
       | None => decode_read res
       end).

(** The read as the specification words it: the branches are tried in
    order; the first one which succeeds or answers EOF ends the walk; on
    success the bytes go to the buffer and the count is returned; any
    other error is skipped in favour of the later branches; when the walk
    ends without such a branch, the last observed error [last] is
    returned. *)
Fixpoint ReadFile_spec (calls : list (string * string)) (w : World)
  (p : list byte) (offset : Z) (last : option error)
  : World * (Z * list byte * option error) :=
  match calls with
  | [] => (w, (0, p, last))
  | (b, rpath) :: rest =>
      match read_answer w b rpath offset (List.length p) with
      | (w', inr (n, buf)) => (w', (n, copy p buf, None))
      | (w', inl e) =>
          if IsEOF (Some e) then (w', (0, p, Some e))
          else ReadFile_spec rest w' p offset (Some e)
      end
  end.

(** The branches which apply to a write, in mapping-tree order, each
    with the path to write and its writable flag ([None]: the item has no
    flag for the branch). *)
Definition write_targets (root : treeItem) (spath : string)
  : list (string * string * option bool) :=
  let '(dir, file) := Split spath in
  v ← findPathBranches root dir (createMappingPath dir) false;
  imap (λ i b, (b, Join [Join (v_branchPath v); file], v_writable v !! i))
    (v_branches v).

(** The answer of one branch to a write: an error, or the count. *)
Definition write_answer (w : World) (b rpath : string) (p : list byte)
  (offset : Z) : World * (error + Z) :=
  let '(w', (res, err)) :=
    SendData w b
      {[ ParamAction := OpWrite; ParamPath := rpath;
         ParamOffset := pretty offset ]} p in
  (w', match err with
       | Some e => inl e
       | None => decode_int res
       end).

(** The answers to the writes which are dispatched, in their order:
    one write for each writable target, up to the first one which
    fails. *)
Fixpoint write_answers (targets : list (string * string * option bool))
  (w : World) (p : list byte) (offset : Z) : list (error + Z) :=
  match targets with
  | [] => []
  | (b, rpath, Some true) :: rest =>
      match write_answer w b rpath p offset with
      | (w', inr n) => inr n :: write_answers rest w' p offset
      | (w', inl e) => [inl e]
      end
  | (_, _, Some false) :: rest => write_answers rest w p offset
  | (_, _, None) :: _ => []
  end.

(** The write as the specification words it: when as many branches
    apply as are not writable the call fails with the not writable
    error, otherwise it returns the byte count from the last dispatched
    write. *)
Definition write_returns_last_count (root : treeItem) (w : World)
  (spath : string) (p : list byte) (offset : Z) : Prop :=
  let targets := write_targets root spath in
  let ignored := List.filter (λ t, bool_decide (t.2 = Some false)) targets in
  match WriteFile World SendData decode_int root w spath p offset with
  | Panic => False
  | Return (_, (n, err)) =>
      if decide (List.length targets = List.length ignored)
      then err = Some ErrNotWritable
      else ∃ k, last (write_answers targets w p offset) = Some (inr k)
                ∧ n = k
  end.

(** The write as the code does it: the writable targets are written in
    order until a write fails; [n] is the count of the last write which
    succeeded and [dispatched] tells whether there was a write at all. *)
Fixpoint WriteFile_spec (targets : list (string * string * option bool))
  (w : World) (p : list byte) (offset : Z) (n : Z) (dispatched : bool)
  : outcome (World * (Z * option error)) :=
  match targets with
  | [] =>
      if dispatched then Return (w, (n, None))
      else Return (w, (n, Some ErrNotWritable))
  | (b, rpath, Some true) :: rest =>
      match write_answer w b rpath p offset with
      | (w', inr n') => WriteFile_spec rest w' p offset n' true
      | (w', inl e) => Return (w', (n, Some e))
      end
  | (_, _, Some false) :: rest =>
      WriteFile_spec rest w p offset n dispatched
  | (_, _, None) :: _ => Panic
  end.

(** The items [Dir] visits, in both of its traversals. *)
Definition dir_visits (root : treeItem) (dir : string) (recursive : bool)
  : list Visit :=
  findPathBranches root "/" (createMappingPath (strip_slash dir)) recursive.

(** The branches [Dir] asks, in visit order: the tree path of the item,
    the path to ask for, and the branch. *)
Definition dir_calls (root : treeItem) (dir : string) (recursive : bool)
  : list (string * list string * string) :=
  v ← dir_visits root dir recursive;
  (λ b, (v_treePath v, v_branchPath v, b)) <$> v_branches v.

(** The listings the branches contribute to a [Dir], in visit order and
    up to the first error: each with the tree path it is for. *)
Fixpoint dir_answers (calls : list (string * list string * string))
  (w : World) (pattern : string) (recursive checksums : bool)
  : list (string * list FileInfo) :=
  match calls with
  | [] => []
  | (treePath, branchPath, b) :: rest =>
      let '(w', (res, err)) :=
        SendData w b
          {[ ParamAction := OpDir; ParamPath := Join branchPath;
             ParamPattern := pattern;
             ParamRecursive := Sprint_bool recursive;
             ParamChecksums := Sprint_bool checksums ]} [] in
      match err with
      | Some _ => []
      | None =>
          match decode_dir res with
          | inl _ => []
          | inr (bdirs, bfis) =>
              (zip ((λ d, Join [treePath; d]) <$> bdirs) bfis
               ++ dir_answers rest w' pattern recursive checksums)%list
          end
      end
  end.

(** The world after the calls of a [Dir], and the error which ended
    them: the first error of a branch or of the decoder. *)
Fixpoint dir_end (calls : list (string * list string * string))
  (w : World) (pattern : string) (recursive checksums : bool)
  : World * option error :=
  match calls with
  | [] => (w, None)
  | (treePath, branchPath, b) :: rest =>
      let '(w', (res, err)) :=
        SendData w b
          {[ ParamAction := OpDir; ParamPath := Join branchPath;
             ParamPattern := pattern;
             ParamRecursive := Sprint_bool recursive;
             ParamChecksums := Sprint_bool checksums ]} [] in
      match err with
      | Some e => (w', Some e)
      | None =>
          match decode_dir res with
          | inl e => (w', Some e)
          | inr _ => dir_end rest w' pattern recursive checksums
          end
      end
  end.

(** A branch answers with fewer listings than directories: the visitor
    of [Dir] then panics at [bfis[i]]. *)
Definition listing_missing : Prop :=
  ∃ w b ctrl w' res bdirs bfis,
    SendData w b ctrl [] = (w', (res, None))
    ∧ decode_dir res = inr (bdirs, bfis)
    ∧ (List.length bfis < List.length bdirs)%nat.

(** The end of [WriteFile], after the traversal. *)
Definition write_result (st : option (WriteState World))
  : outcome (World * (Z * option error)) :=
  match st with
  | None => Panic
  | Some st =>
      if bool_decide (w_err World st = None)
         && bool_decide (w_totalCount World st = w_ignoreCount World st)
      then Return (w_world World st, (w_n World st, Some ErrNotWritable))
      else Return (w_world World st, (w_n World st, w_err World st))
  end.

(** One turn of the loop over the branches of [WriteFile], for a branch
    given with the branch path and the flags of its item and with its
    index. *)
Definition write_step (file : string) (p : list byte) (offset : Z)
  (st : option (WriteState World))
  (t : list string * list bool * nat * string)
  : option (WriteState World) :=
  WriteFile_branch World SendData decode_int file p offset
    t.1.1.1 t.1.1.2 st (t.1.2, t.2).

(** One turn of the loop over the branches of [Dir], for a call. *)
Definition dir_step (pattern : string) (recursive checksums : bool)
  (st : option (DirState World)) (c : string * list string * string)
  : option (DirState World) :=
  Dir_branch World SendData decode_dir pattern recursive checksums
    c.1.1 c.1.2 st c.2.

(** Merging one listing, given with its tree path, into the overall
    result. *)
Definition merge_one (st : list string * list (list FileInfo))
  (c : string * list FileInfo) : list string * list (list FileInfo) :=
  let '(fis1, found) := merge_found 0 st.1 c.1 c.2 st.2 false in
  if found then (st.1, fis1) else (st.1 ++ [c.1], fis1 ++ [c.2])%list.

(** The answers of the branches are well formed: a listing for each
    directory, and no name twice in a listing. *)
Definition answers_well_formed : Prop :=
  ∀ res bdirs bfis,
    decode_dir res = inr (bdirs, bfis) →
    (List.length bdirs ≤ List.length bfis)%nat
    ∧ Forall (λ l, NoDup (names l)) bfis.

End Client.

(** *** The overlay of the listings *)

Section Overlay.
Import Branch Tree.

(** The visits of the second traversal which add to the listing of the
    tree path [T]: those of an item with this tree path, when it starts
    with the directory asked for. *)
Definition pseudo_visits (visits : list Visit) (dir T : string)
  : list Visit :=
  List.filter
    (λ v, HasPrefix (v_treePath v) dir && bool_decide (v_treePath v = T))
    visits.

(** The names of the children of these items: the mapping components
    below the tree path [T]. *)
Definition pseudo_children (visits : list Visit) (dir T : string)
  : list string :=
  v ← pseudo_visits visits dir T; (children (v_item v)).*1.

(** The listings contributed for the tree path [T], in visit order. *)
Definition contributions (answers : list (string * list FileInfo))
  (T : string) : list (list FileInfo) :=
  (List.filter (λ c, bool_decide (c.1 = T)) answers).*2.

(** The overlay as the specification words it: the entries of the
    listings are concatenated in order and deduplicated by file name, the
    first listing in order wins: an entry is left out when an earlier
    listing has an entry of its name.  [seen] holds the names of the
    earlier listings. *)
Fixpoint first_wins_from (seen : list string) (cs : list (list FileInfo))
  : list FileInfo :=
  match cs with
  | [] => []
  | bfi :: cs' =>
      (List.filter (λ x, bool_decide (FiName x ∉ seen)) bfi
       ++ first_wins_from (seen ++ names bfi) cs')%list
  end.

Definition first_wins (cs : list (list FileInfo)) : list FileInfo :=
  first_wins_from [] cs.

(** The entries [ps] are the pseudo directories for the listing [l]
    and the mapping components [chs]: one for each component which
    matches the pattern and is not a name of [l], and nothing else. *)
Definition pseudo_dirs_for (re : string → bool) (chs : list string)
  (l ps : list FileInfo) : Prop :=
  NoDup (names ps)
  ∧ Forall (λ x, x = pseudo_dir (FiName x)) ps
  ∧ ∀ n, n ∈ names ps ↔ n ∈ chs ∧ re n = true ∧ n ∉ names l.

(** The state [st] of the first traversal of [Dir] once the
    contributions [log] are merged: the directories are those of the
    contributions, each once, and the listing of each is the overlay of
    its contributions. *)
Definition merged_exactly (log : list (string * list FileInfo))
  (st : list string * list (list FileInfo)) : Prop :=
  List.length st.1 = List.length st.2
  ∧ NoDup st.1
  ∧ (∀ T, T ∈ st.1 ↔ ∃ bfi, (T, bfi) ∈ log)
  ∧ ∀ j T l,
      st.1 !! j = Some T → st.2 !! j = Some l →
      l = first_wins (contributions log T).

(** The state of the second traversal of [Dir] is consistent: a listing
    for each directory, and each directory once and with its index in
    the map. *)
Definition pseudo_state
  (s : list string * list (list FileInfo) * gmap string nat) : Prop :=
  List.length s.1.1 = List.length s.1.2
  ∧ NoDup s.1.1
  ∧ ∀ T idx, s.2 !! T = Some idx ↔ s.1.1 !! idx = Some T.

(** The result [s'] of the second traversal over [visits], from [s]: it
    has the directories of [s] at their places and, behind them, the
    visited tree paths which were missing; each of its listings is the
    one of [s], or the empty one of a new directory, followed by its
    pseudo directories. *)
Definition grown (re : string → bool) (dir : string) (visits : list Visit)
  (s s' : list string * list (list FileInfo)) : Prop :=
  (∃ extra,
     s'.1 = (s.1 ++ extra)%list
     ∧ ∀ T, T ∈ extra ↔ (T ∉ s.1) ∧ pseudo_visits visits dir T ≠ [])
  ∧ (List.length s.2 ≤ List.length s'.2)%nat
  ∧ ∀ j T l,
      s'.1 !! j = Some T → s'.2 !! j = Some l →
      ∃ ps, l = (default [] (s.2 !! j) ++ ps)%list
            ∧ pseudo_dirs_for re (pseudo_children visits dir T)
                (default [] (s.2 !! j)) ps.

End Overlay.

End Props.

(* ====================================================================== *)
(** ** Example inputs                                                      *)
(* ====================================================================== *)

Module Examples.

Definition bytes (s : string) : list byte := list_byte_of_string s.

(** *** Transport: a network with one listener *)

(** A digest function with the shape of SHA-256 hex digests. *)
Definition sha0 (b : list byte) : string :=
  "0000000000000000000000000000000000000000000000000000000000000000".

(** Every dial reaches a TLS listener which presents one certificate. *)
Definition dial0 (w : unit) (laddr : string) : unit * Node.DialResult :=
  (tt, Node.DialOk (Some (bytes "cert"))).

(** Every dial reaches a listener which does not speak TLS. *)
Definition dial_plain (w : unit) (laddr : string)
  : unit * Node.DialResult :=
  (tt, Node.DialOk None).

(** Every call is answered with a Pong. *)
Definition call0 (w : unit) (conn : Node.Conn) (f : Node.RPCFunction)
  (target : string) (tok : Node.RufsNodeToken)
  (args : option Node.RequestArgs)
  : unit * (Node.Response * option error) :=
  (tt, (Node.RespStrings ["Pong"], None)).

Definition token0 : Node.RufsNodeToken :=
  {| Node.NodeName := "tree"; Node.NodeAuth := "AB12" |}.

(** A client with the peer A registered under the expected fingerprint
    de:ad, with or without a client certificate. *)
Definition client0 (cert : bool) : Node.Client :=
  (Node.RegisterPeer (Node.NewClient token0 cert) "A" "localhost:9020"
     "de:ad").1.

(** A server with the node A whose secret is s3cret; the digest function
    reverses nothing and just tags its input. *)
Definition hex0 (s : string) : string := "H(" +:+ s +:+ ")".

Definition server0 : Node.RufsServer :=
  {| Node.nodes :=
       {[ "A" := {| Node.name := "A"; Node.secret := "s3cret";
                    Node.DataHandler := None |} ]} |}.

(** *** Branch engine: a host with the branch foo next to foobar *)

Definition re0 (pattern : string) : error + (string → bool) :=
  inr (λ _, true).
Definition gl0 (glob : string) : error + string := inr glob.
Definition ck0 (data : list byte) : string := "".

Definition branch0 : Branch.Branch :=
  {| Branch.rootPath := "/data/foo"; Branch.Name := "foo";
     Branch.readonly := false |}.

Definition fs0 : Host.node :=
  Host.Directory
    [("data",
      Host.Directory
        [("foo", Host.Directory [("a", Host.RegularFile (bytes "XY"))]);
         ("foobar",
          Host.Directory [("secret", Host.RegularFile (bytes "top"))])])].

Definition host0 : Host.state :=
  {| Host.fs := fs0; Host.cwd := "/";
     Host.DefaultReadBufferSize := 16384; Host.byteSlicePool := [] |}.

(** The control map of a read of 2 bytes of the file a. *)
Definition read_a : gmap string string :=
  {[ "a" := "read"; "p" := "a"; "o" := "0"; "s" := "2" ]}.

(** The host once the branch has answered the request [read_a]. *)
Definition host1 : Host.state :=
  (Branch.requestHandler re0 gl0 ck0 branch0 host0 read_a []).1.

(** *** Tree client: the branches b1 and b2 mounted at the root *)

Definition tree0 : Tree.treeItem :=
  Tree.TreeItem [] ["b1"; "b2"] [true; true].

(** The answers are decoded by their length. *)
Definition decode_int0 (res : list byte) : error + Z :=
  inr (Z.of_nat (List.length res)).

(** The branch b1 answers every request with five bytes and the branch b2
    fails every request. *)
Definition SendData0 (w : unit) (b : string) (ctrl : gmap string string)
  (data : list byte) : unit * (list byte * option error) :=
  if decide (b = "b1") then (tt, (bytes "12345", None))
  else (tt, ([], Some (RufsError ErrRemoteAction "no space left" false))).

(** A read is answered with its bytes, and their number as the count. *)
Definition decode_read0 (res : list byte) : error + (Z * list byte) :=
  match res with
  | _ :: _ => inr (Z.of_nat (List.length res), res)
  | [] => inl EOF
  end.

(** The branches foo and bar mounted at the root, foo first: foo holds
    test1 and test2 of 10 bytes, bar holds test1 of 11 bytes.  An answer
    names its branch. *)
Definition tree1 : Tree.treeItem :=
  Tree.TreeItem [] ["foo"; "bar"] [true; true].

Definition SendData1 (w : unit) (b : string) (ctrl : gmap string string)
  (data : list byte) : unit * (list byte * option error) :=
  (tt, (bytes b, None)).

Definition file_info (n : string) (size : Z) : Branch.FileInfo :=
  {| Branch.FiName := n; Branch.FiSize := size; Branch.FiIsDir := false;
     Branch.FiChecksum := "" |}.

Definition decode_dir1 (res : list byte)
  : error + (list string * list (list Branch.FileInfo)) :=
  if decide (res = bytes "foo")
  then inr ([""], [[file_info "test1" 10; file_info "test2" 10]])
  else inr ([""], [[file_info "test1" 11]]).

End Examples.
(* ====================================================================== *)
(** ** Package node: the list of peers                                     *)
(* ====================================================================== *)

Module NodePeers.
Import Node.

(** The order of Go on strings: byte by byte. *)
Definition le (a b : string) : Prop := String.leb a b = true.

#[global] Instance le_dec (a b : string) : Decision (le a b).
Proof. unfold le. apply _. Defined.

(** [sort.Strings].  The order is total and antisymmetric, so the result
    does not depend on the sorting algorithm. *)
Definition sort_Strings (l : list string) : list string := merge_sort le l.

(** [Peers] returns all registered peers and their expected
    fingerprints. *)
Definition Peers (c : Client) : list string * list string :=
  let ret := sort_Strings ((map_to_list (peers c)).*1) in
  (ret, (λ node, default "" (fingerprints c !! node)) <$> ret).

End NodePeers.

(* ====================================================================== *)
(** ** The branch engine: whole files                                      *)
(* ====================================================================== *)

Module BranchIO.
Import Host Branch.

(** [bytes.Buffer] as an [io.Writer]: [Write] appends and never fails. *)
Definition Buffer_Write (buf p : list byte) : list byte * option error :=
  ((buf ++ p)%list, None).

(** [bytes.Buffer] as an [io.Reader]: [Read] into a slice of [n] bytes
    gives the next bytes, as many as there are and the slice holds; an
    empty buffer gives [io.EOF], unless the slice is empty too. *)
Definition Buffer_Read (buf : list byte) (n : nat)
  : list byte * (list byte * option error) :=
  match buf with
  | [] => ([], ([], if decide (n = 0%nat) then None else Some EOF))
  | _ => (drop n buf, (take n buf, None))
  end.

Section Buffers.

(** An [io.Writer]: the bytes go in, the state of the writer and the
    error come out. *)
Variable W : Type.
Variable Write : W → list byte → W * option error.

(** An [io.Reader]: [Read] into a slice of the given length gives the
    bytes it has put at the start of the slice, and the error. *)
Variable R : Type.
Variable Read : R → nat → R * (list byte * option error).

(** The loop of [ReadFileToBuffer]; each turn uses one unit of [fuel]. *)
Fixpoint ReadFileToBuffer_loop (fuel : nat) (b : Branch) (h : state)
  (spath : string) (readBuf : list byte) (offset : Z) (buf : W)
  : option (W * option error) :=
  match fuel with
  | O => None
  | S k =>
      let '(n, readBuf, err) := ReadFile b h spath readBuf offset in
      match err with
      | None =>
          let '(buf, err) := Write buf (take (Z.to_nat n) readBuf) in
          match err with
          | None =>
              ReadFileToBuffer_loop k b h spath readBuf (offset + n) buf
          | Some e => Some (buf, Some e)
          end
      | Some e =>
          (* We reached the end of the file *)
          if IsEOF (Some e) then Some (buf, None) else Some (buf, Some e)
      end
  end.

(** [ReadFileToBuffer] reads a complete file into a given buffer which
    implements [io.Writer].  [None]: the fuel did not suffice; [Panic]:
    [make] was given a negative length. *)
Definition ReadFileToBuffer (fuel : nat) (b : Branch) (h : state)
  (spath : string) (buf : W) : option (outcome (W * option error)) :=
  if DefaultReadBufferSize h <? 0 then Some Panic
  else
    Return <$> ReadFileToBuffer_loop fuel b h spath
                 (make (DefaultReadBufferSize h)) 0 buf.

(** The loop of [WriteFileFromBuffer]; [size] is the length of
    [writeBuf], and [p] is [writeBuf[:n]] after the read. *)
Fixpoint WriteFileFromBuffer_loop (fuel : nat) (b : Branch) (h : state)
  (spath : string) (size : nat) (offset : Z) (buf : R)
  : option (state * R * option error) :=
  match fuel with
  | O => None
  | S k =>
      let '(buf, (p, err)) := Read buf size in
      match err with
      | None =>
          let '(h', (_, err)) := WriteFile b h spath p offset in
          let offset := offset + Z.of_nat (List.length p) in
          match err with
          | None => WriteFileFromBuffer_loop k b h' spath size offset buf
          | Some e => Some (h', buf, Some e)
          end
      | Some e =>
          if IsEOF (Some e) then
            (* We reached the end of the file *)
            Some ((WriteFile b h spath [] offset).1, buf, None)
          else Some (h, buf, Some e)
      end
  end.

(** [WriteFileFromBuffer] writes a complete file from a given buffer
    which implements [io.Reader]. *)
Definition WriteFileFromBuffer (fuel : nat) (b : Branch) (h : state)
  (spath : string) (buf : R)
  : option (outcome (state * R * option error)) :=
  match checkReadOnly b with
  | Some err => Some (Return (h, buf, Some err))
  | None =>
      if DefaultReadBufferSize h <? 0 then Some Panic
      else
        Return <$> WriteFileFromBuffer_loop fuel b h spath
                     (Z.to_nat (DefaultReadBufferSize h)) 0 buf
  end.

End Buffers.

End BranchIO.

(* ====================================================================== *)
(** ** The tree client: items, utilities and administration                *)
(* ====================================================================== *)

Module TreeOps.
Import Branch Tree.

(** The closure [norm] of [relPath]. *)
Definition norm (path : string) : string :=
  let path := if negb (HasPrefix path "/") then "/" +:+ path else path in
  if HasSuffix path "/"
  then substring 0 (String.length path - 1) path
  else path.

(** [relPath] creates a normalized relative path by removing a given path
    prefix. *)
Definition relPath (path prefix : string) : string :=
  let path := norm path in
  let prefix := norm prefix in
  if HasPrefix path prefix then
    let path :=
      substring (String.length prefix)
        (String.length path - String.length prefix) path in
    if decide (path = "") then "/" else path
  else path.

Section Client.

Variable regexp_Compile : string → error + (string → bool).
Variable World : Type.
Variable SendData :
  World → string → gmap string string → list byte →
  World * (list byte * option error).
Variable decode_dir :
  list byte → error + (list string * list (list FileInfo)).
(** Decoding the answer of an item operation. *)
Variable decode_bool : list byte → error + bool.

(** [Stat] returns information about a given item. *)
Definition Stat (root : treeItem) (w : World) (item : string)
  : World * outcome (option FileInfo * option error) :=
  let '(dir, file) := Split item in
  match
    Tree.Dir regexp_Compile World SendData decode_dir root w dir file
      false true
  with
  | (w', Panic) => (w', Panic)
  | (w', Return (_, fis, err)) =>
      let found :=
        match fis with
        | [l] => List.find (λ fi, bool_decide (FiName fi = file)) l
        | _ => None
        end in
      match found with
      | Some fi => (w', Return (Some fi, err))
      | None =>
          (w', Return (None,
                       match err with
                       | None => Some ErrRemoteNotExist
                       | Some e => Some e
                       end))
      end
  end.

(** The variables of [ItemOp] its visitor works on. *)
Record ItemOpState := {
  i_world : World;
  i_ret : bool;
  i_err : option error;
  i_totalCount : Z;
  i_ignoreCount : Z;
  i_notFoundCount : Z
}.

(** One turn of the loop over the branches in the visitor of [ItemOp];
    [ib] is the index and the name of the branch.  [None] is the panic of
    [writable[i]] for a missing flag. *)
Definition ItemOp_branch (data : gmap string string)
  (branchPath : list string) (writable : list bool)
  (st : option ItemOpState) (ib : nat * string) : option ItemOpState :=
  match st with
  | None => None
  | Some st =>
      match writable !! ib.1 with
      | None => None
      | Some false =>
          (* Ignore all non-writable branches *)
          Some {| i_world := i_world st; i_ret := i_ret st;
                  i_err := i_err st;
                  i_totalCount := i_totalCount st + 1;
                  i_ignoreCount := i_ignoreCount st + 1;
                  i_notFoundCount := i_notFoundCount st |}
      | Some true =>
          match i_err st with
          | Some _ =>
              Some {| i_world := i_world st; i_ret := i_ret st;
                      i_err := i_err st;
                      i_totalCount := i_totalCount st + 1;
                      i_ignoreCount := i_ignoreCount st;
                      i_notFoundCount := i_notFoundCount st |}
          | None =>
              let '(w, (res, err)) :=
                SendData (i_world st) ib.2
                  (<[ParamPath := Join branchPath]> data) [] in
              match err with
              | Some (RufsError _ _ true) =>
                  (* Only count the not exist errors *)
                  Some {| i_world := w; i_ret := i_ret st; i_err := None;
                          i_totalCount := i_totalCount st + 1;
                          i_ignoreCount := i_ignoreCount st;
                          i_notFoundCount := i_notFoundCount st + 1 |}
              | Some e =>
                  Some {| i_world := w; i_ret := i_ret st;
                          i_err := Some e;
                          i_totalCount := i_totalCount st + 1;
                          i_ignoreCount := i_ignoreCount st;
                          i_notFoundCount := i_notFoundCount st |}
              | None =>
                  let '(bres, err) :=
                    match decode_bool res with
                    | inl e => (false, Some e)
                    | inr bres => (bres, None)
                    end in
                  (* One positive result is enough *)
                  Some {| i_world := w; i_ret := i_ret st || bres;
                          i_err := err;
                          i_totalCount := i_totalCount st + 1;
                          i_ignoreCount := i_ignoreCount st;
                          i_notFoundCount := i_notFoundCount st |}
              end
          end
      end
  end.

Definition ItemOp_visit (data : gmap string string)
  (st : option ItemOpState) (v : Visit) : option ItemOpState :=
  fold_left (ItemOp_branch data (v_branchPath v) (v_writable v))
    (imap (λ i b, (i, b)) (v_branches v)) st.

(** [ItemOp] executes a file or directory specific operation which can
    either succeed or fail (e.g. rename or delete). *)
Definition ItemOp (root : treeItem) (w : World) (dir : string)
  (opdata : gmap string string)
  : outcome (World * (bool * option error)) :=
  let data := <[ParamAction := OpItemOp]> opdata in
  (* Check if we should recurse *)
  let recurse :=
    match data !! ItemOpName with
    | Some r => HasSuffix r "**"
    | None => false
    end in
  match
    fold_left (ItemOp_visit data)
      (findPathBranches root dir (createMappingPath dir) recurse)
      (Some {| i_world := w; i_ret := false; i_err := None;
               i_totalCount := 0; i_ignoreCount := 0;
               i_notFoundCount := 0 |})
  with
  | None => Panic
  | Some st =>
      let err :=
        if bool_decide (i_totalCount st = i_ignoreCount st) then
          Some ErrNotWritable
        else if bool_decide
                  (i_totalCount st
                   = i_notFoundCount st + i_ignoreCount st) then
          Some ErrRemoteNotExist
        else i_err st in
      Return (i_world st, (i_ret st, err))
  end.

End Client.

End TreeOps.

Module TreeAdmin.
Import Node NodePeers Tree.

(** A mapping from a tree path to a branch: the map with the keys [path],
    [branch] and [writeable]. *)
Record Mapping := {
  m_path : string;
  m_branch : string;
  m_writeable : bool
}.

(** [Tree] models a Rufs client which combines several branches. *)
Record Tree := {
  client : Client;
  root : treeItem;
  branches : list (gmap string string);
  branchesAll : list (gmap string string);
  mapping : list Mapping;
  mappingAll : list Mapping
}.

(** An item without children and branches. *)
Definition emptyItem : treeItem := TreeItem [] [] [].

(** A line feed. *)
Definition nl : string := String "010" EmptyString.

(** One turn of the loop over the peers in [AddMapping]. *)
Definition AddMapping_peer (dir branchName : string) (writable : bool)
  (mappingMap : Mapping) (st : outcome (Tree * option error)) (p : string)
  : outcome (Tree * option error) :=
  match st with
  | Panic => Panic
  | Return (t, err) =>
      if decide (p = branchName) then
        (* Split the given path and add the mapping *)
        match
          addMapping (createMappingPath dir) branchName writable (root t)
        with
        | Panic => Panic
        | Return r =>
            Return ({| client := client t; root := r;
                       branches := branches t;
                       branchesAll := branchesAll t;
                       mapping := (mapping t ++ [mappingMap])%list;
                       mappingAll := mappingAll t |}, None)
        end
      else Return (t, err)
  end.

(** [AddMapping] adds a mapping from tree path to a branch. *)
Definition AddMapping (t : Tree) (dir branchName : string)
  (writable : bool) : outcome (Tree * option error) :=
  let mappingMap :=
    {| m_path := dir; m_branch := branchName; m_writeable := writable |} in
  let t1 :=
    {| client := client t; root := root t; branches := branches t;
       branchesAll := branchesAll t; mapping := mapping t;
       mappingAll := (mappingAll t ++ [mappingMap])%list |} in
  fold_left (AddMapping_peer dir branchName writable mappingMap)
    (Peers (client t)).1
    (Return (t1, Some (TypeError ErrUnknownTarget))).

(** [Reset] either resets only all mounts or, if the branches flag is
    specified, also all known branches. *)
Definition Reset (t : Tree) (bs : bool) : Tree :=
  let t1 :=
    if bs then
      {| client := fold_left RemovePeer (Peers (client t)).1 (client t);
         root := root t; branches := []; branchesAll := [];
         mapping := mapping t; mappingAll := mappingAll t |}
    else t in
  {| client := client t1; root := emptyItem; branches := branches t1;
     branchesAll := branchesAll t1; mapping := []; mappingAll := [] |}.

Section Network.

Variable sha256_hex : list byte → string.
Variable World : Type.
Variable dial : World → string → World * DialResult.
Variable call :
  World → Conn → RPCFunction → string → RufsNodeToken →
  option RequestArgs → World * (Response * option error).

(** [AddBranch] adds a branch to the tree.  The map [branchMap] is shared
    by [branchesAll] and [branches]: the fingerprint written into it once
    the branch was accepted shows in both. *)
Definition AddBranch (t : Tree) (w : World)
  (branchName branchRPC branchFingerprint : string)
  : Tree * World * outcome (option error) :=
  let branchMap : gmap string string :=
    {[ "branch" := branchName; "rpc" := branchRPC;
       "fingerprint" := branchFingerprint ]} in
  let upd (c : Client) (active : bool) (m : gmap string string) :=
    {| client := c; root := root t;
       branches :=
         if active then (branches t ++ [m])%list else branches t;
       branchesAll := (branchesAll t ++ [m])%list;
       mapping := mapping t; mappingAll := mappingAll t |} in
  (* First ping the branch and see if we get a response *)
  let '(c1, w1, out) :=
    SendPing sha256_hex World dial call (client t) w branchName
      branchRPC in
  match out with
  | Panic => (upd c1 false branchMap, w1, Panic)
  | Return (_, _, Some err) =>
      (upd c1 false branchMap, w1, Return (Some err))
  | Return (_, fp, None) =>
      (* Only add the branch as active if we've seen it *)
      if bool_decide (branchFingerprint ≠ "")
         && bool_decide (branchFingerprint ≠ fp)
      then
        (upd c1 false branchMap, w1,
         Return (Some (Errorf
           ("Remote branch has an unexpected fingerprint" +:+ nl
            +:+ "Presented fingerprint: " +:+ branchFingerprint +:+ nl
            +:+ "Expected fingerprint : " +:+ fp))))
      else
        match RegisterPeer c1 branchName branchRPC fp with
        | (c2, Some err) => (upd c2 false branchMap, w1, Return (Some err))
        | (c2, None) =>
            (* Once we know and accepted the fingerprint we change it *)
            (upd c2 true (<["fingerprint" := fp]> branchMap), w1,
             Return None)
        end
  end.

End Network.

End TreeAdmin.

(* ====================================================================== *)
(** ** More properties                                                     *)
(* ====================================================================== *)

Module MoreProps.

(** *** Transport *)

Section Transport.
Import Node.

Variable World : Type.

(** What a returned error looks like: its text starts as the text of a
    [node.Error] does. *)
Definition node_error (r : outcome (Response * option error)) : Prop :=
  match r with
  | Return (_, Some e) => HasPrefix (Error e) "RufsError: " = true
  | _ => True
  end.

(** [c'] differs from [c] in the connection and the fingerprint of [node]
    at most (and in the redial flag). *)
Definition frame (node : string) (c c' : Client) : Prop :=
  peers c' = peers c
  ∧ token c' = token c
  ∧ has_cert c' = has_cert c
  ∧ ∀ n, n ≠ node →
         conns c' !! n = conns c !! n
         ∧ fingerprints c' !! n = fingerprints c !! n.


Definition attempt_frame (node : string) (c : Client)
  (a : Attempt World) : Prop :=
  match a with
  | Done c' _ _ => frame node c c'
  | Again c' _ => frame node c c'
  end.

End Transport.

(** *** Branch engine *)

(** No directory of the file system lists a name twice. *)
Fixpoint unique_names (n : Host.node) : Prop :=
  match n with
  | Host.RegularFile _ => True
  | Host.Directory es =>
      NoDup es.*1
      ∧ (fix all (l : list (string * Host.node)) : Prop :=
           match l with
           | [] => True
           | (_, ch) :: l' => unique_names ch ∧ all l'
           end) es
  end.

(** *** Tree items *)

(** The item a mapping path leads to. *)
Fixpoint item_at (path : list string) (t : Tree.treeItem)
  : option Tree.treeItem :=
  match path with
  | [] => Some t
  | c :: rest =>
      match Host.assoc c (Tree.children t) with
      | Some ch => item_at rest ch
      | None => None
      end
  end.

(** The branches mapped at a path, with their writable flags. *)
Definition branches_at (path : list string) (t : Tree.treeItem)
  : list string * list bool :=
  match item_at path t with
  | Some it => (Tree.remoteBranches it, Tree.remoteBranchWriting it)
  | None => ([], [])
  end.

(** Every item has a writable flag for each of its branches. *)
Fixpoint aligned (t : Tree.treeItem) : Prop :=
  match t with
  | Tree.TreeItem chs bs ws =>
      List.length bs = List.length ws
      ∧ (fix all (l : list (string * Tree.treeItem)) : Prop :=
           match l with
           | [] => True
           | (_, ch) :: l' => aligned ch ∧ all l'
           end) chs
  end.

(** A visit comes with a writable flag for each of its branches. *)
Definition visit_aligned (v : Tree.Visit) : Prop :=
  List.length (Tree.v_branches v) = List.length (Tree.v_writable v).

(** All branches of a visit are mounted as not writable. *)
Definition visit_read_only (v : Tree.Visit) : Prop :=
  Tree.v_writable v = replicate (List.length (Tree.v_branches v)) false.

(** The flag [recurse] of [ItemOp]. *)
Definition ItemOp_recurse (opdata : gmap string string) : bool :=
  match <[Branch.ParamAction := Branch.OpItemOp]> opdata
        !! Branch.ItemOpName with
  | Some r => HasSuffix r "**"
  | None => false
  end.

End MoreProps.

(* ====================================================================== *)
(** ** More example inputs                                                 *)
(* ====================================================================== *)

Module MoreExamples.
Import Examples.

(** The client of the examples with a cached plain connection to A. *)
Definition client1 : Node.Client :=
  Node.set_conns
    (insert "A" {| Node.conn_laddr := "localhost:9020";
                   Node.conn_peer_cert := None |})
    (client0 false).

(** Every call finds its connection shut down. *)
Definition call_closed (w : unit) (conn : Node.Conn) (f : Node.RPCFunction)
  (target : string) (tok : Node.RufsNodeToken)
  (args : option Node.RequestArgs)
  : unit * (Node.Response * option error) :=
  (tt, (Node.RespNil, Some ErrShutdown)).

End MoreExamples.

(* ====================================================================== *)
(** ** Facts about package node                                            *)
(* ====================================================================== *)

Module NodeFacts.
Import Node Props.

Section Server.

Variable sha512_224_hex : string → string.

Lemma checkToken_unknown s request :
  nodes s !! RequestTARGET request = None →
  checkToken sha512_224_hex s request
  = (None, Some (TypeError ErrUnknownTarget)).
Proof. intros Hn. unfold checkToken. by rewrite Hn. Qed.

Lemma checkToken_ok s request node :
  checkToken sha512_224_hex s request = (Some node, None) ↔
  nodes s !! RequestTARGET request = Some node
  ∧ NodeAuth (RequestTOKEN request)
    = sha512_224_hex (NodeName (RequestTOKEN request) +:+ secret node).
Proof.
  unfold checkToken.
  destruct (nodes s !! RequestTARGET request) as [n|].
  - case_decide as Ha; split.
    + intros [= ->]. done.
    + intros [[= ->] _]. done.
    + intros [=].
    + intros [[= ->] Hb]. done.
  - split; [intros [=] | intros [[=] _]].
Qed.

(** C4: a request for a target which is not in the registry fails with
    the unknown target error; a request for a registered target whose
    token auth differs from the upper case hex SHA512/224 of the caller
    name followed by the secret of the target fails with the invalid
    token error; this holds for [Ping] and for [Data]; and [Ping] answers
    with the list ["Pong"] exactly when the token verification
    succeeds. *)
Theorem token_verification (s : RufsServer) (request : Request) :
  match nodes s !! RequestTARGET request with
  | None =>
      Ping sha512_224_hex s request
      = (RespNil, Some (TypeError ErrUnknownTarget))
      ∧ Data sha512_224_hex s request
        = (RespNil, Some (TypeError ErrUnknownTarget))
  | Some node =>
      if decide (NodeAuth (RequestTOKEN request)
                 = sha512_224_hex
                     (NodeName (RequestTOKEN request) +:+ secret node))
      then Ping sha512_224_hex s request = (RespStrings ["Pong"], None)
      else
        Ping sha512_224_hex s request
        = (RespNil, Some (TypeError ErrInvalidToken))
        ∧ Data sha512_224_hex s request
          = (RespNil, Some (TypeError ErrInvalidToken))
  end
  ∧ (Ping sha512_224_hex s request = (RespStrings ["Pong"], None)
     ↔ ∃ node, checkToken sha512_224_hex s request = (Some node, None)).
Proof.
  split.
  - unfold Ping, Data, checkToken.
    destruct (nodes s !! RequestTARGET request) as [n|]; [|done].
    by case_decide.
  - unfold Ping, checkToken.
    destruct (nodes s !! RequestTARGET request) as [n|].
    + case_decide; split; try done.
      * intros _. by exists n.
      * intros [n' [=]].
    + split; [done | intros [n' [=]]].
Qed.

End Server.

Section Client.

Variable sha256_hex : list byte → string.
Variable World : Type.
Variable dial : World → string → World * DialResult.
Variable call :
  World → Conn → RPCFunction → string → RufsNodeToken →
  option RequestArgs → World * (Response * option error).

Abbreviation fingerprint := (fingerprint sha256_hex).
Abbreviation pinned := (pinned sha256_hex).
Abbreviation SendRequest_call := (SendRequest_call World call).
Abbreviation SendRequest_attempt :=
  (SendRequest_attempt sha256_hex World dial call).
Abbreviation SendRequest := (SendRequest sha256_hex World dial call).
Abbreviation SendPing := (SendPing sha256_hex World dial call).
Abbreviation SendData := (SendData sha256_hex World dial call).
Abbreviation after_attempt := (after_attempt sha256_hex World).

(** C10: a ping of a node which is not registered, with an rpc address,
    leaves no entry for the node in the peer, connection and fingerprint
    maps of the client, whatever the ping gave. *)
Theorem SendPing_temporary_peer_removed (c : Client) (w : World)
  (node rpc : string) :
  peers c !! node = None →
  rpc ≠ "" →
  let c' := (SendPing c w node rpc).1.1 in
  peers c' !! node = None
  ∧ conns c' !! node = None
  ∧ fingerprints c' !! node = None.
Proof.
  intros Hp Hr. unfold Node.SendPing.
  rewrite (bool_decide_eq_true_2 _ Hp), (bool_decide_eq_true_2 _ Hr).
  simpl.
  destruct (Node.SendRequest _ _ _ _ _ _ _ _ _) as [[c2 w2] out]. simpl.
  unfold RemovePeer. simpl.
  by rewrite !lookup_delete_eq.
Qed.

(** The fingerprint of a digest which is not empty is not empty. *)
Lemma fingerprint_nonempty (b : list byte) :
  sha256_hex b ≠ "" → fingerprint b ≠ "".
Proof.
  unfold Node.fingerprint. destruct (sha256_hex b) as [|a s]; [done|].
  intros _. simpl. done.
Qed.

(** [pinned] looks at the connections and the fingerprints only. *)
Lemma pinned_ext (c c' : Client) :
  conns c' = conns c → fingerprints c' = fingerprints c →
  pinned c → pinned c'.
Proof. unfold Props.pinned. intros -> ->. done. Qed.

Lemma pinned_delete_conn (c : Client) (node : string) :
  pinned c → pinned (set_conns (delete node) c).
Proof.
  intros Hp n fp conn Hf Hne Hc. simpl in *.
  apply lookup_delete_Some in Hc as [_ Hc]. eauto.
Qed.

Lemma pinned_insert_conn (c : Client) (node laddr : string)
  (raw : list byte) :
  pinned c →
  (∀ fp, fingerprints c !! node = Some fp → fp ≠ "" → fingerprint raw = fp) →
  pinned (set_conns
            (insert node {| conn_laddr := laddr;
                            conn_peer_cert := Some raw |}) c).
Proof.
  intros Hp Hfp n fp conn Hf Hne Hc. simpl in *.
  destruct (decide (node = n)) as [->|Hn].
  - rewrite lookup_insert_eq in Hc. injection Hc as <-. simpl. eauto.
  - rewrite lookup_insert_ne in Hc by done. eauto.
Qed.

Lemma pinned_first_use (c : Client) (node laddr : string)
  (raw : list byte) :
  pinned c →
  conns c !! node = None →
  pinned (set_conns
            (insert node {| conn_laddr := laddr;
                            conn_peer_cert := Some raw |})
            (set_fingerprints (insert node (fingerprint raw)) c)).
Proof.
  intros Hp Hnone n fp conn Hf Hne Hc. simpl in *.
  destruct (decide (node = n)) as [->|Hn].
  - rewrite lookup_insert_eq in Hc. rewrite lookup_insert_eq in Hf.
    injection Hc as <-. injection Hf as <-. simpl. eauto.
  - rewrite lookup_insert_ne in Hc by done.
    rewrite lookup_insert_ne in Hf by done. eauto.
Qed.

(** The end of a request keeps the fingerprints, and keeps or drops the
    connection of the node. *)
Lemma SendRequest_call_inv (c : Client) w conn node remoteCall args :
  match SendRequest_call c w conn node remoteCall args with
  | Done c' _ _ =>
      conns c' = conns c ∧ fingerprints c' = fingerprints c
      ∧ has_cert c' = has_cert c
  | Again c' _ =>
      conns c' = delete node (conns c)
      ∧ fingerprints c' = fingerprints c
      ∧ has_cert c' = has_cert c ∧ redial c' = true
  end.
Proof.
  unfold Node.SendRequest_call.
  destruct (call _ _ _ _ _ _) as [w' [resp err]].
  by destruct (negb (redial c) && is_closed err).
Qed.

Lemma SendRequest_call_redial (c : Client) w conn node remoteCall args :
  redial c = true →
  ∃ c' w' r, SendRequest_call c w conn node remoteCall args = Done c' w' r.
Proof.
  intros Hr. unfold Node.SendRequest_call.
  destruct (call _ _ _ _ _ _) as [w' [resp err]].
  rewrite Hr. simpl. eauto.
Qed.

(** A pass with the redial flag set does not ask for another one. *)
Lemma SendRequest_attempt_redial (c : Client) w node remoteCall args :
  redial c = true →
  ∃ c' w' r, SendRequest_attempt c w node remoteCall args = Done c' w' r.
Proof.
  intros Hr. unfold Node.SendRequest_attempt.
  destruct (peers c !! node); [|eauto].
  destruct (conns c !! node); [by apply SendRequest_call_redial|].
  destruct (dial w s) as [w1 [e|cert]]; [eauto|].
  destruct (has_cert c).
  - destruct cert; [|eauto].
    repeat case_decide; eauto; by apply SendRequest_call_redial.
  - by apply SendRequest_call_redial.
Qed.

(** A pass asks for another one with the redial flag set only. *)
Lemma SendRequest_attempt_Again (c : Client) w node remoteCall args c' w' :
  SendRequest_attempt c w node remoteCall args = Again c' w' →
  redial c' = true.
Proof.
  assert (Hcall : ∀ c0 w0 conn,
            SendRequest_call c0 w0 conn node remoteCall args = Again c' w' →
            redial c' = true).
  { intros c0 w0 conn E.
    pose proof (SendRequest_call_inv c0 w0 conn node remoteCall args) as Hi.
    rewrite E in Hi. by destruct Hi as (_ & _ & _ & ?). }
  unfold Node.SendRequest_attempt.
  destruct (peers c !! node); [|done].
  destruct (conns c !! node); [by apply Hcall|].
  destruct (dial w s) as [w1 [e|cert]]; [done|].
  destruct (has_cert c); [|by apply Hcall].
  destruct cert; [|done].
  repeat case_decide; try done; by apply Hcall.
Qed.

(** The two passes of [SendRequest] are enough: the request returns (or
    panics in the TLS handshake). *)
Lemma SendRequest_fuel_enough (c : Client) w node remoteCall args :
  ∃ r, SendRequest_fuel sha256_hex World dial call 1 c w node remoteCall
         args = Some r.
Proof.
  simpl. destruct (SendRequest_attempt c w _ _ _) as [c1 w1 r|c1 w1] eqn:E.
  - eauto.
  - apply SendRequest_attempt_Again in E.
    destruct (SendRequest_attempt_redial c1 w1 node remoteCall args E)
      as (c2 & w2 & r2 & ->). eauto.
Qed.

Lemma after_call (c0 c : Client) w conn node remoteCall args :
  has_cert c = true →
  (pinned c0 → pinned c) →
  (∀ fp, fingerprints c0 !! node = Some fp → fp ≠ "" →
         fingerprints c !! node = Some fp) →
  after_attempt c0 node (SendRequest_call c w conn node remoteCall args).
Proof.
  intros Hc Hp Hf.
  pose proof (SendRequest_call_inv c w conn node remoteCall args) as Hi.
  unfold after_attempt.
  destruct (SendRequest_call _ _ _ _ _ _) as [c' w' r|c' w'].
  - destruct Hi as (Hco & Hfi & Hce). split_and!; try done.
    + congruence.
    + intros H0. eapply pinned_ext; eauto.
    + intros fp H1 H2. rewrite Hfi. eauto.
  - destruct Hi as (Hco & Hfi & Hce & Hre). split_and!; try done.
    + congruence.
    + intros H0. eapply (pinned_ext (set_conns (delete node) c)); eauto.
      by apply pinned_delete_conn, Hp.
    + intros fp H1 H2. rewrite Hfi. eauto.
Qed.

Lemma after_SendRequest_attempt (c : Client) w node remoteCall args :
  has_cert c = true →
  after_attempt c node (SendRequest_attempt c w node remoteCall args).
Proof.
  intros Hc. unfold Node.SendRequest_attempt.
  destruct (peers c !! node) as [laddr|]; [|by unfold after_attempt].
  destruct (conns c !! node) as [conn|] eqn:Hconn.
  { by apply after_call. }
  destruct (dial w laddr) as [w1 [e|cert]]; [by unfold after_attempt|].
  rewrite Hc. destruct cert as [raw|]; [|by unfold after_attempt].
  case_decide as He.
  - apply after_call; [done| |].
    + intros Hp. by apply pinned_first_use.
    + intros fp Hfp Hne. simpl. rewrite Hfp in He. simpl in He. done.
  - case_decide as Hx; [by unfold after_attempt|].
    apply after_call; [done| |done].
    intros Hp. apply pinned_insert_conn; [done|].
    intros fp Hfp _. rewrite Hfp in Hx. simpl in Hx. done.
Qed.

(** [SendRequest] takes at most two passes. *)
Lemma SendRequest_unfold (c : Client) w node remoteCall args :
  SendRequest c w node remoteCall args =
  match SendRequest_attempt c w node remoteCall args with
  | Done c' w' r => (c', w', r)
  | Again c' w' =>
      match SendRequest_attempt c' w' node remoteCall args with
      | Done c'' w'' r => (c'', w'', r)
      | Again _ _ => (c, w, Panic)
      end
  end.
Proof.
  unfold Node.SendRequest, SendRequest_fuel.
  destruct (SendRequest_attempt c w _ _ _); [done|].
  by destruct (SendRequest_attempt _ _ _ _ _).
Qed.

Lemma after_SendRequest (c : Client) w node remoteCall args :
  has_cert c = true →
  let c' := (SendRequest c w node remoteCall args).1.1 in
  has_cert c' = true
  ∧ (pinned c → pinned c')
  ∧ (∀ fp, fingerprints c !! node = Some fp → fp ≠ "" →
           fingerprints c' !! node = Some fp).
Proof.
  intros Hc. rewrite SendRequest_unfold.
  pose proof (after_SendRequest_attempt c w node remoteCall args Hc) as H1.
  destruct (SendRequest_attempt c w _ _ _) as [c1 w1 r1|c1 w1].
  - destruct H1 as (? & ? & ? & _). done.
  - destruct H1 as (Hc1 & Hp1 & Hf1 & Hr1).
    pose proof (after_SendRequest_attempt c1 w1 node remoteCall args Hc1)
      as H2.
    destruct (SendRequest_attempt_redial c1 w1 node remoteCall args Hr1)
      as (c2 & w2 & r2 & E).
    rewrite E in *. destruct H2 as (? & ? & ? & _).
    simpl. split_and!; eauto.
Qed.

(** With a certificate the first connection is checked. *)
Lemma first_connection_with_certificate (c : Client) w node remoteCall args :
  (∀ b, sha256_hex b ≠ "") →
  has_cert c = true →
  first_connection_checked sha256_hex World dial call c w node
    remoteCall args.
Proof.
  intros Hsha Hc laddr w1 raw Hpeer Hconn Hdial expected r.
  subst r. rewrite SendRequest_unfold.
  set (conn := {| conn_laddr := laddr; conn_peer_cert := Some raw |}).
  set (c1 := set_conns (insert node conn)
               (set_fingerprints (insert node (fingerprint raw)) c)).
  assert (Hatt : SendRequest_attempt c w node remoteCall args =
    if decide (expected = "")
    then SendRequest_call c1 w1 conn node remoteCall args
    else if decide (expected ≠ fingerprint raw)
      then Done c w1
             (Return (RespNil,
                Some (RufsError ErrUntrustedTarget node false)))
      else SendRequest_call (set_conns (insert node conn) c) w1 conn node
             remoteCall args).
  { unfold Node.SendRequest_attempt.
    by rewrite Hpeer, Hconn, Hdial, Hc. }
  rewrite Hatt. clear Hatt.
  split.
  - intros He. rewrite decide_True by done.
    assert (Hf1 : fingerprints c1 !! node = Some (fingerprint raw))
      by (subst c1; simpl; apply lookup_insert_eq).
    assert (Hc1 : has_cert c1 = true) by done.
    pose proof (after_call c1 c1 w1 conn node remoteCall args Hc1
                  (λ x, x) (λ _ x _, x)) as Ha.
    destruct (SendRequest_call c1 w1 _ _ _ _) as [c2 w2 r2|c2 w2].
    + destruct Ha as (_ & _ & Hf & _). simpl.
      apply Hf; [done|]. by apply fingerprint_nonempty.
    + destruct Ha as (Hc2 & _ & Hf & Hr2).
      destruct (SendRequest_attempt_redial c2 w2 node remoteCall args Hr2)
        as (c3 & w3 & r3 & E).
      pose proof (after_SendRequest_attempt c2 w2 node remoteCall args Hc2)
        as Hb.
      rewrite E in *. destruct Hb as (_ & _ & Hf3 & _). simpl.
      apply Hf3; [|by apply fingerprint_nonempty].
      apply Hf; [done|]. by apply fingerprint_nonempty.
  - intros He Hx. rewrite decide_False by done.
    rewrite decide_True by done. done.
Qed.

Lemma pinned_NewClient tok cert : pinned (NewClient tok cert).
Proof. intros n fp conn Hf. simpl in Hf. by rewrite lookup_empty in Hf. Qed.

Lemma pinned_RegisterPeer (c : Client) node rpc fp :
  pinned c → pinned (RegisterPeer c node rpc fp).1.
Proof.
  intros Hp. unfold RegisterPeer.
  destruct (peers c !! node); [done|]. case_decide; [done|]. simpl.
  intros n f conn Hf Hne Hc. simpl in *.
  apply lookup_delete_Some in Hc as [Hn Hc].
  rewrite lookup_insert_ne in Hf by done. eauto.
Qed.

Lemma pinned_RemovePeer (c : Client) node :
  pinned c → pinned (RemovePeer c node).
Proof.
  intros Hp n f conn Hf Hne Hc. simpl in *.
  apply lookup_delete_Some in Hc as [Hn Hc].
  apply lookup_delete_Some in Hf as [_ Hf]. eauto.
Qed.

Lemma pinned_Shutdown (c : Client) : pinned c → pinned (Shutdown c).
Proof.
  intros Hp n f conn Hf Hne Hc. simpl in *. by rewrite lookup_empty in Hc.
Qed.

Lemma pinned_SendPing (c : Client) w node rpc :
  has_cert c = true → pinned c → pinned (SendPing c w node rpc).1.1.
Proof.
  intros Hc Hp. unfold Node.SendPing.
  set (c1 := if (_ && _)%bool then set_peers _ c else c).
  assert (Hc1 : has_cert c1 = true) by (subst c1; by case_match).
  assert (Hp1 : pinned c1).
  { subst c1. case_match; [|done]. by eapply pinned_ext. }
  pose proof (after_SendRequest c1 w node RPCPing None Hc1) as (_ & H2 & _).
  destruct (Node.SendRequest _ _ _ _ _ _ _ _ _) as [[c2 w2] out].
  simpl in *. case_match; [apply pinned_RemovePeer|]; eauto.
Qed.

Lemma pinned_SendData (c : Client) w node ctrl data :
  has_cert c = true → pinned c → pinned (SendData c w node ctrl data).1.1.
Proof.
  intros Hc Hp. unfold Node.SendData.
  destruct (peers c !! node); [|done].
  pose proof (after_SendRequest c w node RPCData
                (Some {| ArgCTRL := ctrl; ArgDATA := data |}) Hc)
    as (_ & H2 & _).
  destruct (Node.SendRequest _ _ _ _ _ _ _ _ _) as [[c2 w2] out].
  simpl in *. eauto.
Qed.

(** C3 (as amended): for a client which holds a certificate, on the first
    connection to a peer an empty expected fingerprint is replaced by the
    fingerprint of the leaf certificate the peer presents, and a
    non-empty expected fingerprint which differs from it makes the
    request fail with the untrusted target error carrying the peer name,
    with no connection cached; and every operation of the client keeps
    the invariant that a cached connection of a peer with a non-empty
    expected fingerprint is a TLS connection whose leaf certificate
    hashes to that fingerprint. *)
Theorem pinning_with_certificate (c : Client) (w : World) (node : string)
  (remoteCall : RPCFunction) (args : option RequestArgs) :
  (∀ b, sha256_hex b ≠ "") →
  has_cert c = true →
  pinning sha256_hex World dial call c w node remoteCall args
  ∧ (∀ tok, pinned (NewClient tok true))
  ∧ (pinned c →
     ∀ rpc fp ctrl data,
       pinned (RegisterPeer c node rpc fp).1
       ∧ pinned (RemovePeer c node)
       ∧ pinned (Shutdown c)
       ∧ pinned (SendPing c w node rpc).1.1
       ∧ pinned (SendData c w node ctrl data).1.1).
Proof.
  intros Hsha Hc. unfold pinning. split_and!.
  - by apply first_connection_with_certificate.
  - by apply after_SendRequest.
  - intros tok. apply pinned_NewClient.
  - intros Hp rpc fp ctrl data. split_and!.
    + by apply pinned_RegisterPeer.
    + by apply pinned_RemovePeer.
    + by apply pinned_Shutdown.
    + by apply pinned_SendPing.
    + by apply pinned_SendData.
Qed.

End Client.

Import Examples.

Lemma Ping_and_Data_examples :
  Ping hex0 server0
    {| RequestTARGET := "A";
       RequestTOKEN := {| NodeName := "tree"; NodeAuth := "H(trees3cret)" |};
       RequestCTRL := ∅; RequestDATA := [] |}
  = (RespStrings ["Pong"], None)
  ∧ Ping hex0 server0
      {| RequestTARGET := "A";
         RequestTOKEN := {| NodeName := "tree"; NodeAuth := "H(treeother)" |};
         RequestCTRL := ∅; RequestDATA := [] |}
    = (RespNil, Some (TypeError ErrInvalidToken))
  ∧ Data hex0 server0
      {| RequestTARGET := "B";
         RequestTOKEN := {| NodeName := "tree"; NodeAuth := "H(trees3cret)" |};
         RequestCTRL := ∅; RequestDATA := [] |}
    = (RespNil, Some (TypeError ErrUnknownTarget)).
Proof. by vm_compute. Qed.

Lemma SendPing_temporary_peer_removed_witness :
  peers (client0 true) !! "B" = None
  ∧ "localhost:9021" ≠ ""
  ∧ let c' := (SendPing sha0 unit dial0 call0 (client0 true) tt "B"
                 "localhost:9021").1.1 in
    peers c' !! "B" = None
    ∧ conns c' !! "B" = None
    ∧ fingerprints c' !! "B" = None.
Proof.
  split; [vm_compute; reflexivity|].
  split; [discriminate|].
  apply (SendPing_temporary_peer_removed sha0 unit dial0 call0
           (client0 true) tt "B" "localhost:9021");
    [vm_compute; reflexivity | discriminate].
Defined.

(** C3 (as stated) fails for a client without a certificate, with the
    peer A registered under the expected fingerprint de:ad.  Where the
    listener presents a certificate with another fingerprint, the request
    does not fail with the untrusted target error and a connection is
    cached; where the listener does not speak TLS, the request is
    answered over a cached plain connection, which has no certificate to
    hash to the expected fingerprint. *)
Lemma pinning_fails_without_certificate :
  ¬ pinning sha0 unit dial0 call0 (client0 false) tt "A" RPCPing None
  ∧ ¬ pinning sha0 unit dial_plain call0 (client0 false) tt "A" RPCPing
        None.
Proof.
  split.
  - intros [Hf _].
    destruct (Hf "localhost:9020" tt (bytes "cert")) as [_ Hm];
      [by vm_compute..|].
    destruct Hm as [Hr _]; [by vm_compute..|].
    vm_compute in Hr. discriminate Hr.
  - intros [_ Hp].
    assert (H0 : Props.pinned sha0 (client0 false)).
    { intros n fp conn _ _ Hc. vm_compute in Hc. discriminate Hc. }
    destruct (Hp H0 "A" "de:ad"
                {| conn_laddr := "localhost:9020";
                   conn_peer_cert := None |})
      as (raw & Hraw & _); [by vm_compute..|].
    discriminate Hraw.
Qed.

Lemma pinning_with_certificate_witness :
  (∀ b, sha0 b ≠ "")
  ∧ has_cert (client0 true) = true
  ∧ pinning sha0 unit dial0 call0 (client0 true) tt "A" RPCPing None.
Proof.
  split; [intros b; discriminate|].
  split; [reflexivity|].
  apply (pinning_with_certificate sha0 unit dial0 call0 (client0 true) tt
           "A" RPCPing None);
    [intros b; discriminate | reflexivity].
Defined.

End NodeFacts.

(* ====================================================================== *)
(** ** Facts about the host file system                                    *)
(* ====================================================================== *)

Module HostFacts.
Import Host.
Local Open Scope list_scope.

Lemma assoc_put_entry_eq {A} (k : string) (v : A) l :
  assoc k (put_entry k v l) = Some v.
Proof.
  induction l as [|[k' v'] l IH]; simpl.
  - by rewrite decide_True.
  - destruct (decide (k = k')) as [->|Hne]; simpl.
    + by rewrite decide_True.
    + destruct (String.ltb k k'); simpl.
      * by rewrite decide_True.
      * by rewrite decide_False.
Qed.

(** What was put at a place is found there. *)
Lemma walk_put c cs new n n' :
  put c cs new n = inr n' → walk (c :: cs) n' = inr new.
Proof.
  revert c n n'. induction cs as [|c' cs IH]; intros c n n' Hput.
  - destruct n as [d|es]; simpl in Hput; [done|].
    injection Hput as <-. simpl. by rewrite assoc_put_entry_eq.
  - destruct n as [d|es]; [done|]. simpl in Hput.
    destruct (assoc c es) as [ch|]; [|done].
    destruct (put c' cs new ch) as [e|ch'] eqn:E; [done|].
    injection Hput as <-.
    change (walk (c :: c' :: cs) (Directory (put_entry c ch' es)))
      with (match assoc c (put_entry c ch' es) with
            | None => inl ENOENT
            | Some ch => walk (c' :: cs) ch
            end).
    rewrite assoc_put_entry_eq. by apply IH with ch.
Qed.

Lemma walk_put_path p new n n' :
  put_path p new n = inr n' → walk p n' = inr new.
Proof.
  destruct p as [|c cs]; simpl.
  - by intros [= ->].
  - apply walk_put.
Qed.

(** A place which is there can be put to. *)
Lemma put_of_walk c cs new n x :
  walk (c :: cs) n = inr x → ∃ n', put c cs new n = inr n'.
Proof.
  revert c n. induction cs as [|c' cs IH]; intros c n Hw.
  - destruct n as [d|es]; [done|]. simpl. eauto.
  - destruct n as [d|es]; [done|].
    change (walk (c :: c' :: cs) (Directory es))
      with (match assoc c es with
            | None => inl ENOENT
            | Some ch => walk (c' :: cs) ch
            end) in Hw.
    simpl. destruct (assoc c es) as [ch|]; [|done].
    destruct (IH c' ch Hw) as [ch' ->]. eauto.
Qed.

Lemma put_path_of_walk p new n x :
  walk p n = inr x → ∃ n', put_path p new n = inr n'.
Proof.
  destruct p as [|c cs]; simpl; [eauto|]. apply put_of_walk.
Qed.

(** A write at the end of the content appends. *)
Lemma f_Write_at_end (f : handle) (b : list byte) :
  pos f = List.length (content f) →
  content (f_Write f b) = content f ++ b
  ∧ pos (f_Write f b) = List.length (content (f_Write f b)).
Proof.
  intros Hp. unfold f_Write. simpl. rewrite Hp.
  rewrite firstn_all, Nat.sub_diag. simpl.
  rewrite drop_ge by lia. rewrite app_nil_r.
  split; [done|]. by rewrite length_app.
Qed.

(** The loop of [growFile] ends within as many turns as bytes are to be
    written, for a positive [DefaultReadBufferSize]: more fuel changes
    nothing. *)
Lemma growFile_loop_fuel fuel size buf f toWrite :
  1 ≤ size →
  (Z.to_nat toWrite ≤ fuel)%nat →
  Branch.growFile_loop (S fuel) size buf f toWrite
  = Branch.growFile_loop fuel size buf f toWrite.
Proof.
  intros Hs. revert f toWrite.
  induction fuel as [|k IH]; intros f toWrite Hfuel.
  - simpl. destruct (0 <? toWrite) eqn:E0; [|done].
    apply Z.ltb_lt in E0. lia.
  - change (Branch.growFile_loop (S (S k)) size buf f toWrite)
      with (if 0 <? toWrite then
              if size <? toWrite then
                Branch.growFile_loop (S k) size buf
                  (f_Write f (take (Z.to_nat size) buf)) (toWrite - size)
              else f_Write f (take (Z.to_nat toWrite) buf)
            else f).
    change (Branch.growFile_loop (S k) size buf f toWrite)
      with (if 0 <? toWrite then
              if size <? toWrite then
                Branch.growFile_loop k size buf
                  (f_Write f (take (Z.to_nat size) buf)) (toWrite - size)
              else f_Write f (take (Z.to_nat toWrite) buf)
            else f).
    destruct (0 <? toWrite) eqn:E0; [|done].
    destruct (size <? toWrite) eqn:E1; [|done].
    apply Z.ltb_lt in E0, E1. apply IH. lia.
Qed.

(** Growing a file from a zeroed slice appends zero bytes. *)
Lemma growFile_loop_zeros fuel size m f toWrite :
  1 ≤ size → size ≤ Z.of_nat m →
  (Z.to_nat toWrite ≤ fuel)%nat →
  pos f = List.length (content f) →
  let f' := Branch.growFile_loop fuel size (replicate m x00) f toWrite in
  content f' = content f ++ replicate (Z.to_nat toWrite) x00
  ∧ pos f' = List.length (content f').
Proof.
  intros Hs Hm. revert f toWrite.
  induction fuel as [|k IH]; intros f toWrite Hfuel Hpos; simpl.
  - replace (Z.to_nat toWrite) with 0%nat by lia.
    simpl. by rewrite app_nil_r.
  - destruct (0 <? toWrite) eqn:E0.
    + apply Z.ltb_lt in E0.
      destruct (size <? toWrite) eqn:E1.
      * apply Z.ltb_lt in E1.
        destruct (f_Write_at_end f (take (Z.to_nat size) (replicate m x00))
                    Hpos) as [Hc Hp].
        destruct (IH _ (toWrite - size) ltac:(lia) Hp) as [Hc' Hp'].
        split; [|done]. rewrite Hc', Hc.
        rewrite take_replicate, <- app_assoc, <- replicate_add.
        do 2 f_equal. lia.
      * apply Z.ltb_ge in E1.
        destruct (f_Write_at_end f (take (Z.to_nat toWrite)
                                      (replicate m x00)) Hpos) as [Hc Hp].
        split; [|done].
        rewrite Hc, take_replicate. do 2 f_equal. lia.
    + apply Z.ltb_ge in E0.
      replace (Z.to_nat toWrite) with 0%nat by lia.
      simpl. by rewrite app_nil_r.
Qed.

End HostFacts.

(* ====================================================================== *)
(** ** Facts about the branch engine                                       *)
(* ====================================================================== *)

Module BranchFacts.
Import Host Branch Props HostFacts Examples.
Local Open Scope list_scope.

(** What a successful write to a path which is no directory leaves. *)
Lemma WriteFile_written b h spath p offset h' n subPath :
  constructSubPath b h spath = inr subPath →
  (∀ es, Stat h subPath ≠ inr (Directory es)) →
  WriteFile b h spath p offset = (h', (n, None)) →
  file_content h' subPath
  = Some (content (f_Write
                     (seek_or_grow h (pool_Get h).1
                        (file_content h subPath) offset) p))
  ∧ cwd h' = cwd h
  ∧ n = Z.of_nat (List.length p).
Proof.
  intros Hsub Hnodir HW. unfold WriteFile in HW.
  destruct (checkReadOnly b); [done|].
  destruct (pool_Get h) as [buf hg] eqn:Hget.
  assert (Hg : fs hg = fs h ∧ cwd hg = cwd h
               ∧ DefaultReadBufferSize hg = DefaultReadBufferSize h).
  { unfold pool_Get in Hget. destruct (byteSlicePool h);
      injection Hget as <- <-; done. }
  destruct Hg as (Hfs & Hcwd & Hsz).
  assert (Hsub' : constructSubPath b hg spath = inr subPath).
  { unfold constructSubPath in *. by rewrite Hcwd. }
  rewrite Hsub' in HW.
  assert (HStat : Stat hg subPath = Stat h subPath).
  { unfold Stat. by rewrite Hfs. }
  rewrite HStat in HW. unfold file_content. simpl.
  destruct (Stat h subPath) as [err|[data|es]] eqn:Est.
  - destruct (IsNotExist (Some err)); [|done].
    destruct (Split subPath) as [dir file].
    unfold MkdirAll in HW. rewrite Hfs in HW.
    destruct (mkdirAll (components dir) (fs h)) as [e|n1]; [done|].
    simpl in HW.
    destruct (put_path _ _ n1) as [e|n2] eqn:Eput; [done|].
    injection HW as <- <-. split_and!; [|done..].
    unfold Stat. simpl. rewrite (walk_put_path _ _ _ _ Eput).
    unfold seek_or_grow, growFile. simpl. by rewrite Hsz.
  - unfold Stat in Est.
    destruct (walk (components subPath) (fs h)) as [e|x] eqn:Ew; [done|].
    injection Est as ->. rewrite Hfs in HW.
    destruct (put_path_of_walk (components subPath)
                (RegularFile
                   (content (f_Write
                      (seek_or_grow h buf (Some data) offset) p)))
                (fs h) _ Ew) as [n2 Eput].
    unfold seek_or_grow, growFile in *. rewrite Hsz in HW.
    rewrite Eput in HW.
    injection HW as <- <-. split_and!; [|done..].
    unfold Stat. simpl. by rewrite (walk_put_path _ _ _ _ Eput).
  - by destruct (Hnodir es).
Qed.

Lemma file_content_Some h path d :
  file_content h path = Some d → Stat h path = inr (RegularFile d).
Proof.
  unfold file_content. destruct (Stat h path) as [e|[d'|es]]; [done| |done].
  by intros [= ->].
Qed.

(** What the check of the path lets through starts with the text of the
    root path. *)
Lemma constructSubPath_prefix b h rpath subPath :
  constructSubPath b h rpath = inr subPath →
  subPath = Join [rootPath b; rpath]
  ∧ HasPrefix (Abs (cwd h) subPath) (rootPath b) = true.
Proof.
  unfold constructSubPath.
  destruct (HasPrefix _ _) eqn:E; [|done]. by intros [= <-].
Qed.

(** C1: the check of the sandbox compares texts: for the root /data/foo
    the path ../foobar/secret passes it, although /data/foobar/secret is
    not a descendant of /data/foo, and the read is executed on the file
    outside of the root. *)
Theorem sandbox_sibling_escape :
  constructSubPath branch0 host0 "../foobar/secret"
  = inr "/data/foobar/secret"
  ∧ ¬ descendant (rootPath branch0) "/data/foobar/secret"
  ∧ ¬ sandboxed branch0 host0 "../foobar/secret"
  ∧ ReadFile branch0 host0 "../foobar/secret" (make 3) 0
    = (3, bytes "top", None).
Proof.
  assert (Hd : ¬ descendant (rootPath branch0) "/data/foobar/secret").
  { intros [k Hk]. vm_compute in Hk. discriminate Hk. }
  split_and!; [by vm_compute|done| |by vm_compute].
  unfold sandboxed.
  replace (constructSubPath branch0 host0 "../foobar/secret")
    with (inr (A:=error) "/data/foobar/secret") by by vm_compute.
  replace (Abs (cwd host0) (Join [rootPath branch0; "../foobar/secret"]))
    with "/data/foobar/secret" by by vm_compute.
  done.
Qed.

(** A write beyond the end of a file, or the first write to a new file at
    an offset, leaves zero bytes in the gap when the slice taken from the
    pool is zeroed. *)
Lemma WriteFile_zero_padded b h spath p offset h' n subPath :
  1 ≤ DefaultReadBufferSize h →
  pool_clean h →
  constructSubPath b h spath = inr subPath →
  (∀ es, Stat h subPath ≠ inr (Directory es)) →
  Z.of_nat (List.length (default [] (file_content h subPath))) < offset →
  WriteFile b h spath p offset = (h', (n, None)) →
  ∃ new, file_content h' subPath = Some new
         ∧ zero_padded (default [] (file_content h subPath)) new p offset.
Proof.
  intros Hsz Hclean Hsub Hnodir Hoff HW.
  destruct (WriteFile_written _ _ _ _ _ _ _ _ Hsub Hnodir HW)
    as (Hnew & _ & _).
  eexists. split; [exact Hnew|].
  assert (Hbuf : ∃ m, (pool_Get h).1 = replicate m x00
                      ∧ DefaultReadBufferSize h ≤ Z.of_nat m).
  { unfold pool_clean in Hclean. unfold pool_Get.
    destruct (byteSlicePool h) as [|buf rest]; simpl; [|done].
    exists (Z.to_nat (DefaultReadBufferSize h)). split; [done|lia]. }
  destruct Hbuf as (m & -> & Hm).
  unfold zero_padded, seek_or_grow, growFile.
  destruct (file_content h subPath) as [data|].
  - simpl in Hoff. cbv zeta.
    rewrite (proj2 (Z.ltb_lt _ _) Hoff).
    assert (Hseek : f_Seek {| content := data; pos := 0 |}
                      (Z.of_nat (List.length data))
                    = {| content := data; pos := List.length data |}).
    { unfold f_Seek. rewrite (proj2 (Z.ltb_ge _ _)) by lia.
      simpl. by rewrite Nat2Z.id. }
    rewrite Hseek.
    destruct (growFile_loop_zeros
                (Z.to_nat (offset - Z.of_nat (List.length data)))
                (DefaultReadBufferSize h) m
                {| content := data; pos := List.length data |}
                (offset - Z.of_nat (List.length data)) Hsz Hm
                ltac:(lia) eq_refl) as [Hc Hp].
    destruct (f_Write_at_end _ p Hp) as [-> _]. rewrite Hc. simpl.
    rewrite <- app_assoc. do 3 f_equal. lia.
  - change (0 < offset) in Hoff. cbv zeta.
    rewrite (proj2 (Z.ltb_lt _ _) Hoff).
    destruct (growFile_loop_zeros (Z.to_nat offset)
                (DefaultReadBufferSize h) m {| content := []; pos := 0 |}
                offset Hsz Hm ltac:(lia) eq_refl) as [Hc Hp].
    destruct (f_Write_at_end _ p Hp) as [-> _]. rewrite Hc. simpl.
    do 2 f_equal. lia.
Qed.

(** C2: the gap is filled from the slice the pool hands out, and the pool
    hands out the slice a read request has put back.  After the branch
    has answered a read of the file a, which holds XY, a write of Z at
    offset 2 to the new file b gives XYZ, and a write of Z at offset 4 to
    the file a gives XYXYZ; none of the two is zero padded. *)
Theorem gap_filled_from_pooled_slice :
  take 2 (default [] (head (byteSlicePool host1))) = bytes "XY"
  ∧ (let r := WriteFile branch0 host1 "b" (bytes "Z") 2 in
     r.2 = (1, None)
     ∧ file_content r.1 "/data/foo/b" = Some (bytes "XYZ")
     ∧ ¬ zero_padded [] (bytes "XYZ") (bytes "Z") 2)
  ∧ (let r := WriteFile branch0 host1 "a" (bytes "Z") 4 in
     r.2 = (1, None)
     ∧ file_content r.1 "/data/foo/a" = Some (bytes "XYXYZ")
     ∧ ¬ zero_padded (bytes "XY") (bytes "XYXYZ") (bytes "Z") 4).
Proof.
  split_and!; by vm_compute.
Qed.

(** C8 (as stated) fails for a file which holds more than is written:
    the file a holds XY, the write of Z at offset 0 succeeds, and the read
    into a buffer of 8 bytes returns the 2 bytes ZY. *)
Lemma roundtrip_fails_on_longer_file :
  ¬ write_read_roundtrip branch0 host0 "a" (bytes "Z") (make 8).
Proof.
  intros H.
  pose (r := WriteFile branch0 host0 "a" (bytes "Z") 0).
  assert (Hw : r.2 = (1, None)) by by vm_compute.
  assert (Hr : ReadFile branch0 r.1 "a" (make 8) 0
               = (2, bytes "ZY" ++ make 6, None)) by by vm_compute.
  destruct (H ltac:(vm_compute; lia) r.1 1) as (buf' & Hr' & _).
  { rewrite <- Hw. apply surjective_pairing. }
  rewrite Hr in Hr'. discriminate Hr'.
Qed.

(** C8 (as amended): after a successful write of [bytes] at offset 0 to a
    path which is no directory, a read at offset 0 into a buffer at least
    as large returns the written bytes followed by what the file held
    before beyond them, as far as the buffer reaches (and the end of file
    error for nothing at all); the buffer starts with the written bytes;
    and the read returns exactly the written bytes when the file did not
    exist or was not longer than them. *)
Theorem write_then_read b h spath bytes buf h' n subPath :
  constructSubPath b h spath = inr subPath →
  (∀ es, Stat h subPath ≠ inr (Directory es)) →
  (List.length bytes ≤ List.length buf)%nat →
  WriteFile b h spath bytes 0 = (h', (n, None)) →
  let old := default [] (file_content h subPath) in
  let data := bytes ++ drop (List.length bytes) old in
  let got := take (List.length buf) data in
  ReadFile b h' spath buf 0
  = (if decide (data = []) then (0, buf, Some EOF)
     else (Z.of_nat (List.length got),
           got ++ drop (List.length got) buf, None))
  ∧ take (List.length bytes) (ReadFile b h' spath buf 0).1.2 = bytes
  ∧ (bytes ≠ [] → (List.length old ≤ List.length bytes)%nat →
     ReadFile b h' spath buf 0
     = (Z.of_nat (List.length bytes),
        bytes ++ drop (List.length bytes) buf, None)).
Proof.
  intros Hsub Hnodir Hlen HW old data got.
  destruct (WriteFile_written _ _ _ _ _ _ _ _ Hsub Hnodir HW)
    as (Hnew & Hcwd & _).
  assert (Hdata : content (f_Write
                    (seek_or_grow h (pool_Get h).1
                       (file_content h subPath) 0) bytes) = data).
  { subst data old. unfold seek_or_grow.
    destruct (file_content h subPath) as [d|]; simpl; [|done].
    by rewrite (proj2 (Z.ltb_ge _ _)) by lia. }
  rewrite Hdata in Hnew. apply file_content_Some in Hnew.
  assert (HR : ReadFile b h' spath buf 0
    = (if decide (data = []) then (0, buf, Some EOF)
       else (Z.of_nat (List.length got),
             got ++ drop (List.length got) buf, None))).
  { unfold ReadFile.
    replace (constructSubPath b h' spath) with (inr (A:=error) subPath)
      by (unfold constructSubPath in *; by rewrite Hcwd).
    rewrite Hnew. simpl.
    case_decide as Hd.
    - by rewrite Hd.
    - destruct data; [done|]. simpl. done. }
  split_and!; [done| |].
  - rewrite HR. case_decide as Hd.
    + apply app_eq_nil in Hd as [-> _]. done.
    + simpl. subst got data.
      rewrite take_app_le by (rewrite length_take, length_app; lia).
      rewrite take_take, take_app_le by lia.
      rewrite take_ge by lia. done.
  - intros Hne Hold. rewrite HR.
    assert (Hdrop : drop (List.length bytes) old = [])
      by (apply drop_ge; lia).
    subst got data. rewrite Hdrop, app_nil_r.
    rewrite decide_False by done.
    by rewrite take_ge by lia.
Qed.

Lemma write_then_read_witness :
  let h' := (WriteFile branch0 host0 "a" (bytes "Z") 0).1 in
  constructSubPath branch0 host0 "a" = inr "/data/foo/a"
  ∧ (∀ es, Stat host0 "/data/foo/a" ≠ inr (Directory es))
  ∧ (List.length (bytes "Z") ≤ List.length (make 8))%nat
  ∧ WriteFile branch0 host0 "a" (bytes "Z") 0 = (h', (1, None))
  ∧ take 1 (ReadFile branch0 h' "a" (make 8) 0).1.2 = bytes "Z".
Proof.
  intros h'.
  assert (H1 : constructSubPath branch0 host0 "a" = inr "/data/foo/a")
    by (vm_compute; reflexivity).
  assert (H2 : ∀ es, Stat host0 "/data/foo/a" ≠ inr (Directory es))
    by (intros es; vm_compute; discriminate).
  assert (H3 : (List.length (bytes "Z") ≤ List.length (make 8))%nat)
    by (vm_compute; lia).
  assert (H4 : WriteFile branch0 host0 "a" (bytes "Z") 0 = (h', (1, None)))
    by (vm_compute; reflexivity).
  split_and!; [exact H1|exact H2|exact H3|exact H4|].
  exact (proj1 (proj2 (write_then_read branch0 host0 "a" (bytes "Z")
                         (make 8) h' 1 "/data/foo/a" H1 H2 H3 H4))).
Defined.

Section ItemOp.

Variable regexp_Compile : string → error + (string → bool).
Variable GlobToRegex : string → error + string.
Variable CheckSumFileFast : list byte → string.

Abbreviation ItemOp :=
  (ItemOp regexp_Compile GlobToRegex CheckSumFileFast).
Abbreviation ItemOp_action :=
  (ItemOp_action regexp_Compile GlobToRegex CheckSumFileFast).

(** C9: for a call of [ItemOp] which passes the read-only check and the
    check of the path, the error returned is the error of the action, and
    the boolean returned is true if and only if that error is nil or a
    not exists error; in particular the delete of a single target which
    is not there returns true together with the not exists error. *)
Theorem ItemOp_success_flag (b : Branch) (h : state) (spath : string)
  (opdata : gmap string string) (subPath : string) :
  checkReadOnly b = None →
  constructSubPath b h spath = inr subPath →
  let r := ItemOp b h spath opdata in
  r.2.2 = (ItemOp_action b h spath subPath opdata).2
  ∧ (r.2.1 = true ↔ r.2.2 = None ∨ IsNotExist r.2.2 = true)
  ∧ (∀ name,
       get opdata ItemOpAction = ItemOpActDelete →
       fileFromOpData opdata subPath ItemOpName = inr name →
       ContainsChar name "*" = false →
       PathExists h name = false →
       r = (h, (true, Some ErrNotExist))).
Proof.
  intros Hro Hsub r. subst r. unfold Branch.ItemOp.
  rewrite Hro, Hsub.
  split_and!.
  - by destruct (Branch.ItemOp_action _ _ _ _ _ _ _ _) as [h' err].
  - destruct (Branch.ItemOp_action _ _ _ _ _ _ _ _) as [h' err]. simpl.
    rewrite orb_true_iff, bool_decide_eq_true. done.
  - intros name Hact Hname Hstar Hex.
    unfold Branch.ItemOp_action. rewrite Hact, Hname, Hstar.
    unfold del. rewrite Hex. done.
Qed.

End ItemOp.

Lemma ItemOp_success_flag_witness :
  let opdata : gmap string string :=
    {[ ItemOpAction := ItemOpActDelete; ItemOpName := "zz" ]} in
  let r := Branch.ItemOp re0 gl0 ck0 branch0 host0 "" opdata in
  checkReadOnly branch0 = None
  ∧ constructSubPath branch0 host0 "" = inr "/data/foo"
  ∧ r.2.2 = (Branch.ItemOp_action re0 gl0 ck0 branch0 host0 "" "/data/foo"
               opdata).2
  ∧ (r.2.1 = true ↔ r.2.2 = None ∨ IsNotExist r.2.2 = true)
  ∧ r = (host0, (true, Some ErrNotExist)).
Proof.
  intros opdata r.
  assert (H1 : checkReadOnly branch0 = None) by reflexivity.
  assert (H2 : constructSubPath branch0 host0 "" = inr "/data/foo")
    by (vm_compute; reflexivity).
  destruct (ItemOp_success_flag re0 gl0 ck0 branch0 host0 "" opdata
              "/data/foo" H1 H2) as (Ha & Hb & Hc).
  split_and!; [exact H1|exact H2|exact Ha|exact Hb|].
  apply (Hc "/data/foo/zz"); vm_compute; reflexivity.
Defined.

End BranchFacts.

(* ====================================================================== *)
(** ** Facts about the tree client                                         *)
(* ====================================================================== *)

Module TreeFacts.
Import Branch Tree Props Examples.
Local Open Scope list_scope.

(** A loop over the calls of the visitor, each with its loop over the
    branches, is a loop over all branches in visit order. *)
Lemma fold_left_bind {A B C} (f : A → C → A) (g : B → list C)
  (l : list B) (a : A) :
  fold_left f (l ≫= g) a = fold_left (λ a v, fold_left f (g v) a) l a.
Proof.
  revert a. induction l as [|x l IH]; intros a; [done|].
  simpl. by rewrite fold_left_app, IH.
Qed.

Lemma fold_left_fmap {A B C} (f : A → C → A) (g : B → C)
  (l : list B) (a : A) :
  fold_left f (g <$> l) a = fold_left (λ a x, f a (g x)) l a.
Proof. revert a. induction l as [|x l IH]; intros a; simpl; [done|]. apply IH. Qed.

Lemma fold_left_ext {A B} (f g : A → B → A) (l : list B) (a : A) :
  (∀ a x, f a x = g a x) → fold_left f l a = fold_left g l a.
Proof.
  intros H. revert a. induction l as [|x l IH]; intros a; simpl; [done|].
  by rewrite H, IH.
Qed.

(** *** Merging listings *)

Lemma elem_of_filter_bool {A} (P : A → bool) (l : list A) (x : A) :
  x ∈ List.filter P l ↔ x ∈ l ∧ P x = true.
Proof. rewrite !list_elem_of_In. apply filter_In. Qed.

Lemma names_filter (P : FileInfo → bool) (l : list FileInfo) (n : string) :
  n ∈ names (List.filter P l) → n ∈ names l.
Proof.
  unfold names. rewrite !list_elem_of_fmap.
  intros (x & -> & Hx). apply elem_of_filter_bool in Hx as [Hx _]. eauto.
Qed.

Lemma NoDup_names_filter (P : FileInfo → bool) (l : list FileInfo) :
  NoDup (names l) → NoDup (names (List.filter P l)).
Proof.
  induction l as [|x l IH]; [done|]. simpl.
  intros [Hx Hl]%NoDup_cons.
  destruct (P x); simpl; [|by apply IH].
  apply NoDup_cons. split; [|by apply IH].
  intros Hin. by apply Hx, names_filter with P.
Qed.

(** The loop over [dirs] merges the listing into the listings of the
    directories equal to [d], and into no other. *)
Lemma merge_found_spec (d : string) (bfi : list FileInfo)
  (dirs : list string) (j : nat) (fis : list (list FileInfo))
  (found : bool) :
  let r := merge_found j dirs d bfi fis found in
  r.2 = found || bool_decide (d ∈ dirs)
  ∧ List.length r.1 = List.length fis
  ∧ ∀ i, r.1 !! i =
         if bool_decide (j ≤ i ∧ dirs !! (i - j) = Some d)%nat
         then (λ l, add_new l bfi) <$> fis !! i
         else fis !! i.
Proof.
  revert j fis found.
  induction dirs as [|dir dirs IH]; intros j fis found; simpl.
  - split_and!; [by rewrite orb_false_r|done|].
    intros i. rewrite bool_decide_eq_false_2; [done|]. by intros [_ ?].
  - destruct (decide (dir = d)) as [->|Hne].
    + destruct (IH (S j) (alter (λ l, add_new l bfi) j fis) true)
        as (Hf & Hl & Hi).
      split_and!.
      * rewrite Hf. simpl. rewrite (bool_decide_eq_true_2 (d ∈ d :: dirs)).
        -- by rewrite orb_true_r.
        -- by left.
      * by rewrite Hl, length_alter.
      * intros i. rewrite Hi.
        destruct (decide (i = j)) as [->|Hij].
        -- rewrite bool_decide_eq_false_2 by lia.
           rewrite bool_decide_eq_true_2
             by (split; [lia|by rewrite Nat.sub_diag]).
           apply list_lookup_alter_eq.
        -- rewrite list_lookup_alter_ne by done.
           apply (f_equal (λ b : bool,
                    if b then (λ l, add_new l bfi) <$> fis !! i
                    else fis !! i)).
           apply bool_decide_ext. split.
           ++ intros [? Hd]. split; [lia|].
              by replace (i - j)%nat with (S (i - S j)) by lia.
           ++ intros [? Hd]. split; [lia|].
              by replace (i - j)%nat with (S (i - S j)) in Hd by lia.
    + destruct (IH (S j) fis found) as (Hf & Hl & Hi).
      split_and!.
      * rewrite Hf. f_equal. apply bool_decide_ext.
        rewrite elem_of_cons. split; [by right|].
        intros [Hd|Hd]; [congruence|done].
      * done.
      * intros i. rewrite Hi.
        apply (f_equal (λ b : bool,
                 if b then (λ l, add_new l bfi) <$> fis !! i
                 else fis !! i)).
        apply bool_decide_ext. split.
        -- intros [? Hd]. split; [lia|].
           by replace (i - j)%nat with (S (i - S j)) by lia.
        -- intros [? Hd].
           destruct (decide (i = j)) as [->|Hij].
           ++ rewrite Nat.sub_diag in Hd. simpl in Hd. congruence.
           ++ split; [lia|].
              by replace (i - j)%nat with (S (i - S j)) in Hd by lia.
Qed.

Lemma name_elem_of (l : list FileInfo) (x : FileInfo) :
  x ∈ l → FiName x ∈ names l.
Proof. intros Hx. apply list_elem_of_fmap. eauto. Qed.

(** *** The contributions for a tree path *)

Lemma contributions_snoc (log : list (string * list FileInfo))
  (c : string * list FileInfo) (T : string) :
  contributions (log ++ [c]) T
  = contributions log T ++ (if decide (c.1 = T) then [c.2] else []).
Proof.
  unfold contributions. rewrite List.filter_app, fmap_app. f_equal.
  simpl. destruct (decide (c.1 = T)) as [H|H].
  - by rewrite bool_decide_eq_true_2.
  - by rewrite bool_decide_eq_false_2.
Qed.

Lemma contributions_nil (log : list (string * list FileInfo)) (T : string) :
  (∀ bfi, (T, bfi) ∉ log) → contributions log T = [].
Proof.
  intros H. unfold contributions.
  induction log as [|[T' b] log IH]; [done|]. simpl.
  destruct (decide (T' = T)) as [->|Hne].
  - exfalso. apply (H b). by left.
  - rewrite bool_decide_eq_false_2 by done. apply IH.
    intros bfi Hin. apply (H bfi). by right.
Qed.

Lemma elem_of_contributions (log : list (string * list FileInfo))
  (T : string) (bfi : list FileInfo) :
  bfi ∈ contributions log T ↔ (T, bfi) ∈ log.
Proof.
  unfold contributions. rewrite list_elem_of_fmap. split.
  - intros ([T' b] & -> & Hin). apply elem_of_filter_bool in Hin as [Hin Ht].
    apply bool_decide_eq_true in Ht. simpl in *. by subst.
  - intros Hin. exists (T, bfi). split; [done|].
    apply elem_of_filter_bool. split; [done|]. by apply bool_decide_eq_true.
Qed.

(** *** The overlay of listings *)

Lemma filter_all (l : list FileInfo) :
  List.filter (λ x, bool_decide (FiName x ∉ @nil string)) l = l.
Proof.
  induction l as [|x l IH]; [done|]. cbn [List.filter].
  rewrite bool_decide_eq_true_2 by apply not_elem_of_nil. by rewrite IH.
Qed.

Lemma names_first_wins_from (seen : list string)
  (cs : list (list FileInfo)) (n : string) :
  n ∈ names (first_wins_from seen cs)
  ↔ (n ∉ seen) ∧ ∃ bfi, bfi ∈ cs ∧ n ∈ names bfi.
Proof.
  revert seen. induction cs as [|b cs IH]; intros seen; simpl.
  - split; [by intros ?%elem_of_nil|]. intros (_ & bfi & ?%elem_of_nil & _).
    done.
  - unfold names at 1. rewrite fmap_app, elem_of_app. fold (names).
    change (FiName <$> first_wins_from (seen ++ names b) cs)
      with (names (first_wins_from (seen ++ names b) cs)).
    rewrite IH. split.
    + intros [Hn|(Hn & bfi & Hb & Hnb)].
      * apply list_elem_of_fmap in Hn as (x & -> & Hx).
        apply elem_of_filter_bool in Hx as [Hx Hs].
        apply bool_decide_eq_true in Hs. split; [done|].
        exists b. split; [by left|]. by apply name_elem_of.
      * split.
        -- intros Hs. apply Hn, elem_of_app. by left.
        -- exists bfi. split; [by right|done].
    + intros (Hs & bfi & Hb & Hnb).
      destruct (decide (n ∈ names b)) as [Hin|Hnin].
      * left. apply list_elem_of_fmap in Hin as (x & -> & Hx).
        apply list_elem_of_fmap. exists x. split; [done|].
        apply elem_of_filter_bool. split; [done|].
        by apply bool_decide_eq_true.
      * right. split.
        -- by intros [?|?]%elem_of_app.
        -- apply elem_of_cons in Hb as [->|Hb]; [done|]. eauto.
Qed.

Lemma first_wins_from_snoc (seen : list string)
  (cs : list (list FileInfo)) (bfi : list FileInfo) :
  first_wins_from seen (cs ++ [bfi])
  = first_wins_from seen cs
    ++ List.filter
         (λ x, bool_decide (FiName x ∉ seen)
               && bool_decide
                    (FiName x ∉ names (first_wins_from seen cs)))
         bfi.
Proof.
  revert seen. induction cs as [|b cs IH]; intros seen;
    cbn [first_wins_from app].
  - rewrite app_nil_r. cbn [app]. apply List.filter_ext. intros x.
    rewrite (bool_decide_eq_true_2 (FiName x ∉ names [])).
    + by rewrite andb_true_r.
    + apply not_elem_of_nil.
  - rewrite IH, <- app_assoc. do 2 f_equal.
    apply List.filter_ext. intros x.
    apply eq_true_iff_eq. rewrite !andb_true_iff, !bool_decide_eq_true.
    pose proof (names_first_wins_from seen (b :: cs) (FiName x)) as Hn.
    simpl in Hn.
    pose proof (names_first_wins_from (seen ++ names b) cs (FiName x)) as Hn'.
    rewrite not_elem_of_app. split.
    + intros [[Hs Hb] Hc]. split; [done|].
      intros Hin. apply Hn in Hin as (_ & bfi' & Hb' & Hx).
      apply elem_of_cons in Hb' as [->|Hb']; [done|].
      apply Hc, Hn'. split; [by intros [?|?]%elem_of_app|]. eauto.
    + intros [Hs Hc]. split_and!; [done| |].
      * intros Hb. apply Hc, Hn. split; [done|]. exists b. split; [by left|done].
      * intros Hin. apply Hn' in Hin as (_ & bfi' & Hb' & Hx).
        apply Hc, Hn. split; [done|]. exists bfi'. split; [by right|done].
Qed.

Lemma first_wins_snoc (cs : list (list FileInfo)) (bfi : list FileInfo) :
  first_wins (cs ++ [bfi]) = add_new (first_wins cs) bfi.
Proof.
  unfold first_wins, add_new. by rewrite first_wins_from_snoc.
Qed.

Lemma elem_of_first_wins_from (seen : list string)
  (cs : list (list FileInfo)) (x : FileInfo) :
  x ∈ first_wins_from seen cs
  ↔ ∃ k bfi,
      cs !! k = Some bfi ∧ x ∈ bfi ∧ (FiName x ∉ seen)
      ∧ ∀ k' bfi', (k' < k)%nat → cs !! k' = Some bfi' →
                   FiName x ∉ names bfi'.
Proof.
  revert seen. induction cs as [|b cs IH]; intros seen;
    cbn [first_wins_from].
  - split; [by intros ?%elem_of_nil|]. by intros (k & bfi & ? & _).
  - rewrite elem_of_app, elem_of_filter_bool, bool_decide_eq_true, IH.
    split.
    + intros [[Hx Hs]|(k & bfi & Hk & Hx & Hs & Hfirst)].
      * exists 0%nat, b. split_and!; [done..|]. intros k' bfi' Hlt. lia.
      * apply not_elem_of_app in Hs as [Hs Hb].
        exists (S k), bfi. split_and!; [done..|].
        intros [|k'] bfi' Hlt Hk'.
        -- by injection Hk' as <-.
        -- apply (Hfirst k'); [lia|done].
    + intros ([|k] & bfi & Hk & Hx & Hs & Hfirst).
      * injection Hk as <-. by left.
      * right. exists k, bfi. split_and!; [done..| |].
        -- apply not_elem_of_app. split; [done|].
           apply (Hfirst 0%nat); [lia|done].
        -- intros k' bfi' Hlt Hk'. apply (Hfirst (S k')); [lia|done].
Qed.

Lemma NoDup_first_wins_from (seen : list string)
  (cs : list (list FileInfo)) :
  Forall (λ bfi, NoDup (names bfi)) cs →
  NoDup (names (first_wins_from seen cs)).
Proof.
  intros Hcs. revert seen.
  induction Hcs as [|b cs Hb Hcs IH]; intros seen; cbn [first_wins_from].
  - apply NoDup_nil_2.
  - unfold names. rewrite fmap_app. apply NoDup_app. split_and!.
    + by apply NoDup_names_filter.
    + intros n Hn Hn'.
      apply (names_first_wins_from (seen ++ names b) cs n) in Hn'
        as [Hn' _].
      apply Hn', elem_of_app. right. by eapply names_filter.
    + apply IH.
Qed.

(** The listing [first_wins cs ++ ps] holds of a name the entries of the
    first listing which has it, and no name twice when no listing does. *)
Lemma first_wins_entries (re : string → bool) (chs : list string)
  (cs : list (list FileInfo)) (ps : list FileInfo) (k : nat)
  (bfi : list FileInfo) (x : FileInfo) :
  pseudo_dirs_for re chs (first_wins cs) ps →
  cs !! k = Some bfi →
  FiName x ∈ names bfi →
  (∀ k' bfi', (k' < k)%nat → cs !! k' = Some bfi' →
              FiName x ∉ names bfi') →
  x ∈ first_wins cs ++ ps ↔ x ∈ bfi.
Proof.
  intros (_ & _ & Hps) Hk Hn Hfirst.
  assert (Hin : FiName x ∈ names (first_wins cs)).
  { apply names_first_wins_from. split; [apply not_elem_of_nil|].
    exists bfi. split; [by eapply list_elem_of_lookup_2|done]. }
  rewrite elem_of_app. unfold first_wins.
  rewrite elem_of_first_wins_from. split.
  - intros [(k0 & bfi0 & Hk0 & Hx & _ & Hfirst0)|Hx].
    + destruct (Nat.lt_trichotomy k0 k) as [Hlt|[->|Hlt]].
      * exfalso. apply (Hfirst k0 bfi0 Hlt Hk0). by apply name_elem_of.
      * rewrite Hk in Hk0. by injection Hk0 as <-.
      * exfalso. by apply (Hfirst0 k bfi Hlt Hk).
    + apply name_elem_of, Hps in Hx as (_ & _ & Hx). done.
  - intros Hx. left. exists k, bfi.
    split_and!; [done..|apply not_elem_of_nil|done].
Qed.

Lemma NoDup_first_wins_pseudo (re : string → bool) (chs : list string)
  (cs : list (list FileInfo)) (ps : list FileInfo) :
  pseudo_dirs_for re chs (first_wins cs) ps →
  Forall (λ bfi, NoDup (names bfi)) cs →
  NoDup (names (first_wins cs ++ ps)).
Proof.
  intros (Hnd & _ & Hps) Hcs. unfold names. rewrite fmap_app.
  apply NoDup_app. split_and!; [by apply NoDup_first_wins_from| |done].
  intros n Hn Hn'. by apply Hps in Hn' as (_ & _ & ?).
Qed.

(** Merging a listing keeps the overall result the overlay of the
    contributions. *)
Lemma merged_exactly_merge_one (log : list (string * list FileInfo))
  (st : list string * list (list FileInfo)) (c : string * list FileInfo) :
  merged_exactly log st → merged_exactly (log ++ [c]) (merge_one st c).
Proof.
  destruct st as [dirs fis], c as [T0 bfi].
  intros (Hlen & Hnd & Hlog & Hov). simpl in *.
  unfold merge_one. simpl.
  pose proof (merge_found_spec T0 bfi dirs 0 fis false) as (Hf & Hl & Hi).
  destruct (merge_found 0 dirs T0 bfi fis false) as [fis1 found].
  simpl in *. subst found.
  assert (Hi' : ∀ i, fis1 !! i =
                     if bool_decide (dirs !! i = Some T0)
                     then (λ l, add_new l bfi) <$> fis !! i
                     else fis !! i).
  { intros i. rewrite Hi. rewrite Nat.sub_0_r.
    apply (f_equal (λ b : bool,
             if b then (λ l, add_new l bfi) <$> fis !! i else fis !! i)).
    apply bool_decide_ext. split; [by intros [_ ?]|]. split; [lia|done]. }
  clear Hi.
  assert (Hother : ∀ T, T ≠ T0 →
            contributions (log ++ [(T0, bfi)]) T = contributions log T).
  { intros T HT. rewrite contributions_snoc. simpl.
    rewrite decide_False by congruence. by rewrite app_nil_r. }
  assert (Hsame : contributions (log ++ [(T0, bfi)]) T0
                  = contributions log T0 ++ [bfi]).
  { rewrite contributions_snoc. simpl. by rewrite decide_True. }
  assert (Hlog' : ∀ T, (∃ b, (T, b) ∈ log ++ [(T0, bfi)])
                       ↔ T ∈ dirs ∨ T = T0).
  { intros T. rewrite Hlog. split.
    - intros (b & [Hb|Hb]%elem_of_app); [left; eauto|].
      apply list_elem_of_singleton in Hb as [= -> ->]. by right.
    - intros [(b & Hb)| ->].
      + exists b. apply elem_of_app. by left.
      + exists bfi. apply elem_of_app. right.
        by apply list_elem_of_singleton. }
  destruct (decide (T0 ∈ dirs)) as [Hin|Hnin].
  - rewrite bool_decide_eq_true_2 by done.
    split_and!; simpl; [lia|done| |].
    + intros T. rewrite Hlog'. split; [by left|]. by intros [?| ->].
    + intros j T l HT Hl'. rewrite Hi' in Hl'.
      destruct (decide (T = T0)) as [->|HTne].
      * rewrite bool_decide_eq_true_2 in Hl' by done.
        destruct (fis !! j) as [l0|] eqn:Hl0; [|done].
        injection Hl' as <-.
        rewrite Hsame, first_wins_snoc. f_equal. by eapply Hov.
      * rewrite bool_decide_eq_false_2 in Hl' by congruence.
        rewrite Hother by done. by eapply Hov.
  - rewrite bool_decide_eq_false_2 by done.
    assert (Hfis : fis1 = fis).
    { apply list_eq. intros i. rewrite Hi'.
      rewrite bool_decide_eq_false_2; [done|].
      intros Hd. apply Hnin. by eapply list_elem_of_lookup_2. }
    subst fis1.
    split_and!; simpl.
    + rewrite !length_app. simpl. lia.
    + apply NoDup_app. split_and!; [done| |apply NoDup_singleton].
      intros T HT ->%list_elem_of_singleton. done.
    + intros T. rewrite Hlog', elem_of_app, list_elem_of_singleton. done.
    + intros j T l HT Hl'.
      apply lookup_app_Some in HT as [HT|[Hj HT]].
      * assert (Hlt : (j < List.length fis)%nat)
          by (rewrite <- Hlen; by eapply lookup_lt_Some).
        rewrite lookup_app_l in Hl' by done.
        assert (HTne : T ≠ T0).
        { intros ->. apply Hnin. by eapply list_elem_of_lookup_2. }
        rewrite Hother by done. by eapply Hov.
      * rewrite lookup_app_r in Hl' by lia.
        rewrite <- Hlen in Hl'.
        destruct (j - List.length dirs)%nat as [|k]; [|by destruct k].
        injection HT as <-. injection Hl' as <-.
        rewrite Hsame, contributions_nil.
        -- unfold first_wins. simpl. by rewrite filter_all, app_nil_r.
        -- intros b Hb. apply Hnin, Hlog. eauto.
Qed.

Lemma merged_exactly_fold (cs log : list (string * list FileInfo))
  (st : list string * list (list FileInfo)) :
  merged_exactly log st →
  merged_exactly (log ++ cs) (fold_left merge_one cs st).
Proof.
  revert log st. induction cs as [|c cs IH]; intros log st Hm.
  - by rewrite app_nil_r.
  - simpl.
    replace (log ++ c :: cs) with ((log ++ [c]) ++ cs)
      by (by rewrite <- app_assoc).
    apply IH. by apply merged_exactly_merge_one.
Qed.

Lemma merged_exactly_nil : merged_exactly [] ([], []).
Proof.
  split_and!; simpl; [done|apply NoDup_nil_2| |].
  - intros T. split; [by intros ?%elem_of_nil|].
    by intros (b & ?%elem_of_nil).
  - intros j T l Hj. done.
Qed.

(** *** The map from the directories to their indices *)

Lemma dirsMap_loop (dirs : list string) (k : nat) (m0 : gmap string nat) :
  NoDup dirs →
  (∀ T, T ∈ dirs → m0 !! T = None) →
  ∀ T idx,
    fold_left (λ (m : gmap string nat) (e : nat * string), <[e.2 := e.1]> m)
      (imap (λ i d, ((k + i)%nat, d)) dirs) m0 !! T = Some idx
    ↔ m0 !! T = Some idx ∨ ((k ≤ idx)%nat ∧ dirs !! (idx - k)%nat = Some T).
Proof.
  revert k m0. induction dirs as [|d dirs IH]; intros k m0 Hnd Hm0 T idx.
  - simpl. split; [by left|]. by intros [?|[_ ?]].
  - apply NoDup_cons in Hnd as [Hd Hnd].
    rewrite imap_cons. cbn [fold_left fst snd].
    rewrite (imap_ext _ (λ i d, ((S k + i)%nat, d)))
      by (intros; simpl; f_equal; lia).
    rewrite IH; [|done|].
    + rewrite Nat.add_0_r. rewrite lookup_insert.
      assert (Hm0d : m0 !! d = None) by (apply Hm0; by left).
      destruct (decide (d = T)) as [->|Hne].
      * rewrite Hm0d. split.
        -- intros [[= <-]|[Hle Hl]].
           ++ right. split; [lia|]. by rewrite Nat.sub_diag.
           ++ exfalso. apply Hd. by eapply list_elem_of_lookup_2.
        -- intros [[=]|[Hle Hl]].
           destruct (decide (idx = k)) as [->|Hne]; [by left|].
           exfalso. apply Hd.
           replace (idx - k)%nat with (S (idx - S k)) in Hl by lia.
           by eapply list_elem_of_lookup_2.
      * split.
        -- intros [?|[Hle Hl]]; [by left|]. right. split; [lia|].
           by replace (idx - k)%nat with (S (idx - S k)) by lia.
        -- intros [?|[Hle Hl]]; [by left|].
           destruct (decide (idx = k)) as [->|Hne'].
           ++ rewrite Nat.sub_diag in Hl. simpl in Hl. congruence.
           ++ right. split; [lia|].
              by replace (idx - k)%nat with (S (idx - S k)) in Hl by lia.
    + intros T' HT'. rewrite lookup_insert_ne.
      * apply Hm0. by right.
      * intros ->. done.
Qed.

Lemma make_dirsMap_spec (dirs : list string) :
  NoDup dirs →
  ∀ T idx, make_dirsMap dirs !! T = Some idx ↔ dirs !! idx = Some T.
Proof.
  intros Hnd T idx. unfold make_dirsMap.
  rewrite (dirsMap_loop dirs 0 ∅ Hnd); [|done].
  rewrite lookup_empty, Nat.sub_0_r. split.
  - by intros [?|[_ ?]].
  - intros ?. right. split; [lia|done].
Qed.

(** *** The pseudo directories, exactly *)

Lemma pseudo_dirs_for_nil (re : string → bool) (l : list FileInfo) :
  pseudo_dirs_for re [] l [].
Proof.
  split_and!; [apply NoDup_nil_2|constructor|].
  intros n. split; [by intros ?%elem_of_nil|]. by intros [?%elem_of_nil _].
Qed.

Lemma pseudo_dirs_for_app (re : string → bool) (chs1 chs2 : list string)
  (l ps1 ps2 : list FileInfo) :
  pseudo_dirs_for re chs1 l ps1 →
  pseudo_dirs_for re chs2 (l ++ ps1) ps2 →
  pseudo_dirs_for re (chs1 ++ chs2) l (ps1 ++ ps2).
Proof.
  intros (Hn1 & Hf1 & Hi1) (Hn2 & Hf2 & Hi2).
  assert (Hnames : ∀ n, n ∈ names (l ++ ps1)
                        ↔ n ∈ names l ∨ n ∈ names ps1).
  { intros n. unfold names. by rewrite fmap_app, elem_of_app. }
  split_and!.
  - unfold names. rewrite fmap_app. apply NoDup_app. split_and!; [done| |done].
    intros n Hn Hn'. apply Hi2 in Hn' as (_ & _ & Hnot).
    apply Hnot, Hnames. by right.
  - by apply Forall_app.
  - intros n. unfold names at 1. rewrite fmap_app, !elem_of_app.
    fold (names ps1). fold (names ps2). rewrite Hi1, Hi2, Hnames, Hi1.
    split.
    + intros [(? & ? & ?)|(? & ? & Hnot)]; [by eauto|].
      split_and!; [by right|done|]. intros ?. apply Hnot. by left.
    + intros ([Hc|Hc] & Hre & Hnot); [by left|].
      destruct (decide (n ∈ chs1)) as [Hc1|Hc1]; [by left|].
      right. split_and!; [done..|]. intros [?|(? & _)]; done.
Qed.

Lemma add_pseudo_dirs_grows (re : string → bool) (chs : list string)
  (fi : list FileInfo) :
  ∃ ps, add_pseudo_dirs re chs fi = fi ++ ps
        ∧ pseudo_dirs_for re chs fi ps.
Proof.
  unfold add_pseudo_dirs. revert fi.
  induction chs as [|n chs IH]; intros fi.
  - exists []. split; [by rewrite app_nil_r|apply pseudo_dirs_for_nil].
  - cbn [fold_left].
    assert (Hskip : ¬ (re n = true ∧ n ∉ names fi) →
                    pseudo_dirs_for re [n] fi []).
    { intros Hno. split_and!; [apply NoDup_nil_2|constructor|].
      intros m. split; [by intros ?%elem_of_nil|].
      intros (->%list_elem_of_singleton & ? & ?). by destruct Hno. }
    destruct (bool_decide (n ∈ names fi)) eqn:E.
    { apply bool_decide_eq_true in E.
      destruct (IH fi) as (ps & -> & Hps). exists ps. split; [done|].
      apply (pseudo_dirs_for_app re [n] chs fi [] ps);
        [|by rewrite app_nil_r].
      apply Hskip. by intros [_ ?]. }
    apply bool_decide_eq_false in E.
    destruct (re n) eqn:Hre.
    + destruct (IH (fi ++ [pseudo_dir n])) as (ps & -> & Hps).
      exists (pseudo_dir n :: ps). split; [by rewrite <- app_assoc|].
      apply (pseudo_dirs_for_app re [n] chs fi [pseudo_dir n] ps); [|done].
      split_and!; [apply NoDup_singleton|by repeat constructor|].
      intros m. simpl. rewrite !list_elem_of_singleton. split.
      * by intros ->.
      * by intros (-> & _).
    + destruct (IH fi) as (ps & -> & Hps). exists ps. split; [done|].
      apply (pseudo_dirs_for_app re [n] chs fi [] ps);
        [|by rewrite app_nil_r].
      apply Hskip. intros [? _]. congruence.
Qed.

Lemma pseudo_visits_app (vs1 vs2 : list Visit) (dir T : string) :
  pseudo_visits (vs1 ++ vs2) dir T
  = pseudo_visits vs1 dir T ++ pseudo_visits vs2 dir T.
Proof. apply List.filter_app. Qed.

Lemma pseudo_children_app (vs1 vs2 : list Visit) (dir T : string) :
  pseudo_children (vs1 ++ vs2) dir T
  = pseudo_children vs1 dir T ++ pseudo_children vs2 dir T.
Proof. unfold pseudo_children. by rewrite pseudo_visits_app, bind_app. Qed.

Lemma pseudo_children_nil (vs : list Visit) (dir T : string) :
  pseudo_visits vs dir T = [] → pseudo_children vs dir T = [].
Proof. unfold pseudo_children. by intros ->. Qed.

Lemma pseudo_visits_one (v : Visit) (dir T : string) :
  pseudo_visits [v] dir T
  = if HasPrefix (v_treePath v) dir && bool_decide (v_treePath v = T)
    then [v] else [].
Proof. done. Qed.

Lemma elem_of_pseudo_visits (vs : list Visit) (dir T : string) :
  pseudo_visits vs dir T ≠ []
  ↔ ∃ v, v ∈ vs ∧ v_treePath v = T ∧ HasPrefix T dir = true.
Proof.
  split.
  - intros Hne. destruct (pseudo_visits vs dir T) as [|v l] eqn:E; [done|].
    assert (Hv : v ∈ pseudo_visits vs dir T) by (rewrite E; by left).
    apply elem_of_filter_bool in Hv as [Hv Hp].
    apply andb_true_iff in Hp as [Hp Ht].
    apply bool_decide_eq_true in Ht. subst T. eauto.
  - intros (v & Hv & <- & Hp) E.
    assert (Hin : v ∈ pseudo_visits vs dir (v_treePath v)).
    { apply elem_of_filter_bool. split; [done|].
      by rewrite Hp, bool_decide_eq_true_2. }
    rewrite E in Hin. by apply elem_of_nil in Hin.
Qed.

Lemma grown_refl re dir s : grown re dir [] s s.
Proof.
  split_and!.
  - exists []. split; [by rewrite app_nil_r|].
    intros T. split; [by intros ?%elem_of_nil|]. by intros [_ ?].
  - done.
  - intros j T l _ ->. exists []. split; [by rewrite app_nil_r|].
    apply pseudo_dirs_for_nil.
Qed.

Lemma grown_trans re dir vs1 vs2 s1 s2 s3 :
  List.length s2.1 = List.length s2.2 →
  grown re dir vs1 s1 s2 → grown re dir vs2 s2 s3 →
  grown re dir (vs1 ++ vs2) s1 s3.
Proof.
  intros Hlen2 ((e1 & H1 & He1) & Hl1 & Hg1) ((e2 & H2 & He2) & Hl2 & Hg2).
  assert (Hnil : ∀ T, T ∉ s1.1 → T ∉ e1 → pseudo_visits vs1 dir T = []).
  { intros T Hs He.
    destruct (pseudo_visits vs1 dir T) as [|v l] eqn:E; [done|].
    exfalso. apply He, He1. split; [done|]. by rewrite E. }
  split_and!.
  - exists (e1 ++ e2). split; [by rewrite H2, H1, app_assoc|].
    intros T. rewrite elem_of_app, He1, He2, H1, pseudo_visits_app.
    rewrite not_elem_of_app. split.
    + intros [[Hs Hv]|[[Hs He] Hv]]; (split; [done|]).
      * intros [? _]%app_eq_nil. done.
      * intros [_ ?]%app_eq_nil. done.
    + intros [Hs Hv].
      destruct (decide (T ∈ e1)) as [He|He].
      * left. by apply He1.
      * right. split; [done|]. intros E. apply Hv.
        by rewrite E, (Hnil T Hs He).
  - lia.
  - intros j T l3 HT Hj. destruct (Hg2 j T l3 HT Hj) as (ps2 & -> & Hps2).
    rewrite pseudo_children_app.
    destruct (s2.2 !! j) as [l2|] eqn:Hj2; simpl in *.
    + assert (HT2 : s2.1 !! j = Some T).
      { assert (Hlt : (j < List.length s2.1)%nat)
          by (rewrite Hlen2; by eapply lookup_lt_Some).
        rewrite H2, lookup_app_l in HT by done. done. }
      destruct (Hg1 j T l2 HT2 Hj2) as (ps1 & -> & Hps1).
      exists (ps1 ++ ps2). split; [by rewrite app_assoc|].
      by apply pseudo_dirs_for_app.
    + apply lookup_ge_None in Hj2.
      rewrite (lookup_ge_None_2 s1.2 j) by lia. simpl.
      exists ps2. split; [done|].
      rewrite pseudo_children_nil; [done|].
      rewrite H2, lookup_app_r in HT by lia.
      apply list_elem_of_lookup_2, He2 in HT as [HT _].
      rewrite H1 in HT. apply not_elem_of_app in HT as [? ?].
      by apply Hnil.
Qed.

(** A visit of the second traversal keeps the state consistent, adds
    the pseudo directories of its item, and does not panic. *)
Lemma Dir_pseudo_step_grows (re : string → bool) (dir : string) (v : Visit)
  (s : list string * list (list FileInfo) * gmap string nat) :
  pseudo_state s →
  ∃ s', Dir_pseudo re dir (Some s) v = Some s'
        ∧ pseudo_state s' ∧ grown re dir [v] s.1 s'.1.
Proof.
  destruct s as [[dirs fis] dirsMap].
  intros (Hlen & Hnd & Hmap). simpl in *.
  unfold Dir_pseudo.
  assert (Hsame : ∀ j T l,
            pseudo_visits [v] dir T = [] →
            fis !! j = Some l →
            ∃ ps, l = default [] (fis !! j) ++ ps
                  ∧ pseudo_dirs_for re (pseudo_children [v] dir T)
                      (default [] (fis !! j)) ps).
  { intros j T l Hv Hl. rewrite Hl, (pseudo_children_nil _ _ _ Hv). simpl.
    exists []. split; [by rewrite app_nil_r|apply pseudo_dirs_for_nil]. }
  destruct (HasPrefix (v_treePath v) dir) eqn:Hpre; simpl.
  2:{ eexists. split; [done|]. split; [done|].
      assert (Hv : ∀ T, pseudo_visits [v] dir T = []).
      { intros T. by rewrite pseudo_visits_one, Hpre. }
      split_and!; cbn [fst snd].
      - exists []. split; [by rewrite app_nil_r|].
        intros T. split; [by intros ?%elem_of_nil|]. intros [_ Hne].
        exfalso. apply Hne, Hv.
      - done.
      - intros j T l _ Hl. by apply Hsame. }
  assert (Hv : ∀ T, pseudo_visits [v] dir T
                    = if decide (v_treePath v = T) then [v] else []).
  { intros T. rewrite pseudo_visits_one, Hpre. simpl.
    destruct (decide (v_treePath v = T)) as [H|H].
    - by rewrite bool_decide_eq_true_2.
    - by rewrite bool_decide_eq_false_2. }
  assert (Hch : pseudo_children [v] dir (v_treePath v)
                = (children (v_item v)).*1).
  { unfold pseudo_children. rewrite Hv, decide_True by done. simpl.
    by rewrite app_nil_r. }
  set (chs := (children (v_item v)).*1) in *.
  destruct (dirsMap !! v_treePath v) as [idx|] eqn:Hidx.
  - apply Hmap in Hidx.
    assert (Hlt : (idx < List.length fis)%nat)
      by (rewrite <- Hlen; by eapply lookup_lt_Some).
    destruct (lookup_lt_is_Some_2 fis idx Hlt) as [fi Hfi].
    rewrite Hfi. eexists. split; [done|].
    destruct (add_pseudo_dirs_grows re chs fi) as (ps & -> & Hps).
    split.
    + split_and!; simpl; [by rewrite length_insert|done|done].
    + split_and!; cbn [fst snd].
      * exists []. split; [by rewrite app_nil_r|].
        intros T. split; [by intros ?%elem_of_nil|]. intros [Hn Hne].
        rewrite Hv in Hne. destruct (decide (v_treePath v = T)) as [<-|];
          [|done].
        exfalso. apply Hn. by eapply list_elem_of_lookup_2.
      * by rewrite length_insert.
      * intros j T l HT Hl. destruct (decide (idx = j)) as [->|Hne].
        -- rewrite list_lookup_insert_eq in Hl by done. injection Hl as <-.
           rewrite Hfi. simpl.
           rewrite Hidx in HT. injection HT as <-. rewrite Hch. eauto.
        -- rewrite list_lookup_insert_ne in Hl by done.
           apply Hsame; [|done]. rewrite Hv, decide_False; [done|].
           intros <-. apply Hne.
           exact (NoDup_lookup _ _ _ _ Hnd Hidx HT).
  - assert (Hnin : v_treePath v ∉ dirs).
    { intros Hin. apply list_elem_of_lookup in Hin as [i Hi].
      apply Hmap in Hi. congruence. }
    replace (List.length (dirs ++ [v_treePath v]) - 1)%nat
      with (List.length fis) by (rewrite length_app; simpl; lia).
    rewrite lookup_app_r by lia. rewrite Nat.sub_diag. simpl.
    eexists. split; [done|].
    assert (Hins : <[List.length fis := add_pseudo_dirs re chs []]>
                     (fis ++ [[]])
                   = fis ++ [add_pseudo_dirs re chs []]).
    { rewrite insert_app_r_alt by lia. by rewrite Nat.sub_diag. }
    rewrite Hins.
    destruct (add_pseudo_dirs_grows re chs []) as (ps & -> & Hps).
    split.
    + split_and!; simpl.
      * rewrite !length_app. simpl. lia.
      * apply NoDup_app. split_and!; [done| |apply NoDup_singleton].
        intros T HT ->%list_elem_of_singleton. done.
      * intros T idx. rewrite lookup_insert.
        destruct (decide (v_treePath v = T)) as [<-|Hne].
        -- split.
           ++ intros [= <-]. rewrite <- Hlen.
              rewrite lookup_app_r by lia. by rewrite Nat.sub_diag.
           ++ intros [Hl|[Hl1 Hl2]]%lookup_app_Some.
              ** exfalso. apply Hnin. by eapply list_elem_of_lookup_2.
              ** f_equal.
                 destruct (idx - List.length dirs)%nat as [|k] eqn:E;
                   [lia|by destruct k].
        -- rewrite Hmap. split.
           ++ intros Hl. by apply lookup_app_l_Some.
           ++ intros [Hl|[Hl1 Hl2]]%lookup_app_Some; [done|].
              destruct (idx - List.length dirs)%nat as [|k]; [|by destruct k].
              simpl in Hl2. congruence.
    + split_and!; cbn [fst snd].
      * exists [v_treePath v]. split; [done|].
        intros T. rewrite list_elem_of_singleton, Hv. split.
        -- intros ->. by rewrite decide_True.
        -- intros [_ Hne]. by destruct (decide (v_treePath v = T)).
      * rewrite length_app. lia.
      * intros j T l HT [Hl|[Hl1 Hl2]]%lookup_app_Some.
        -- apply Hsame; [|done]. rewrite Hv, decide_False; [done|].
           intros <-. apply Hnin.
           apply lookup_lt_Some in Hl. rewrite <- Hlen in Hl.
           rewrite lookup_app_l in HT by done.
           by eapply list_elem_of_lookup_2.
        -- destruct (j - List.length fis)%nat as [|k] eqn:E; [|by destruct k].
           injection Hl2 as <-.
           rewrite (lookup_ge_None_2 fis j) by lia. simpl.
           rewrite lookup_app_r in HT by lia.
           rewrite Hlen, E in HT. injection HT as <-. rewrite Hch. eauto.
Qed.

Lemma Dir_pseudo_loop_grows (re : string → bool) (dir : string)
  (visits : list Visit)
  (s : list string * list (list FileInfo) * gmap string nat) :
  pseudo_state s →
  ∃ s', fold_left (Dir_pseudo re dir) visits (Some s) = Some s'
        ∧ pseudo_state s' ∧ grown re dir visits s.1 s'.1.
Proof.
  revert s. induction visits as [|v visits IH]; intros s Hs.
  - exists s. split; [done|]. split; [done|]. apply grown_refl.
  - cbn [fold_left].
    destruct (Dir_pseudo_step_grows re dir v s Hs) as (s1 & -> & H1 & E1).
    destruct (IH s1 H1) as (s2 & -> & H2 & E2).
    exists s2. split; [done|]. split; [done|].
    apply (grown_trans re dir [v] visits s.1 s1.1 s2.1); [apply H1|done..].
Qed.

Section Client.

Variable regexp_Compile : string → error + (string → bool).
Variable World : Type.
Variable SendData :
  World → string → gmap string string → list byte →
  World * (list byte * option error).
Variable decode_dir :
  list byte → error + (list string * list (list FileInfo)).
Variable decode_read : list byte → error + (Z * list byte).
Variable decode_int : list byte → error + Z.

Abbreviation ReadFile := (ReadFile World SendData decode_read).
Abbreviation ReadFile_branch := (ReadFile_branch World SendData decode_read).
Abbreviation ReadFile_visit := (ReadFile_visit World SendData decode_read).
Abbreviation ReadFile_spec := (ReadFile_spec World SendData decode_read).
Abbreviation read_answer := (read_answer World SendData decode_read).
Abbreviation WriteFile := (WriteFile World SendData decode_int).
Abbreviation WriteFile_branch :=
  (WriteFile_branch World SendData decode_int).
Abbreviation WriteFile_visit := (WriteFile_visit World SendData decode_int).
Abbreviation WriteFile_spec := (WriteFile_spec World SendData decode_int).
Abbreviation write_answer := (write_answer World SendData decode_int).
Abbreviation write_answers := (write_answers World SendData decode_int).
Abbreviation write_result := (write_result World).
Abbreviation write_step := (write_step World SendData decode_int).
Abbreviation dir_step := (dir_step World SendData decode_dir).
Abbreviation dir_answers := (dir_answers World SendData decode_dir).

(** *** ReadFile *)

(** Once a branch has succeeded no other branch is tried. *)
Lemma ReadFile_success_stable file offset
  (calls : list (list string * string)) st :
  r_success World st = true →
  fold_left (λ st c, ReadFile_branch file offset c.1 st c.2) calls st = st.
Proof.
  intros Hs. induction calls as [|c calls IH]; [done|].
  simpl. unfold Tree.ReadFile_branch at 2. rewrite Hs. exact IH.
Qed.

Lemma ReadFile_loop file offset p (calls : list (list string * string))
  w last :
  let st :=
    fold_left (λ st c, ReadFile_branch file offset c.1 st c.2) calls
      {| r_world := w; r_n := 0; r_p := p; r_err := last;
         r_success := false |} in
  (r_world World st, (r_n World st, r_p World st, r_err World st))
  = ReadFile_spec
      ((λ c, (c.2, Join [Join c.1; file])) <$> calls) w p offset last.
Proof.
  revert w last. induction calls as [|[bp b] calls IH]; intros w last st.
  - done.
  - subst st. cbn [fold_left fmap list_fmap Props.ReadFile_spec fst snd].
    set (st1 := ReadFile_branch file offset bp _ b).
    assert (Hst1 : st1 =
      match read_answer w b (Join [Join bp; file]) offset
              (List.length p) with
      | (w', inr (n, buf)) =>
          {| r_world := w'; r_n := n; r_p := copy p buf; r_err := None;
             r_success := true |}
      | (w', inl e) =>
          {| r_world := w'; r_n := 0; r_p := p; r_err := Some e;
             r_success := IsEOF (Some e) |}
      end).
    { subst st1. unfold Tree.ReadFile_branch, Props.read_answer.
      cbn [r_success r_world r_p r_n].
      destruct (SendData w b _ []) as [w' [res [e|]]]; [done|].
      by destruct (decode_read res) as [e|[n buf]]. }
    clearbody st1. subst st1.
    destruct (read_answer w b _ offset _) as [w' [e|[n buf]]].
    + destruct (IsEOF (Some e)) eqn:Ee.
      * by rewrite ReadFile_success_stable.
      * apply IH.
    + by rewrite ReadFile_success_stable.
Qed.

(** C6: [ReadFile] tries the branches of the mapping tree for the
    directory of the path in overlay order; the first branch whose read
    succeeds or answers EOF ends the walk; on success the bytes returned
    are copied into the buffer of the caller and the count is returned; an
    error of an earlier branch, a not exists error included, is skipped in
    favour of the later branches; and when no branch succeeds the last
    observed error is returned, which is the not exists error when no
    branch was tried. *)
Theorem ReadFile_overlay (root : treeItem) (w : World) (spath : string)
  (p : list byte) (offset : Z) :
  ReadFile root w spath p offset
  = ReadFile_spec (read_calls root spath) w p offset
      (Some ErrRemoteNotExist).
Proof.
  unfold Tree.ReadFile, read_calls.
  destruct (Split spath) as [dir file].
  set (visits := findPathBranches root dir (createMappingPath dir) false).
  transitivity
    (ReadFile_spec
       ((λ c : list string * string, (c.2, Join [Join c.1; file]))
          <$> (visits ≫= λ v, (λ b, (v_branchPath v, b)) <$> v_branches v))
       w p offset (Some ErrRemoteNotExist)).
  - rewrite <- ReadFile_loop. rewrite fold_left_bind.
    unfold Tree.ReadFile_visit.
    f_equal; [|f_equal; [f_equal|]]; f_equal;
      apply fold_left_ext; intros a v; by rewrite fold_left_fmap.
  - f_equal. clear. induction visits as [|v visits IH]; [done|].
    cbn [mbind list_bind]. rewrite fmap_app, IH. f_equal.
    by rewrite <- list_fmap_compose.
Qed.

(** *** WriteFile *)

Lemma write_step_stable file p offset ts st :
  match st with Some st => w_err World st ≠ None | None => True end →
  fold_left (write_step file p offset) ts st = st.
Proof.
  intros Hs. induction ts as [|t ts IH]; [done|]. simpl.
  replace (write_step file p offset st t) with st; [done|].
  unfold write_step, Tree.WriteFile_branch.
  destruct st as [st|]; [|done]. by destruct (w_err World st).
Qed.

Lemma WriteFile_loop file p offset
  (ts : list (list string * list bool * nat * string)) w n total ignore :
  ignore ≤ total →
  write_result
    (fold_left (write_step file p offset) ts
       (Some {| w_world := w; w_n := n; w_err := None;
                w_totalCount := total; w_ignoreCount := ignore |}))
  = WriteFile_spec
      ((λ t : list string * list bool * nat * string,
          (t.2, Join [Join t.1.1.1; file], t.1.1.2 !! t.1.2)) <$> ts)
      w p offset n (bool_decide (total ≠ ignore)).
Proof.
  revert w n total ignore.
  induction ts as [|[[[bp ws] i] b] ts IH]; intros w n total ignore Hle.
  - simpl. destruct (decide (total = ignore)) as [->|Hne].
    + rewrite bool_decide_eq_true_2 by done.
      by rewrite bool_decide_eq_false_2 by naive_solver.
    + rewrite (bool_decide_eq_false_2 (total = ignore)) by done.
      by rewrite bool_decide_eq_true_2 by done.
  - cbn [fold_left fmap list_fmap Props.WriteFile_spec fst snd].
    set (st1 := write_step file p offset _ _).
    assert (Hst1 : st1 =
      match ws !! i with
      | None => None
      | Some false =>
          Some {| w_world := w; w_n := n; w_err := None;
                  w_totalCount := total + 1; w_ignoreCount := ignore + 1 |}
      | Some true =>
          match write_answer w b (Join [Join bp; file]) p offset with
          | (w', inr n') =>
              Some {| w_world := w'; w_n := n'; w_err := None;
                      w_totalCount := total + 1; w_ignoreCount := ignore |}
          | (w', inl e) =>
              Some {| w_world := w'; w_n := n; w_err := Some e;
                      w_totalCount := total + 1; w_ignoreCount := ignore |}
          end
      end).
    { subst st1. unfold write_step, Tree.WriteFile_branch.
      unfold Props.write_answer.
      cbn [w_err w_world w_n w_totalCount w_ignoreCount fst snd].
      destruct (ws !! i) as [[|]|]; [|done..].
      destruct (SendData w b _ p) as [w' [res [e|]]]; [done|].
      by destruct (decode_int res). }
    clearbody st1. subst st1.
    destruct (ws !! i) as [[|]|].
    + destruct (write_answer w b _ p offset) as [w' [e|n']].
      * by rewrite write_step_stable.
      * rewrite IH by lia. f_equal.
        apply bool_decide_eq_true_2. lia.
    + rewrite IH by lia. f_equal. apply bool_decide_ext. lia.
    + by rewrite write_step_stable.
Qed.

(** The targets of a write, with the index of each branch in its item. *)
Lemma write_targets_indexed (root : treeItem) (spath : string) :
  write_targets root spath =
  let '(dir, file) := Split spath in
  (λ t : list string * list bool * nat * string,
     (t.2, Join [Join t.1.1.1; file], t.1.1.2 !! t.1.2))
  <$> (findPathBranches root dir (createMappingPath dir) false
       ≫= λ v, imap (λ i b, (v_branchPath v, v_writable v, i, b))
                 (v_branches v)).
Proof.
  unfold write_targets. destruct (Split spath) as [dir file].
  induction (findPathBranches root dir (createMappingPath dir) false)
    as [|v visits IH]; [done|].
  cbn [mbind list_bind]. rewrite fmap_app, IH. f_equal.
  rewrite fmap_imap. done.
Qed.

(** C7 (as amended): [WriteFile] dispatches writes to the branches whose
    mapping is writable only, in mapping-tree order, until a write fails;
    when no write was dispatched, which is when as many branches apply as
    are not writable, it fails with the not writable error and the count
    0; when a dispatched write fails, no further write is dispatched and
    its error is returned, with the count of the last write which
    succeeded; otherwise it returns the byte count of the last dispatched
    write.  (An item without a flag for one of its branches makes the
    call panic.) *)
Theorem WriteFile_dispatch (root : treeItem) (w : World) (spath : string)
  (p : list byte) (offset : Z) :
  WriteFile root w spath p offset
  = WriteFile_spec (write_targets root spath) w p offset 0 false.
Proof.
  rewrite write_targets_indexed. unfold Tree.WriteFile.
  destruct (Split spath) as [dir file].
  set (visits := findPathBranches root dir (createMappingPath dir) false).
  change false with (bool_decide (0 ≠ 0)).
  rewrite <- WriteFile_loop by lia.
  rewrite fold_left_bind. unfold write_result.
  rewrite (fold_left_ext (WriteFile_visit file p offset)
             (λ a v,
                fold_left (write_step file p offset)
                  (imap (λ i b, (v_branchPath v, v_writable v, i, b))
                     (v_branches v)) a)); [done|].
  intros st v. unfold Tree.WriteFile_visit.
  replace (imap (λ i b, (v_branchPath v, v_writable v, i, b)) (v_branches v))
    with ((λ ib : nat * string, (v_branchPath v, v_writable v, ib.1, ib.2))
            <$> imap (λ i b, (i, b)) (v_branches v))
    by (by rewrite fmap_imap).
  rewrite fold_left_fmap. apply fold_left_ext. by intros a [i b].
Qed.

(** *** Dir *)

Abbreviation dir_end := (dir_end World SendData decode_dir).
Abbreviation listing_missing :=
  (listing_missing World SendData decode_dir).
Abbreviation Dir := (Dir regexp_Compile World SendData decode_dir).

(** The loop over the directories a branch returned merges them one by
    one, and does not panic when each has a listing. *)
Lemma merge_branch_fold (treePath : string) (bdirs : list string)
  (bfis : list (list FileInfo)) (i : nat) (dirs : list string)
  (fis : list (list FileInfo)) :
  (List.length bdirs ≤ List.length (drop i bfis))%nat →
  merge_branch treePath i bdirs bfis dirs fis
  = Some (fold_left merge_one
            (zip ((λ d, Join [treePath; d]) <$> bdirs) (drop i bfis))
            (dirs, fis)).
Proof.
  revert i dirs fis.
  induction bdirs as [|d bdirs IH]; intros i dirs fis Hlen; [done|].
  simpl in Hlen.
  destruct (bfis !! i) as [bfi|] eqn:Hi.
  - rewrite (drop_S _ _ _ Hi) in *. simpl in Hlen.
    cbn [merge_branch fmap list_fmap zip zip_with fold_left].
    rewrite Hi. unfold merge_one at 2. cbn [fst snd].
    destruct (merge_found 0 dirs (Join [treePath; d]) bfi fis false)
      as [fis1 found].
    destruct found; apply IH; lia.
  - apply lookup_ge_None in Hi. rewrite drop_ge in Hlen by done.
    simpl in Hlen. lia.
Qed.

(** The loop over the directories a branch returned panics when a
    listing is missing, and only then. *)
Lemma merge_branch_None (treePath : string) (bdirs : list string)
  (bfis : list (list FileInfo)) (i : nat) (dirs : list string)
  (fis : list (list FileInfo)) :
  (List.length bfis - i < List.length bdirs)%nat →
  merge_branch treePath i bdirs bfis dirs fis = None.
Proof.
  revert i dirs fis.
  induction bdirs as [|d bdirs IH]; intros i dirs fis Hlt; simpl in Hlt;
    [lia|].
  cbn [merge_branch].
  destruct (bfis !! i) as [bfi|] eqn:Hi; [|done].
  apply lookup_lt_Some in Hi.
  destruct (merge_found 0 dirs (Join [treePath; d]) bfi fis false)
    as [fis1 found].
  destruct found; apply IH; lia.
Qed.

Lemma merge_branch_cases (treePath : string) (bdirs : list string)
  (bfis : list (list FileInfo)) (dirs : list string)
  (fis : list (list FileInfo)) :
  match merge_branch treePath 0 bdirs bfis dirs fis with
  | None => (List.length bfis < List.length bdirs)%nat
  | Some r =>
      r = fold_left merge_one
            (zip ((λ d, Join [treePath; d]) <$> bdirs) bfis) (dirs, fis)
  end.
Proof.
  destruct (decide (List.length bdirs ≤ List.length bfis)%nat) as [Hle|Hgt].
  - rewrite merge_branch_fold by (by rewrite drop_0). by rewrite drop_0.
  - rewrite merge_branch_None by lia. lia.
Qed.

Lemma dir_step_stable pattern recursive checksums
  (calls : list (string * list string * string)) st :
  match st with
  | Some st => d_err World st ≠ None
  | None => True
  end →
  fold_left (dir_step pattern recursive checksums) calls st = st.
Proof.
  intros Hs. induction calls as [|c calls IH]; [done|]. simpl.
  replace (dir_step pattern recursive checksums st c) with st; [done|].
  unfold Props.dir_step, Tree.Dir_branch.
  destruct st as [st|]; [|done]. by destruct (d_err World st).
Qed.

Lemma dir_step_panic pattern recursive checksums
  (calls : list (string * list string * string)) :
  fold_left (dir_step pattern recursive checksums) calls None = None.
Proof. induction calls as [|c calls IH]; [done|]. apply IH. Qed.

(** The first traversal merges the answers of the branches up to the
    first error, and panics only when a branch answers with fewer
    listings than directories. *)
Lemma Dir_loop_cases pattern recursive checksums
  (calls : list (string * list string * string)) w dirs fis :
  match
    fold_left (dir_step pattern recursive checksums) calls
      (Some {| d_world := w; d_dirs := dirs; d_fis := fis;
               d_err := None |})
  with
  | None => listing_missing
  | Some st =>
      (d_dirs World st, d_fis World st)
      = fold_left merge_one
          (dir_answers calls w pattern recursive checksums) (dirs, fis)
      ∧ (d_world World st, d_err World st)
        = dir_end calls w pattern recursive checksums
  end.
Proof.
  revert w dirs fis.
  induction calls as [|[[treePath branchPath] b] calls IH];
    intros w dirs fis; [done|].
  cbn [fold_left Props.dir_answers Props.dir_end].
  set (st1 := dir_step pattern recursive checksums _ _).
  unfold Props.dir_step, Tree.Dir_branch in st1.
  cbn [d_err d_world d_dirs d_fis fst snd] in st1. subst st1.
  destruct (SendData w b _ []) as [w' [res [e|]]] eqn:Hsend.
  { by rewrite dir_step_stable. }
  destruct (decode_dir res) as [e|[bdirs bfis]] eqn:Hdec.
  { by rewrite dir_step_stable. }
  pose proof (merge_branch_cases treePath bdirs bfis dirs fis) as Hm.
  destruct (merge_branch treePath 0 bdirs bfis dirs fis)
    as [[dirs1 fis1]|].
  - specialize (IH w' dirs1 fis1).
    destruct (fold_left _ calls _) as [st|]; [|done].
    by rewrite fold_left_app, <- Hm.
  - rewrite dir_step_panic. do 7 eexists. eauto.
Qed.

(** [Dir], once the pattern is compiled: it panics only when a listing
    is missing, and otherwise returns the merged contributions, grown by
    the pseudo directories. *)
Lemma Dir_cases (root : treeItem) (w : World) (dir pattern : string)
  (recursive checksums : bool) (re : string → bool) :
  regexp_Compile pattern = inr re →
  match Dir root w dir pattern recursive checksums with
  | (_, Panic) => listing_missing
  | (w', Return (dirs, fis, err)) =>
      (w', err)
      = dir_end (dir_calls root dir recursive) w pattern recursive
          checksums
      ∧ List.length dirs = List.length fis
      ∧ NoDup dirs
      ∧ ∃ st,
          merged_exactly
            (dir_answers (dir_calls root dir recursive) w pattern
               recursive checksums) st
          ∧ grown re (strip_slash dir) (dir_visits root dir recursive) st
              (dirs, fis)
  end.
Proof.
  intros Hre. unfold Tree.Dir. rewrite Hre. unfold dir_calls.
  fold (dir_visits root dir recursive).
  set (visits := dir_visits root dir recursive).
  set (calls := visits ≫= λ v, (λ b, (v_treePath v, v_branchPath v, b))
                                 <$> v_branches v).
  pose proof (Dir_loop_cases pattern recursive checksums calls w [] [])
    as Hloop.
  assert (Hvis :
    fold_left (Dir_visit World SendData decode_dir pattern recursive
                 checksums) visits
      (Some {| d_world := w; d_dirs := []; d_fis := []; d_err := None |})
    = fold_left (dir_step pattern recursive checksums) calls
        (Some {| d_world := w; d_dirs := []; d_fis := [];
                 d_err := None |})).
  { subst calls. rewrite fold_left_bind.
    apply fold_left_ext. intros a v. unfold Tree.Dir_visit.
    by rewrite fold_left_fmap. }
  rewrite Hvis.
  destruct (fold_left (dir_step pattern recursive checksums) calls _)
    as [st|]; [|done].
  destruct Hloop as [Hres Hend].
  set (answers := dir_answers calls w pattern recursive checksums) in *.
  assert (Hm : merged_exactly answers (d_dirs World st, d_fis World st)).
  { rewrite Hres. apply (merged_exactly_fold answers [] ([], [])).
    apply merged_exactly_nil. }
  destruct (Dir_pseudo_loop_grows re (strip_slash dir) visits
              (d_dirs World st, d_fis World st,
               make_dirsMap (d_dirs World st)))
    as ([[dirs fis] dirsMap] & -> & (Hlen' & Hnd' & _) & Hg).
  { destruct Hm as (Hlen & Hnd & _).
    split_and!; simpl; [done|done|by apply make_dirsMap_spec]. }
  split_and!; [done|done|done|]. eauto.
Qed.

(** C5: what [Dir] returns follows the overlay policy.  With a pattern
    which does not compile [Dir] returns the error and nothing else.
    Otherwise [Dir] returns, unless a branch answers with fewer listings
    than directories (the visitor then panics at [bfis[i]]), and then:
    it returns the error which ended the calls, a listing for each
    directory and no directory twice; the directories are the tree paths
    for which a branch contributed a listing and the visited tree paths
    which start with the directory asked for; and the listing of a tree
    path is the
    overlay of the listings contributed for it, in visit order, followed
    by the pseudo directories of the mapping components it did not hold.
    So the entries the listing holds for a file name are those of the
    first contribution which has the name: the entries of the later
    contributions of this name are left out, and the listing holds no
    name twice when none of the contributions does, as the listing of a
    directory read. *)
Theorem Dir_overlay (root : treeItem) (w : World) (dir pattern : string)
  (recursive checksums : bool) :
  let calls := dir_calls root dir recursive in
  let visits := dir_visits root dir recursive in
  let answers := dir_answers calls w pattern recursive checksums in
  match regexp_Compile pattern with
  | inl e =>
      Dir root w dir pattern recursive checksums
      = (w, Return ([], [], Some e))
  | inr re =>
      match Dir root w dir pattern recursive checksums with
      | (_, Panic) => listing_missing
      | (w', Return (dirs, fis, err)) =>
          (w', err) = dir_end calls w pattern recursive checksums
          ∧ List.length dirs = List.length fis
          ∧ NoDup dirs
          ∧ (∀ T, T ∈ dirs
                  ↔ (∃ bfi, (T, bfi) ∈ answers)
                    ∨ ∃ v, v ∈ visits ∧ v_treePath v = T
                           ∧ HasPrefix T (strip_slash dir) = true)
          ∧ ∀ j T l,
              dirs !! j = Some T → fis !! j = Some l →
              let cs := contributions answers T in
              (∃ ps, l = first_wins cs ++ ps
                     ∧ pseudo_dirs_for re
                         (pseudo_children visits (strip_slash dir) T)
                         (first_wins cs) ps)
              ∧ (Forall (λ bfi, NoDup (names bfi)) cs → NoDup (names l))
              ∧ ∀ k bfi x,
                  cs !! k = Some bfi →
                  FiName x ∈ names bfi →
                  (∀ k' bfi', (k' < k)%nat → cs !! k' = Some bfi' →
                              FiName x ∉ names bfi') →
                  (x ∈ l ↔ x ∈ bfi)
      end
  end.
Proof.
  intros calls visits answers.
  destruct (regexp_Compile pattern) as [e|re] eqn:Hre.
  { unfold Tree.Dir. by rewrite Hre. }
  pose proof (Dir_cases root w dir pattern recursive checksums re Hre)
    as Hc.
  destruct (Dir root w dir pattern recursive checksums)
    as [w' [[[dirs fis] err]|]]; [|done].
  destruct Hc as (Hend & Hlen' & Hnd' & [dirs0 fis0]
                  & (Hlen & Hnd & Hlog & Hov)
                  & (extra & Hdirs & Hextra) & Hle & Hg).
  fold calls answers in Hlog, Hov. fold visits in Hextra, Hg.
  cbn [fst snd] in *.
  split_and!; [done|done|done| |].
  { intros T. rewrite Hdirs, elem_of_app, Hextra, Hlog.
    rewrite elem_of_pseudo_visits. split.
    - intros [?|[_ ?]]; [by left|by right].
    - intros [?|Hv]; [by left|].
      destruct (decide (T ∈ dirs0)) as [Hin|Hnin].
      + left. by apply Hlog.
      + right. split; [|done]. intros Hin. by apply Hnin, Hlog. }
  intros j T l HT Hl. set (cs := contributions answers T).
  assert (Hex : ∃ ps, l = first_wins cs ++ ps
                      ∧ pseudo_dirs_for re
                          (pseudo_children visits (strip_slash dir) T)
                          (first_wins cs) ps).
  { destruct (Hg j T l HT Hl) as (ps & -> & Hps).
    destruct (fis0 !! j) as [l0|] eqn:Hl0; cbn [default] in *.
    - assert (HT0 : dirs0 !! j = Some T).
      { assert (Hlt : (j < List.length dirs0)%nat)
          by (rewrite Hlen; by eapply lookup_lt_Some).
        rewrite Hdirs, lookup_app_l in HT by done. done. }
      rewrite (Hov j T l0 HT0 Hl0) in *. eauto.
    - assert (Hcs : cs = []).
      { apply contributions_nil. intros bfi Hin.
        assert (Hin' : T ∈ dirs0) by (apply Hlog; eauto).
        apply list_elem_of_lookup in Hin' as [j0 Hj0].
        assert (Hj0' : dirs !! j0 = Some T)
          by (rewrite Hdirs; by apply lookup_app_l_Some).
        assert (j0 = j) as -> by exact (NoDup_lookup _ _ _ _ Hnd' Hj0' HT).
        apply lookup_lt_Some in Hj0. apply lookup_ge_None in Hl0. lia. }
      rewrite Hcs. eauto. }
  split; [done|]. destruct Hex as (ps & -> & Hps). split.
  - by eapply NoDup_first_wins_pseudo.
  - intros k bfi x. by eapply first_wins_entries.
Qed.

End Client.

(** C7 (as stated) fails when a dispatched write fails: the writable
    branches b1 and b2 are mounted at the root, the write to b1 returns
    the count 5 and the write to b2 fails; the call returns the count 5,
    which is not the count of the last dispatched write, with the error
    of b2. *)
Lemma last_count_fails_on_failed_write :
  WriteFile unit SendData0 decode_int0 tree0 tt "/x" (bytes "hi") 0
  = Return (tt, (5, Some (RufsError ErrRemoteAction "no space left" false)))
  ∧ ¬ write_returns_last_count unit SendData0 decode_int0 tree0 tt "/x"
        (bytes "hi") 0.
Proof.
  split; [by vm_compute|].
  unfold write_returns_last_count.
  replace (WriteFile unit SendData0 decode_int0 tree0 tt "/x" (bytes "hi") 0)
    with (Return (tt, (5, Some (RufsError ErrRemoteAction "no space left"
                                  false))))
    by by vm_compute.
  replace (write_targets tree0 "/x")
    with [("b1", "x", Some true); ("b2", "x", Some true)] by by vm_compute.
  simpl. intros (k & Hk & _). vm_compute in Hk. discriminate Hk.
Qed.

Lemma decode_dir1_well_formed : answers_well_formed decode_dir1.
Proof.
  intros res bdirs bfis. unfold decode_dir1.
  case_decide; intros [= <- <-]; (split; [simpl; lia|]);
    apply (bool_decide_unpack _); by vm_compute.
Qed.

(** The overlay of the branches foo and bar: the listing of the root has
    test1 of foo and test2. *)
Lemma Dir_overlay_example :
  Dir re0 unit SendData1 decode_dir1 tree1 tt "/" "" false false
  = (tt, Return (["/"],
                 [[file_info "test1" 10; file_info "test2" 10]], None)).
Proof. by vm_compute. Qed.

(** The overlay at work: foo and bar both list test1 for the root; the
    listing holds test1 of foo, the first branch, and not test1 of bar. *)
Lemma Dir_overlay_witness :
  ∃ l,
    Dir re0 unit SendData1 decode_dir1 tree1 tt "/" "" false false
    = (tt, Return (["/"], [l], None))
    ∧ contributions
        (dir_answers unit SendData1 decode_dir1 (dir_calls tree1 "/" false)
           tt "" false false) "/"
      = [[file_info "test1" 10; file_info "test2" 10];
         [file_info "test1" 11]]
    ∧ NoDup (names l)
    ∧ file_info "test1" 10 ∈ l
    ∧ file_info "test1" 11 ∉ l.
Proof.
  pose proof (Dir_overlay re0 unit SendData1 decode_dir1 tree1 tt "/" ""
                false false) as H.
  assert (Hd : Dir re0 unit SendData1 decode_dir1 tree1 tt "/" "" false
                 false
               = (tt, Return (["/"],
                              [[file_info "test1" 10; file_info "test2" 10]],
                              None)))
    by (by vm_compute).
  assert (Hc : contributions
                 (dir_answers unit SendData1 decode_dir1
                    (dir_calls tree1 "/" false) tt "" false false) "/"
               = [[file_info "test1" 10; file_info "test2" 10];
                  [file_info "test1" 11]])
    by (by vm_compute).
  cbv zeta in H. rewrite Hd in H. cbv beta iota delta [re0] in H.
  destruct H as (_ & _ & _ & _ & H).
  destruct (H 0%nat "/" _ eq_refl eq_refl) as (_ & Hnd & Hfirst).
  rewrite Hc in Hnd, Hfirst.
  eexists. split_and!; [exact Hd|exact Hc| | |].
  - apply Hnd. apply (bool_decide_unpack _). by vm_compute.
  - apply (Hfirst 0%nat _ (file_info "test1" 10) eq_refl).
    + apply (bool_decide_unpack _). by vm_compute.
    + intros k' bfi' Hlt. lia.
    + apply list_elem_of_here.
  - intros Hin.
    apply (Hfirst 0%nat _ (file_info "test1" 11) eq_refl) in Hin.
    + apply elem_of_cons in Hin as [Hin|Hin]; [discriminate Hin|].
      apply elem_of_cons in Hin as [Hin|Hin]; [discriminate Hin|].
      by apply elem_of_nil in Hin.
    + apply (bool_decide_unpack _). by vm_compute.
    + intros k' bfi' Hlt. lia.
Defined.

(** The first branch which succeeds is read: b1 answers, b2 is not
    asked. *)
Lemma ReadFile_example :
  Tree.ReadFile unit SendData0 decode_read0 tree0 tt "/x" (Host.make 8) 0
  = (tt, (5, bytes "12345" ++ Host.make 3, None)).
Proof. by vm_compute. Qed.

End TreeFacts.
(* ====================================================================== *)
(** ** More facts about package node                                       *)
(* ====================================================================== *)

Module NodeMoreFacts.
Import Node NodePeers MoreProps Examples MoreExamples.
Local Open Scope list_scope.

Section Server.

Variable sha512_224_hex : string → string.

(** X1: [Data] answers with bytes exactly when the target node is local,
    the token carries the digest of the caller's name and the node's
    secret, the node has a handler and the handler succeeds; the bytes are
    those of the handler.  In every other case the response is nil. *)
Theorem Data_answers_verified_callers (s : RufsServer) (request : Request)
  (b : list byte) :
  (Data sha512_224_hex s request = (RespBytes b, None)
   ↔ ∃ node handler,
       nodes s !! RequestTARGET request = Some node
       ∧ NodeAuth (RequestTOKEN request)
         = sha512_224_hex
             (NodeName (RequestTOKEN request) +:+ secret node)
       ∧ DataHandler node = Some handler
       ∧ handler (RequestCTRL request) (RequestDATA request) = (b, None))
  ∧ ((Data sha512_224_hex s request).1 = RespNil
     ∨ ∃ b', Data sha512_224_hex s request = (RespBytes b', None)).
Proof.
  unfold Data, checkToken.
  destruct (nodes s !! RequestTARGET request) as [node|] eqn:Hn.
  - case_decide as Ha.
    + destruct (DataHandler node) as [handler|] eqn:Hh.
      * destruct (handler _ _) as [res [e|]] eqn:Hr.
        -- split; [|by left]. split; [done|].
           intros (n & h' & [= <-] & _ & Hh' & Hr').
           rewrite Hh in Hh'. injection Hh' as <-.
           rewrite Hr in Hr'. done.
        -- split; [|right; by exists res]. split.
           ++ intros [= <-]. by exists node, handler.
           ++ intros (n & h' & [= <-] & _ & Hh' & Hr').
              rewrite Hh in Hh'. injection Hh' as <-.
              rewrite Hr in Hr'. by injection Hr' as <-.
      * split; [|by left]. split; [done|].
        intros (n & h' & [= <-] & _ & Hh' & _). by rewrite Hh in Hh'.
    + split; [|by left]. split; [done|].
      intros (n & h' & [= <-] & Ha' & _). done.
  - split; [|by left]. split; [done|]. by intros (n & h' & [=] & _).
Qed.

End Server.

(** *** The order on strings *)

Lemma ascii_compare_N (a b : ascii) :
  Ascii.compare a b = N.compare (N_of_ascii a) (N_of_ascii b).
Proof. reflexivity. Qed.

Lemma string_compare_Lt_trans (a b c : string) :
  String.compare a b = Lt → String.compare b c = Lt →
  String.compare a c = Lt.
Proof.
  revert b c. induction a as [|x a IH]; intros [|y b] [|z c]; simpl;
    try done.
  rewrite !ascii_compare_N.
  destruct (N.compare_spec (N_of_ascii x) (N_of_ascii y)) as [Hxy|Hxy|Hxy];
    try done;
    destruct (N.compare_spec (N_of_ascii y) (N_of_ascii z)) as [Hyz|Hyz|Hyz];
    try done; intros H1 H2.
  - rewrite Hxy, Hyz, N.compare_refl. eauto.
  - by rewrite Hxy, (proj2 (N.compare_lt_iff _ _) Hyz).
  - by rewrite <- Hyz, (proj2 (N.compare_lt_iff _ _) Hxy).
  - rewrite (proj2 (N.compare_lt_iff _ _)); [done|].
    by etrans.
Qed.

#[local] Instance le_total : Total le.
Proof. intros a b. apply String.leb_total. Qed.

#[local] Instance le_antisym : AntiSymm eq le.
Proof. intros a b. apply String.leb_antisym. Qed.

#[local] Instance le_trans : Transitive le.
Proof.
  intros a b c. unfold le, String.leb.
  destruct (String.compare a b) eqn:Hab; [|  |done];
    destruct (String.compare b c) eqn:Hbc; try done; intros _ _.
  - apply String.compare_eq_iff in Hab as ->. by rewrite Hbc.
  - apply String.compare_eq_iff in Hab as ->. by rewrite Hbc.
  - apply String.compare_eq_iff in Hbc as <-. by rewrite Hab.
  - by rewrite (string_compare_Lt_trans a b c).
Qed.

Lemma Peers_elem_of (c : Client) (node : string) :
  node ∈ (Peers c).1 ↔ is_Some (peers c !! node).
Proof.
  unfold Peers, sort_Strings. cbn [fst].
  rewrite (merge_sort_Permutation le ((map_to_list (peers c)).*1)).
  rewrite list_elem_of_fmap. split.
  - intros ([k v] & -> & Hin). apply elem_of_map_to_list in Hin.
    by exists v.
  - intros [v Hv]. exists (node, v). split; [done|].
    by apply elem_of_map_to_list.
Qed.

Lemma Peers_NoDup (c : Client) : NoDup (Peers c).1.
Proof.
  unfold Peers, sort_Strings. cbn [fst].
  rewrite (merge_sort_Permutation le ((map_to_list (peers c)).*1)).
  apply NoDup_fst_map_to_list.
Qed.

(** X2: [Peers] lists exactly the registered peers, each once and in the
    order of their names, and next to each the fingerprint expected of it
    (the empty string where there is none). *)
Theorem Peers_lists_the_registry (c : Client) :
  (∀ node, node ∈ (Peers c).1 ↔ is_Some (peers c !! node))
  ∧ NoDup (Peers c).1
  ∧ StronglySorted le (Peers c).1
  ∧ List.length (Peers c).2 = List.length (Peers c).1
  ∧ ∀ i node,
      (Peers c).1 !! i = Some node →
      (Peers c).2 !! i = Some (default "" (fingerprints c !! node)).
Proof.
  split_and!.
  - apply Peers_elem_of.
  - apply Peers_NoDup.
  - apply StronglySorted_merge_sort; apply _.
  - unfold Peers. cbn [fst snd]. by rewrite length_fmap.
  - intros i node Hi. unfold Peers in *. cbn [fst snd] in *.
    by rewrite list_lookup_fmap, Hi.
Qed.

Section Client.

Variable sha256_hex : list byte → string.
Variable World : Type.
Variable dial : World → string → World * DialResult.
Variable call :
  World → Conn → RPCFunction → string → RufsNodeToken →
  option RequestArgs → World * (Response * option error).

Abbreviation SendRequest_call := (SendRequest_call World call).
Abbreviation SendRequest_attempt :=
  (SendRequest_attempt sha256_hex World dial call).
Abbreviation SendRequest := (SendRequest sha256_hex World dial call).
Abbreviation SendPing := (SendPing sha256_hex World dial call).
Abbreviation SendData := (SendData sha256_hex World dial call).
Abbreviation attempt_frame := (attempt_frame World).

(** *** Fingerprints *)









(** *** The errors of a request *)

Lemma prefix_empty (s : string) : String.prefix "" s = true.
Proof. by destruct s. Qed.

Lemma Error_RufsError_prefix t d b :
  HasPrefix (Error (RufsError t d b)) "RufsError: " = true.
Proof.
  unfold HasPrefix. simpl. case_decide; simpl; apply prefix_empty.
Qed.

Lemma handleError_prefix (err : option error) (e : error) :
  handleError err = Some e → HasPrefix (Error e) "RufsError: " = true.
Proof.
  destruct err as [e0|]; [|done].
  assert (Hgen :
    (if negb (HasPrefix (Error e0) "RufsError: ")
     then Some (RufsError ErrRemoteAction (Error e0)
                  (bool_decide (Error e0 = Error ErrNotExist)))
     else Some e0) = Some e →
    HasPrefix (Error e) "RufsError: " = true).
  { destruct (HasPrefix (Error e0) "RufsError: ") eqn:Hp; simpl;
      intros [= <-]; [done|apply Error_RufsError_prefix]. }
  destruct e0; simpl; try exact Hgen.
  intros [= <-]. apply Error_RufsError_prefix.
Qed.

Lemma node_error_handleError (resp : Response) (err : option error) :
  node_error (Return (resp, handleError err)).
Proof.
  unfold node_error. destruct (handleError err) as [e|] eqn:He; [|done].
  by apply handleError_prefix in He.
Qed.

Lemma SendRequest_call_error c w conn node remoteCall args :
  match SendRequest_call c w conn node remoteCall args with
  | Done _ _ r => node_error r
  | Again _ _ => True
  end.
Proof.
  unfold Node.SendRequest_call.
  destruct (call w conn remoteCall node (token c) args) as [w' [resp err]].
  destruct (negb (redial c) && is_closed err)%bool; [done|].
  apply node_error_handleError.
Qed.

Lemma SendRequest_attempt_error c w node remoteCall args :
  match SendRequest_attempt c w node remoteCall args with
  | Done _ _ r => node_error r
  | Again _ _ => True
  end.
Proof.
  unfold Node.SendRequest_attempt.
  destruct (peers c !! node) as [laddr|];
    [|exact (Error_RufsError_prefix _ _ _)].
  destruct (conns c !! node) as [conn|]; [apply SendRequest_call_error|].
  destruct (dial w laddr) as [w1 [e|cert]].
  { apply node_error_handleError. }
  destruct (has_cert c); [|apply SendRequest_call_error].
  destruct cert as [raw|]; [|done].
  repeat case_decide; try apply SendRequest_call_error.
  exact (Error_RufsError_prefix _ _ _).
Qed.

(** X4: every error [SendRequest] returns is a node error: its text
    starts with [RufsError: ], whatever the network and the remote node
    gave. *)
Theorem SendRequest_returns_node_errors (c : Client) (w : World)
  (node : string) (remoteCall : RPCFunction) (args : option RequestArgs) :
  match (SendRequest c w node remoteCall args).2 with
  | Return (_, Some e) => HasPrefix (Error e) "RufsError: " = true
  | _ => True
  end.
Proof.
  rewrite NodeFacts.SendRequest_unfold.
  pose proof (SendRequest_attempt_error c w node remoteCall args) as H1.
  destruct (SendRequest_attempt c w node remoteCall args)
    as [c1 w1 r1|c1 w1]; [exact H1|].
  pose proof (SendRequest_attempt_error c1 w1 node remoteCall args) as H2.
  destruct (SendRequest_attempt c1 w1 node remoteCall args)
    as [c2 w2 r2|c2 w2]; [exact H2|done].
Qed.

(** X5: the marks of the end of a file and of a missing file survive the
    wrapping of errors by the transport: an error [IsEOF] accepts is still
    one after [handleError], and an error which is neither a network error
    nor a node error is wrapped as a remote error which carries the
    not-exist flag exactly when its text is that of [os.ErrNotExist]. *)
Theorem handleError_keeps_EOF_and_NotExist (err : option error) :
  (Branch.IsEOF err = true → Branch.IsEOF (handleError err) = true)
  ∧ handleError (Some ErrNotExist)
    = Some (RufsError ErrRemoteAction "file does not exist" true)
  ∧ ∀ e,
      err = Some e →
      (∀ msg, e ≠ NetError msg) →
      HasPrefix (Error e) "RufsError: " = false →
      handleError err
      = Some (RufsError ErrRemoteAction (Error e)
                (bool_decide (Error e = "file does not exist"))).
Proof.
  split_and!.
  - destruct err as [[]|]; try done.
    simpl Branch.IsEOF at 1. intros Hd. unfold handleError.
    by rewrite Error_RufsError_prefix.
  - done.
  - intros e -> Hn Hp. destruct e; simpl in *; rewrite ?Hp; try done.
    by destruct (Hn msg).
Qed.

(** *** Closed connections *)

(** X6: a cached connection which turns out to be closed is dropped and
    the request is sent again, once, over a new connection.  When the
    call over the cached connection fails as a closed connection does and
    the client is not already redialing, the connection is deleted, the
    redial flag is set, and the result of [SendRequest] is the result of
    one more pass, which does not ask for another one and which dials
    anew: if that dial fails, its error is the result.  When the call
    fails in no such way, or not at all, its answer is the result, with
    the error wrapped. *)
Theorem closed_connection_is_redialed (c : Client) (w w1 : World)
  (node laddr : string) (conn : Conn) (remoteCall : RPCFunction)
  (args : option RequestArgs) (resp : Response) (err : option error) :
  redial c = false →
  peers c !! node = Some laddr →
  conns c !! node = Some conn →
  call w conn remoteCall node (token c) args = (w1, (resp, err)) →
  let c1 := set_redial true (set_conns (delete node) c) in
  if is_closed err then
    ∃ c2 w2 r,
      SendRequest_attempt c1 w1 node remoteCall args = Done c2 w2 r
      ∧ SendRequest c w node remoteCall args = (c2, w2, r)
      ∧ conns c1 !! node = None
      ∧ ∀ e wd,
          dial w1 laddr = (wd, DialError e) →
          (c2, w2, r) = (c1, wd, Return (RespNil, handleError (Some e)))
  else
    SendRequest c w node remoteCall args
    = (set_redial false c, w1, Return (resp, handleError err)).
Proof.
  intros Hre Hp Hc Hcall c1.
  rewrite NodeFacts.SendRequest_unfold.
  assert (H1 : SendRequest_attempt c w node remoteCall args
               = if is_closed err then Again c1 w1
                 else Done (set_redial false c) w1
                        (Return (resp, handleError err))).
  { unfold Node.SendRequest_attempt. rewrite Hp, Hc.
    unfold Node.SendRequest_call. rewrite Hcall, Hre. simpl.
    by destruct (is_closed err). }
  rewrite H1. destruct (is_closed err); [|done].
  destruct (NodeFacts.SendRequest_attempt_redial sha256_hex World dial call
              c1 w1 node remoteCall args eq_refl) as (c2 & w2 & r & H2).
  exists c2, w2, r. rewrite H2. split_and!; try done.
  - simpl. by rewrite lookup_delete_eq.
  - intros e wd Hd. unfold Node.SendRequest_attempt in H2.
    simpl in H2. rewrite Hp, lookup_delete_eq, Hd in H2.
    by injection H2 as <- <- <-.
Qed.

(** *** What a request leaves alone *)

Lemma frame_refl node c : frame node c c.
Proof. by unfold frame. Qed.

Lemma frame_trans node c1 c2 c3 :
  frame node c1 c2 → frame node c2 c3 → frame node c1 c3.
Proof.
  intros (Hp & Ht & Hc & Hn) (Hp' & Ht' & Hc' & Hn').
  split_and!; try congruence.
  intros n Hne. destruct (Hn n Hne), (Hn' n Hne). split; congruence.
Qed.

Lemma frame_set_redial node c b : frame node c (set_redial b c).
Proof. by unfold frame. Qed.

Lemma frame_delete_conn node c : frame node c (set_conns (delete node) c).
Proof.
  split_and!; try done. intros n Hne. simpl.
  by rewrite lookup_delete_ne.
Qed.

Lemma frame_insert_conn node c conn :
  frame node c (set_conns (insert node conn) c).
Proof.
  split_and!; try done. intros n Hne. simpl.
  by rewrite lookup_insert_ne.
Qed.

Lemma frame_insert_fingerprint node c fp :
  frame node c (set_fingerprints (insert node fp) c).
Proof.
  split_and!; try done. intros n Hne. simpl.
  by rewrite lookup_insert_ne.
Qed.

Lemma SendRequest_call_frame c0 c w conn node remoteCall args :
  frame node c0 c →
  attempt_frame node c0 (SendRequest_call c w conn node remoteCall args).
Proof.
  intros Hf. unfold Node.SendRequest_call.
  destruct (call w conn remoteCall node (token c) args) as [w' [resp err]].
  destruct (negb (redial c) && is_closed err)%bool; simpl.
  - eapply frame_trans; [exact Hf|].
    eapply frame_trans; [apply frame_delete_conn|apply frame_set_redial].
  - eapply frame_trans; [exact Hf|apply frame_set_redial].
Qed.

Lemma SendRequest_attempt_frame c w node remoteCall args :
  attempt_frame node c (SendRequest_attempt c w node remoteCall args).
Proof.
  unfold Node.SendRequest_attempt.
  destruct (peers c !! node) as [laddr|]; [|apply frame_refl].
  destruct (conns c !! node) as [conn|];
    [apply SendRequest_call_frame, frame_refl|].
  destruct (dial w laddr) as [w1 [e|cert]]; [apply frame_refl|].
  destruct (has_cert c);
    [|apply SendRequest_call_frame, frame_insert_conn].
  destruct cert as [raw|]; [|apply frame_refl].
  repeat case_decide.
  - apply SendRequest_call_frame.
    eapply frame_trans;
      [apply frame_insert_fingerprint|apply frame_insert_conn].
  - apply frame_refl.
  - apply SendRequest_call_frame, frame_insert_conn.
Qed.

Lemma SendRequest_frame c w node remoteCall args :
  frame node c (SendRequest c w node remoteCall args).1.1.
Proof.
  rewrite NodeFacts.SendRequest_unfold.
  pose proof (SendRequest_attempt_frame c w node remoteCall args) as H1.
  destruct (SendRequest_attempt c w node remoteCall args)
    as [c1 w1 r1|c1 w1]; [exact H1|].
  pose proof (SendRequest_attempt_frame c1 w1 node remoteCall args) as H2.
  destruct (SendRequest_attempt c1 w1 node remoteCall args)
    as [c2 w2 r2|c2 w2]; [|apply frame_refl].
  simpl in *. by eapply frame_trans.
Qed.

Lemma SendData_frame c w node ctrl data :
  frame node c (SendData c w node ctrl data).1.1.
Proof.
  unfold Node.SendData.
  destruct (peers c !! node); [|apply frame_refl].
  pose proof (SendRequest_frame c w node RPCData
                (Some {| ArgCTRL := ctrl; ArgDATA := data |})) as Hf.
  by destruct (Node.SendRequest _ _ _ _ _ _ _ _ _) as [[c' w'] out].
Qed.

Lemma SendPing_frame c w node rpc :
  frame node c (SendPing c w node rpc).1.1.
Proof.
  unfold Node.SendPing.
  set (temporary := (bool_decide (peers c !! node = None)
                     && bool_decide (rpc ≠ ""))%bool).
  set (c1 := if temporary then set_peers (insert node rpc) c else c).
  pose proof (SendRequest_frame c1 w node RPCPing None) as Hf.
  destruct (Node.SendRequest _ _ _ _ _ _ _ _ _) as [[c2 w2] out].
  simpl in *. destruct Hf as (Hp & Ht & Hc & Hn).
  destruct temporary eqn:Htmp; subst c1; simpl in *.
  - apply andb_prop in Htmp as [Hnone _].
    apply bool_decide_eq_true in Hnone.
    unfold frame, RemovePeer. simpl.
    split_and!; try done.
    + rewrite Hp. by apply delete_insert_id.
    + intros n Hne. destruct (Hn n Hne) as [H1 H2].
      by rewrite !lookup_delete_ne.
  - by split_and!.
Qed.

(** X7: a request to a node leaves the rest of the client alone:
    [SendRequest], [SendData] and [SendPing] change neither the peers nor
    the token of the client, and of the cached connections and expected
    fingerprints only those of the node the request goes to. *)
Theorem requests_touch_one_peer (c : Client) (w : World) (node : string)
  (remoteCall : RPCFunction) (args : option RequestArgs)
  (ctrl : gmap string string) (data : list byte) (rpc : string) :
  frame node c (SendRequest c w node remoteCall args).1.1
  ∧ frame node c (SendData c w node ctrl data).1.1
  ∧ frame node c (SendPing c w node rpc).1.1.
Proof.
  split_and!;
    [apply SendRequest_frame|apply SendData_frame|apply SendPing_frame].
Qed.

(** X8: the life of a registration.  A node which is not registered can
    be registered under a non-empty address, and only under one; once
    registered it has its address and expected fingerprint and no cached
    connection, and registering it again fails and changes nothing; once
    removed, the peers are as before and data for it is refused without
    a word to the network. *)
Theorem registration_lifecycle (c : Client) (w : World)
  (node rpc fp : string) :
  peers c !! node = None →
  rpc ≠ "" →
  let c1 := (RegisterPeer c node rpc fp).1 in
  let c2 := RemovePeer c1 node in
  RegisterPeer c node "" fp
  = (c, Some (Errorf "RPC interface must not be empty"))
  ∧ (RegisterPeer c node rpc fp).2 = None
  ∧ peers c1 !! node = Some rpc
  ∧ fingerprints c1 !! node = Some fp
  ∧ conns c1 !! node = None
  ∧ (∀ rpc' fp',
       RegisterPeer c1 node rpc' fp'
       = (c1, Some (Errorf ("Peer already registered: " +:+ node))))
  ∧ peers c2 = peers c
  ∧ conns c2 !! node = None
  ∧ fingerprints c2 !! node = None
  ∧ ∀ ctrl data,
      SendData c2 w node ctrl data
      = (c2, w, Return ([], Some (Errorf ("Unknown peer: " +:+ node)))).
Proof.
  intros Hp Hr. unfold RegisterPeer. rewrite Hp. simpl.
  rewrite (decide_False (P := rpc = "")) by done. simpl.
  split_and!.
  - done.
  - done.
  - by rewrite lookup_insert_eq.
  - by rewrite lookup_insert_eq.
  - by rewrite lookup_delete_eq.
  - intros rpc' fp'. simpl. by rewrite lookup_insert_eq.
  - by apply delete_insert_id.
  - by rewrite lookup_delete_eq.
  - by rewrite lookup_delete_eq.
  - intros ctrl data. unfold Node.SendData. simpl.
    by rewrite lookup_delete_eq.
Qed.

End Client.

Lemma handleError_keeps_EOF_and_NotExist_witness :
  Branch.IsEOF (Some EOF) = true
  ∧ Branch.IsEOF (handleError (Some EOF)) = true
  ∧ handleError (Some (Errorf "no space left"))
    = Some (RufsError ErrRemoteAction "no space left" false).
Proof.
  pose proof (handleError_keeps_EOF_and_NotExist (Some EOF)) as [H1 _].
  pose proof (handleError_keeps_EOF_and_NotExist
                (Some (Errorf "no space left"))) as (_ & _ & H3).
  split_and!; [done|by apply H1|].
  by apply (H3 (Errorf "no space left")).
Defined.


Lemma closed_connection_is_redialed_witness :
  redial client1 = false
  ∧ peers client1 !! "A" = Some "localhost:9020"
  ∧ conns client1 !! "A"
    = Some {| conn_laddr := "localhost:9020"; conn_peer_cert := None |}
  ∧ is_closed (Some ErrShutdown) = true
  ∧ ∃ c2 w2 r,
      SendRequest sha0 unit dial0 call_closed client1 tt "A" RPCPing None
      = (c2, w2, r)
      ∧ SendRequest_attempt sha0 unit dial0 call_closed
          (set_redial true (set_conns (delete "A") client1)) tt "A"
          RPCPing None
        = Done c2 w2 r.
Proof.
  assert (H1 : redial client1 = false) by done.
  assert (H2 : peers client1 !! "A" = Some "localhost:9020")
    by by vm_compute.
  assert (H3 : conns client1 !! "A"
               = Some {| conn_laddr := "localhost:9020";
                         conn_peer_cert := None |}) by by vm_compute.
  pose proof (closed_connection_is_redialed sha0 unit dial0 call_closed
                client1 tt tt "A" "localhost:9020" _ RPCPing None RespNil
                (Some ErrShutdown) H1 H2 H3 eq_refl) as H.
  change (is_closed (Some ErrShutdown)) with true in H.
  cbv iota in H. destruct H as (c2 & w2 & r & Hatt & Heq & _).
  split_and!; [exact H1|exact H2|exact H3|done|].
  exists c2, w2, r. split; [exact Heq|exact Hatt].
Defined.

Lemma registration_lifecycle_witness :
  let c := client0 true in
  let c1 := (RegisterPeer c "B" "localhost:9021" "be:ef").1 in
  peers c !! "B" = None
  ∧ "localhost:9021" ≠ ""
  ∧ peers c1 !! "B" = Some "localhost:9021"
  ∧ peers (RemovePeer c1 "B") = peers c.
Proof.
  assert (Hp : peers (client0 true) !! "B" = None) by by vm_compute.
  assert (Hr : "localhost:9021" ≠ "") by done.
  pose proof (registration_lifecycle sha0 unit dial0 call0 (client0 true)
                tt "B" "localhost:9021" "be:ef" Hp Hr) as H.
  simpl in H. destruct H as (_ & _ & H3 & _ & _ & _ & H7 & _).
  split_and!; [exact Hp|exact Hr|exact H3|exact H7].
Defined.

End NodeMoreFacts.

(* ====================================================================== *)
(** ** More facts about the branch engine                                  *)
(* ====================================================================== *)

Module BranchMoreFacts.
Import Host Branch BranchIO Props MoreProps HostFacts BranchFacts Examples.
Local Open Scope list_scope.

(** X9: [ReadFile] reads a slice of the file: the count lies between 0 and
    the length of the buffer, the buffer keeps its length, and on success
    it starts with the bytes of the file from the offset on, as many as
    the file has and the buffer holds, and is as it was behind them.  A
    failed read leaves the buffer alone, and a read at or behind the end
    of the file is answered with [io.EOF]. *)
Theorem ReadFile_reads_a_slice (b : Branch) (h : state) (spath : string)
  (p : list byte) (offset : Z) :
  let r := ReadFile b h spath p offset in
  0 ≤ r.1.1 ≤ Z.of_nat (List.length p)
  ∧ List.length r.1.2 = List.length p
  ∧ match r.2 with
    | Some _ => r.1.1 = 0 ∧ r.1.2 = p
    | None =>
        ∃ subPath data,
          constructSubPath b h spath = inr subPath
          ∧ file_content h subPath = Some data
          ∧ 0 ≤ offset < Z.of_nat (List.length data)
          ∧ r.1.1 = Z.min (Z.of_nat (List.length p))
                      (Z.of_nat (List.length data) - offset)
          ∧ r.1.2 = take (Z.to_nat r.1.1) (drop (Z.to_nat offset) data)
                    ++ drop (Z.to_nat r.1.1) p
    end
  ∧ ∀ subPath data,
      constructSubPath b h spath = inr subPath →
      file_content h subPath = Some data →
      0 ≤ offset →
      Z.of_nat (List.length data) ≤ offset →
      r = (0, p, Some EOF).
Proof.
  intros r.
  assert (Hend : ∀ subPath data,
             constructSubPath b h spath = inr subPath →
             file_content h subPath = Some data →
             0 ≤ offset →
             Z.of_nat (List.length data) ≤ offset →
             r = (0, p, Some EOF)).
  { intros subPath data Hs Hf H0 Hle. subst r. unfold ReadFile.
    rewrite Hs, (file_content_Some _ _ _ Hf).
    rewrite (proj2 (Z.ltb_ge _ _)) by lia.
    by rewrite (proj2 (Z.leb_le _ _)) by lia. }
  split_and!; [| | | |exact Hend]; clear Hend; subst r;
    unfold ReadFile, file_content;
    (destruct (constructSubPath b h spath) as [e|subPath]; simpl;
     [done || lia|]);
    (destruct (Stat h subPath) as [e|[data|es]] eqn:Est; simpl;
     [done || lia| |done || lia]);
    (destruct (offset <? 0) eqn:Eneg; simpl; [done || lia|]);
    apply Z.ltb_ge in Eneg;
    (destruct (Z.of_nat (List.length data) <=? offset) eqn:Eend; simpl;
     [done || lia|]);
    apply Z.leb_gt in Eend;
    set (got := take (List.length p) (drop (Z.to_nat offset) data));
    assert (Hgot : List.length got
                   = Nat.min (List.length p)
                       (List.length data - Z.to_nat offset))
      by (unfold got; by rewrite length_take, length_drop).
  - lia.
  - lia.
  - rewrite length_app, length_drop. lia.
  - exists subPath, data. split_and!; try done; try lia.
    + by rewrite Est.
    + rewrite Nat2Z.id. f_equal. unfold got. rewrite length_take.
      destruct (Nat.min_spec (List.length p)
                  (List.length (drop (Z.to_nat offset) data)))
        as [[? ->]|[? ->]]; [done|].
      rewrite !take_ge; [done|lia..].
Qed.

(** *** Whole files *)

Lemma ReadFileToBuffer_loop_complete b h spath subPath data :
  constructSubPath b h spath = inr subPath →
  file_content h subPath = Some data →
  ∀ fuel readBuf offset buf,
    (1 ≤ List.length readBuf)%nat →
    (offset ≤ List.length data)%nat →
    (List.length data - offset < fuel)%nat →
    ReadFileToBuffer_loop (list byte) Buffer_Write fuel b h spath readBuf
      (Z.of_nat offset) buf
    = Some (buf ++ drop offset data, None).
Proof.
  intros Hsub Hfc. apply file_content_Some in Hfc.
  induction fuel as [|fuel IH]; intros readBuf offset buf Hsz Hoff Hfuel;
    [lia|].
  simpl. unfold ReadFile. rewrite Hsub, Hfc.
  rewrite (proj2 (Z.ltb_ge _ _)) by lia.
  destruct (Z.of_nat (List.length data) <=? Z.of_nat offset) eqn:Eend.
  - apply Z.leb_le in Eend. simpl.
    rewrite drop_ge by lia. by rewrite app_nil_r.
  - apply Z.leb_gt in Eend. rewrite Nat2Z.id.
    set (got := take (List.length readBuf) (drop offset data)).
    assert (Hgot : (1 ≤ List.length got ≤ List.length readBuf)%nat).
    { unfold got. rewrite length_take, length_drop. lia. }
    rewrite Nat2Z.id.
    rewrite take_app_length. unfold Buffer_Write.
    replace (Z.of_nat offset + Z.of_nat (List.length got))
      with (Z.of_nat (offset + List.length got)) by lia.
    assert (Hle : (offset + List.length got ≤ List.length data)%nat).
    { unfold got. rewrite length_take, length_drop. lia. }
    rewrite IH; [|rewrite length_app, length_drop; lia|lia|lia].
    f_equal. f_equal. rewrite <- app_assoc. f_equal.
    unfold got.
    rewrite <- (take_drop (List.length readBuf) (drop offset data)) at 3.
    f_equal. rewrite drop_drop.
    rewrite length_take, length_drop.
    destruct (decide (List.length readBuf
                      ≤ List.length data - offset)%nat) as [Hc|Hc].
    + f_equal. lia.
    + rewrite !drop_ge; [done|lia..].
Qed.

(** X10: [ReadFileToBuffer] gives the whole file: for a path which holds
    a regular file and a read buffer size of one byte or more, the buffer
    (a [bytes.Buffer]) receives the content of the file, all of it and in
    order, behind what it held, and no error is returned; the loop ends
    within as many turns as the file has bytes, and one. *)
Theorem ReadFileToBuffer_gives_whole_file (b : Branch) (h : state)
  (spath subPath : string) (data buf : list byte) (fuel : nat) :
  1 ≤ DefaultReadBufferSize h →
  constructSubPath b h spath = inr subPath →
  file_content h subPath = Some data →
  (List.length data < fuel)%nat →
  ReadFileToBuffer (list byte) Buffer_Write fuel b h spath buf
  = Some (Return (buf ++ data, None)).
Proof.
  intros Hsz Hsub Hfc Hfuel. unfold ReadFileToBuffer.
  rewrite (proj2 (Z.ltb_ge _ _)) by lia.
  rewrite (ReadFileToBuffer_loop_complete b h spath subPath data Hsub Hfc
             fuel _ 0%nat buf).
  - done.
  - unfold make. rewrite length_replicate. lia.
  - lia.
  - lia.
Qed.

Lemma ReadFileToBuffer_gives_whole_file_witness :
  1 ≤ DefaultReadBufferSize host0
  ∧ constructSubPath branch0 host0 "a" = inr "/data/foo/a"
  ∧ file_content host0 "/data/foo/a" = Some (bytes "XY")
  ∧ (List.length (bytes "XY") < 3)%nat
  ∧ ReadFileToBuffer (list byte) Buffer_Write 3 branch0 host0 "a"
      (bytes "<")
    = Some (Return (bytes "<XY", None)).
Proof.
  assert (H1 : 1 ≤ DefaultReadBufferSize host0) by by vm_compute.
  assert (H2 : constructSubPath branch0 host0 "a" = inr "/data/foo/a")
    by by vm_compute.
  assert (H3 : file_content host0 "/data/foo/a" = Some (bytes "XY"))
    by by vm_compute.
  assert (H4 : (List.length (bytes "XY") < 3)%nat) by (vm_compute; lia).
  split_and!; [exact H1|exact H2|exact H3|exact H4|].
  exact (ReadFileToBuffer_gives_whole_file branch0 host0 "a" "/data/foo/a"
           (bytes "XY") (bytes "<") 3 H1 H2 H3 H4).
Defined.

(** What [put] answers does not depend on the node which is put. *)
Lemma put_error_indep c cs new new' n :
  match put c cs new n with
  | inl e => put c cs new' n = inl e
  | inr _ => ∃ n', put c cs new' n = inr n'
  end.
Proof.
  revert c n. induction cs as [|c' cs IH]; intros c [d|es]; simpl;
    try done.
  - eauto.
  - destruct (assoc c es) as [ch|]; [|done].
    specialize (IH c' ch). destruct (put c' cs new ch) as [e|x].
    + by rewrite IH.
    + destruct IH as [n' ->]. eauto.
Qed.

Lemma put_path_error_indep p new new' n :
  match put_path p new n with
  | inl e => put_path p new' n = inl e
  | inr _ => ∃ n', put_path p new' n = inr n'
  end.
Proof. destruct p as [|c cs]; simpl; [eauto|apply put_error_indep]. Qed.

Lemma pool_Get_keeps h :
  fs (pool_Get h).2 = fs h ∧ cwd (pool_Get h).2 = cwd h
  ∧ DefaultReadBufferSize (pool_Get h).2 = DefaultReadBufferSize h.
Proof. unfold pool_Get. by destruct (byteSlicePool h). Qed.

(** [WriteFile] changes neither the working directory nor the size of
    the read buffers. *)
Lemma WriteFile_keeps_config b h spath p offset :
  cwd (WriteFile b h spath p offset).1 = cwd h
  ∧ DefaultReadBufferSize (WriteFile b h spath p offset).1
    = DefaultReadBufferSize h.
Proof.
  unfold WriteFile. destruct (checkReadOnly b); [done|].
  pose proof (pool_Get_keeps h) as (_ & Hc & Hs).
  destruct (pool_Get h) as [buf hg]. simpl in Hc, Hs.
  destruct (constructSubPath b hg spath) as [e|subPath]; [done|].
  destruct (Stat hg subPath) as [e|[d|es]]; [| |done].
  - destruct (IsNotExist (Some e)); [|done].
    destruct (Split subPath) as [dir file]. unfold MkdirAll.
    destruct (mkdirAll (components dir) (fs hg)); [done|]. simpl.
    by destruct (put_path _ _ _).
  - by destruct (put_path _ _ _).
Qed.

(** The error of [WriteFile] depends neither on the payload nor on the
    offset. *)
Lemma WriteFile_error_indep b h spath p offset p' offset' :
  (WriteFile b h spath p offset).2.2
  = (WriteFile b h spath p' offset').2.2.
Proof.
  unfold WriteFile. destruct (checkReadOnly b); [done|].
  destruct (pool_Get h) as [buf hg].
  destruct (constructSubPath b hg spath) as [e|subPath]; [done|].
  destruct (Stat hg subPath) as [e|[d|es]]; [| |done].
  - destruct (IsNotExist (Some e)); [|done].
    destruct (Split subPath) as [dir file].
    destruct (MkdirAll hg dir) as [h1 [e1|]]; [done|].
    set (x := content (f_Write (if 0 <? offset then _ else _) p)).
    set (y := content (f_Write (if 0 <? offset' then _ else _) p')).
    pose proof (put_path_error_indep (components subPath) (RegularFile x)
                  (RegularFile y) (fs h1)) as Hi.
    destruct (put_path _ (RegularFile x) _) as [e2|n2].
    + by rewrite Hi.
    + by destruct Hi as [n' ->].
  - by repeat destruct (put_path _ _ _).
Qed.

Lemma constructSubPath_cwd b h h' spath :
  cwd h' = cwd h → constructSubPath b h' spath = constructSubPath b h spath.
Proof. intros Hc. unfold constructSubPath. by rewrite Hc. Qed.

(** A write into a regular file, at an offset within it or at its end. *)
Lemma WriteFile_existing b h spath subPath cur p (offset : nat) :
  readonly b = false →
  constructSubPath b h spath = inr subPath →
  file_content h subPath = Some cur →
  (offset ≤ List.length cur)%nat →
  ∃ h',
    WriteFile b h spath p (Z.of_nat offset)
    = (h', (Z.of_nat (List.length p), None))
    ∧ file_content h' subPath
      = Some (take offset cur ++ p ++ drop (offset + List.length p) cur)
    ∧ cwd h' = cwd h
    ∧ DefaultReadBufferSize h' = DefaultReadBufferSize h.
Proof.
  intros Hro Hsub Hfc Hoff.
  pose proof (WriteFile_keeps_config b h spath p (Z.of_nat offset))
    as [Hcwd Hsz].
  pose proof (WriteFile_error_indep b h spath p (Z.of_nat offset) p
                (Z.of_nat offset)) as _.
  destruct (WriteFile b h spath p (Z.of_nat offset)) as [h' [n err]]
    eqn:HW.
  assert (Herr : err = None).
  { apply file_content_Some in Hfc.
    unfold WriteFile, checkReadOnly in HW. rewrite Hro in HW.
    pose proof (pool_Get_keeps h) as (Hf & Hc & _).
    destruct (pool_Get h) as [buf hg]. simpl in Hf, Hc.
    rewrite (constructSubPath_cwd b h hg spath Hc), Hsub in HW.
    unfold Stat in HW, Hfc. rewrite Hf in HW.
    destruct (walk (components subPath) (fs h)) as [e|x]; [done|].
    injection Hfc as ->.
    destruct (put_path _ _ _) in HW; by injection HW as <- <- <-. }
  subst err. exists h'.
  assert (Hnodir : ∀ es, Stat h subPath ≠ inr (Directory es)).
  { intros es. by rewrite (file_content_Some _ _ _ Hfc). }
  destruct (WriteFile_written b h spath p (Z.of_nat offset) h' n subPath
              Hsub Hnodir HW) as (Hc & _ & ->).
  split_and!; try done.
  rewrite Hc, Hfc. f_equal. unfold seek_or_grow.
  rewrite (proj2 (Z.ltb_ge _ _)) by lia.
  unfold f_Seek. rewrite (proj2 (Z.ltb_ge _ _)) by lia.
  unfold f_Write. simpl. rewrite Nat2Z.id.
  replace (offset - List.length cur)%nat with 0%nat by lia. done.
Qed.

Lemma WriteFileFromBuffer_loop_existing b spath subPath (sz : nat) :
  readonly b = false →
  (1 ≤ sz)%nat →
  ∀ fuel data h (offset : nat) cur,
    constructSubPath b h spath = inr subPath →
    file_content h subPath = Some cur →
    (offset ≤ List.length cur)%nat →
    (List.length data < fuel)%nat →
    ∃ h',
      WriteFileFromBuffer_loop (list byte) Buffer_Read fuel b h spath sz
        (Z.of_nat offset) data
      = Some (h', [], None)
      ∧ file_content h' subPath
        = Some (take offset cur ++ data
                ++ drop (offset + List.length data) cur)
      ∧ cwd h' = cwd h
      ∧ DefaultReadBufferSize h' = DefaultReadBufferSize h.
Proof.
  intros Hro Hsz.
  induction fuel as [|fuel IH]; intros data h offset cur Hsub Hfc Hoff Hfuel;
    [lia|].
  destruct data as [|x data].
  - simpl. rewrite decide_False by lia. simpl.
    destruct (WriteFile_existing b h spath subPath cur [] offset Hro Hsub
                Hfc Hoff) as (h' & HW & Hc & Hcwd & Hs).
    exists h'. rewrite HW. simpl. by split_and!.
  - set (d := x :: data) in *.
    assert (Hread : Buffer_Read d sz = (drop sz d, (take sz d, None)))
      by done.
    cbn [WriteFileFromBuffer_loop]. rewrite Hread. clear Hread.
    set (p := take sz d).
    assert (Hp : (1 ≤ List.length p ≤ List.length d)%nat).
    { unfold p. rewrite length_take. simpl. lia. }
    destruct (WriteFile_existing b h spath subPath cur p offset Hro Hsub
                Hfc Hoff) as (h1 & HW & Hc & Hcwd & Hs).
    rewrite HW.
    replace (Z.of_nat offset + Z.of_nat (List.length p))
      with (Z.of_nat (offset + List.length p)) by lia.
    assert (Hsub1 : constructSubPath b h1 spath = inr subPath)
      by by rewrite (constructSubPath_cwd b h h1 spath Hcwd).
    assert (Hoff1 : (offset + List.length p
                     ≤ List.length (take offset cur ++ p
                          ++ drop (offset + List.length p) cur))%nat)
      by (rewrite !length_app, (length_take cur offset); lia).
    assert (Hfuel1 : (List.length (drop sz d) < fuel)%nat)
      by (rewrite length_drop; simpl in *; lia).
    destruct (IH (drop sz d) h1 (offset + List.length p)%nat _ Hsub1 Hc
                Hoff1 Hfuel1) as (h' & HL & Hc' & Hcwd' & Hs').
    exists h'. rewrite HL. split_and!; try congruence.
    rewrite Hc'. f_equal.
    assert (Hlen : List.length (take offset cur) = offset)
      by (rewrite length_take; lia).
    rewrite (app_assoc (take offset cur) p).
    rewrite take_app_length'
      by (rewrite length_app; lia).
    rewrite drop_app_ge by (rewrite length_app; lia).
    rewrite drop_drop, length_app, Hlen.
    rewrite <- (take_drop sz d) at 3. fold p.
    rewrite <- !app_assoc. do 3 f_equal.
    rewrite length_drop.
    assert (Hd : List.length p = Nat.min sz (List.length d))
      by (unfold p; by rewrite length_take).
    f_equal. lia.
Qed.

Lemma ReadFileToBuffer_complete b h spath subPath data buf fuel :
  1 ≤ DefaultReadBufferSize h →
  constructSubPath b h spath = inr subPath →
  file_content h subPath = Some data →
  (List.length data < fuel)%nat →
  ReadFileToBuffer (list byte) Buffer_Write fuel b h spath buf
  = Some (Return (buf ++ data, None)).
Proof.
  intros Hsz Hsub Hfc Hfuel. unfold ReadFileToBuffer.
  rewrite (proj2 (Z.ltb_ge _ _)) by lia.
  rewrite (ReadFileToBuffer_loop_complete b h spath subPath data Hsub Hfc
             fuel _ 0%nat buf).
  - done.
  - unfold make. rewrite length_replicate. lia.
  - lia.
  - lia.
Qed.

(** The first turn of [WriteFileFromBuffer] for a file which does not
    exist yet. *)
Lemma WriteFile_creates b h spath subPath p :
  constructSubPath b h spath = inr subPath →
  file_content h subPath = None →
  (∀ es, Stat h subPath ≠ inr (Directory es)) →
  (WriteFile b h spath [] 0).2.2 = None →
  ∃ h',
    WriteFile b h spath p 0 = (h', (Z.of_nat (List.length p), None))
    ∧ file_content h' subPath = Some p
    ∧ cwd h' = cwd h
    ∧ DefaultReadBufferSize h' = DefaultReadBufferSize h.
Proof.
  intros Hsub Hfc Hnodir Hok.
  pose proof (WriteFile_keeps_config b h spath p 0) as [Hcwd Hsz].
  rewrite (WriteFile_error_indep b h spath [] 0 p 0) in Hok.
  destruct (WriteFile b h spath p 0) as [h' [n err]] eqn:HW.
  simpl in Hok, Hcwd, Hsz. subst err.
  destruct (WriteFile_written b h spath p 0 h' n subPath Hsub Hnodir HW)
    as (Hc & _ & ->).
  exists h'. split_and!; try done.
  rewrite Hc, Hfc. unfold seek_or_grow, f_Write. simpl.
  by rewrite drop_nil, app_nil_r.
Qed.

(** X11: [WriteFileFromBuffer] stores the whole buffer, and
    [ReadFileToBuffer] gives it back.  On a writable branch, for a path
    which is no directory and where a file exists or can be created, and
    a buffer size of one byte or more: the bytes of the reader (a
    [bytes.Buffer]) are written from the start of the file on, in order,
    and the reader is left empty; what the file held behind them stays
    (the file is not truncated), so a new file and a file which was not
    longer than the data hold exactly the data.  Reading the file into a
    buffer afterwards appends exactly this content. *)
Theorem WriteFileFromBuffer_stores_whole_buffer (b : Branch) (h : state)
  (spath subPath : string) (data : list byte) (fuel : nat) :
  readonly b = false →
  1 ≤ DefaultReadBufferSize h →
  constructSubPath b h spath = inr subPath →
  (∀ es, Stat h subPath ≠ inr (Directory es)) →
  (WriteFile b h spath [] 0).2.2 = None →
  (List.length data < fuel)%nat →
  let old := default [] (file_content h subPath) in
  let new := data ++ drop (List.length data) old in
  ∃ h',
    WriteFileFromBuffer (list byte) Buffer_Read fuel b h spath data
    = Some (Return (h', [], None))
    ∧ file_content h' subPath = Some new
    ∧ ((List.length old ≤ List.length data)%nat → new = data)
    ∧ ∀ buf fuel',
        (List.length new < fuel')%nat →
        ReadFileToBuffer (list byte) Buffer_Write fuel' b h' spath buf
        = Some (Return (buf ++ new, None)).
Proof.
  intros Hro Hsz Hsub Hnodir Hok Hfuel old new.
  set (sz := Z.to_nat (DefaultReadBufferSize h)).
  assert (Hsz' : (1 ≤ sz)%nat) by (unfold sz; lia).
  assert (Hloop :
    ∃ h',
      WriteFileFromBuffer_loop (list byte) Buffer_Read fuel b h spath sz 0
        data = Some (h', [], None)
      ∧ file_content h' subPath = Some new
      ∧ cwd h' = cwd h
      ∧ DefaultReadBufferSize h' = DefaultReadBufferSize h).
  { subst old new.
    destruct (file_content h subPath) as [cur|] eqn:Hfc; simpl.
    - destruct (WriteFileFromBuffer_loop_existing b spath subPath sz Hro
                  Hsz' fuel data h 0%nat cur Hsub Hfc)
        as (h' & HL & Hc & Hcwd & Hs);
        [lia|done|].
      exists h'. by split_and!.
    - destruct fuel as [|fuel]; [lia|].
      destruct data as [|x data].
      + simpl. rewrite decide_False by lia. simpl.
        destruct (WriteFile_creates b h spath subPath [] Hsub Hfc Hnodir
                    Hok) as (h' & HW & Hc & Hcwd & Hs).
        exists h'. rewrite HW. by split_and!.
      + set (d := x :: data) in *.
        assert (Hread : Buffer_Read d sz = (drop sz d, (take sz d, None)))
          by done.
        cbn [WriteFileFromBuffer_loop]. rewrite Hread. clear Hread.
        set (p := take sz d).
        assert (Hp : List.length p = Nat.min sz (List.length d))
          by (unfold p; by rewrite length_take).
        destruct (WriteFile_creates b h spath subPath p Hsub Hfc Hnodir
                    Hok) as (h1 & HW & Hc & Hcwd & Hs).
        rewrite HW.
        assert (Hsub1 : constructSubPath b h1 spath = inr subPath)
          by by rewrite (constructSubPath_cwd b h h1 spath Hcwd).
        assert (Hfuel1 : (List.length (drop sz d) < fuel)%nat)
          by (rewrite length_drop; simpl in *; lia).
        destruct (WriteFileFromBuffer_loop_existing b spath subPath sz Hro
                    Hsz' fuel (drop sz d) h1 (List.length p) p Hsub1 Hc)
          as (h' & HL & Hc' & Hcwd' & Hs'); [lia|done|].
        exists h'. change (0 + Z.of_nat (List.length p))
          with (Z.of_nat (List.length p)).
        rewrite HL. split_and!; try congruence.
        rewrite Hc'. f_equal.
        rewrite take_ge by lia. rewrite (drop_ge p) by lia.
        rewrite drop_nil, !app_nil_r. apply take_drop. }
  destruct Hloop as (h' & HL & Hc & Hcwd & Hs).
  exists h'. split_and!.
  - unfold WriteFileFromBuffer, checkReadOnly. rewrite Hro.
    rewrite (proj2 (Z.ltb_ge _ _)) by lia. fold sz. by rewrite HL.
  - done.
  - intros Hlen. unfold new. rewrite drop_ge by lia. apply app_nil_r.
  - intros buf fuel' Hf.
    apply (ReadFileToBuffer_complete b h' spath subPath new buf fuel');
      [lia| |done|done].
    by rewrite (constructSubPath_cwd b h h' spath Hcwd).
Qed.

Lemma WriteFileFromBuffer_stores_whole_buffer_witness :
  readonly branch0 = false
  ∧ 1 ≤ DefaultReadBufferSize host0
  ∧ constructSubPath branch0 host0 "sub/new" = inr "/data/foo/sub/new"
  ∧ (∀ es, Stat host0 "/data/foo/sub/new" ≠ inr (Directory es))
  ∧ (WriteFile branch0 host0 "sub/new" [] 0).2.2 = None
  ∧ (List.length (bytes "hello") < 6)%nat
  ∧ ∃ h',
      WriteFileFromBuffer (list byte) Buffer_Read 6 branch0 host0 "sub/new"
        (bytes "hello")
      = Some (Return (h', [], None))
      ∧ file_content h' "/data/foo/sub/new" = Some (bytes "hello")
      ∧ ReadFileToBuffer (list byte) Buffer_Write 6 branch0 h' "sub/new" []
        = Some (Return (bytes "hello", None)).
Proof.
  assert (H1 : readonly branch0 = false) by done.
  assert (H2 : 1 ≤ DefaultReadBufferSize host0) by by vm_compute.
  assert (H3 : constructSubPath branch0 host0 "sub/new"
               = inr "/data/foo/sub/new") by by vm_compute.
  assert (H4 : ∀ es, Stat host0 "/data/foo/sub/new" ≠ inr (Directory es))
    by (intros es; by vm_compute).
  assert (H5 : (WriteFile branch0 host0 "sub/new" [] 0).2.2 = None)
    by by vm_compute.
  assert (H6 : (List.length (bytes "hello") < 6)%nat)
    by (vm_compute; lia).
  split_and!; [exact H1|exact H2|exact H3|exact H4|exact H5|exact H6|].
  destruct (WriteFileFromBuffer_stores_whole_buffer branch0 host0 "sub/new"
              "/data/foo/sub/new" (bytes "hello") 6 H1 H2 H3 H4 H5 H6)
    as (h' & Hw & Hc & _ & Hr).
  exists h'. split_and!; [exact Hw|exact Hc|].
  apply (Hr [] 6%nat). vm_compute. lia.
Defined.

(** *** Listings *)

Lemma node_ind' (P : node → Prop) :
  (∀ d, P (RegularFile d)) →
  (∀ es, Forall (λ e : string * node, P e.2) es → P (Directory es)) →
  ∀ n, P n.
Proof.
  intros Hf Hd. fix IH 1. intros [d|es]; [apply Hf|].
  apply Hd. induction es as [|[k ch] es IHes]; constructor;
    [apply IH|apply IHes].
Qed.

Lemma unique_names_Directory es :
  unique_names (Directory es)
  ↔ NoDup es.*1 ∧ Forall (λ e : string * node, unique_names e.2) es.
Proof.
  simpl. apply and_iff_compat_l.
  induction es as [|[k ch] es IH]; simpl.
  - split; [constructor|done].
  - rewrite Forall_cons. simpl. by rewrite IH.
Qed.

Lemma assoc_elem_of {A} (k : string) (l : list (string * A)) (v : A) :
  assoc k l = Some v → (k, v) ∈ l.
Proof.
  induction l as [|[k' v'] l IH]; simpl; [done|].
  case_decide as Hk.
  - intros [= ->]. subst. apply list_elem_of_here.
  - intros H. apply list_elem_of_further. auto.
Qed.

Lemma walk_unique_names p n n' :
  unique_names n → walk p n = inr n' → unique_names n'.
Proof.
  revert n. induction p as [|c p IH]; intros n Hu; simpl.
  { by intros [= <-]. }
  destruct n as [d|es]; [done|].
  destruct (assoc c es) as [ch|] eqn:Ha; [|done].
  apply IH. apply unique_names_Directory in Hu as [_ Hall].
  apply assoc_elem_of in Ha.
  by apply (proj1 (Forall_forall _ _) Hall (c, ch)).
Qed.

Section Listings.

Variable regexp_Compile : string → error + (string → bool).
Variable CheckSumFileFast : list byte → string.

Abbreviation createRufsFileInfos := (createRufsFileInfos CheckSumFileFast).
Abbreviation addSubDir := (addSubDir CheckSumFileFast).
Abbreviation Dir := (Dir regexp_Compile CheckSumFileFast).

Lemma names_createRufsFileInfos re sums (es : list (string * node)) :
  Tree.names (createRufsFileInfos re sums es)
  = (List.filter (λ e : string * node, re e.1) es).*1.
Proof.
  unfold Branch.createRufsFileInfos, Tree.names.
  induction (List.filter _ es) as [|[k ch] l IH]; simpl; [done|].
  f_equal; [|exact IH].
  destruct ch as [d|es']; [|done]. by destruct sums.
Qed.

Lemma NoDup_filter_fst (P : string * node → bool)
  (es : list (string * node)) :
  NoDup es.*1 → NoDup (List.filter P es).*1.
Proof.
  induction es as [|[k ch] es IH]; simpl; [done|].
  intros [Hn Hd]%NoDup_cons. destruct (P (k, ch)); simpl; [|auto].
  apply NoDup_cons. split; [|auto].
  intros Hin. apply Hn.
  apply list_elem_of_fmap in Hin as ([k' ch'] & -> & Hin).
  apply list_elem_of_In, filter_In in Hin as [Hin _].
  apply list_elem_of_fmap. exists (k', ch'). split; [done|].
  by apply list_elem_of_In.
Qed.

Lemma NoDup_createRufsFileInfos re sums es :
  NoDup es.*1 → NoDup (Tree.names (createRufsFileInfos re sums es)).
Proof.
  intros Hn. rewrite names_createRufsFileInfos. by apply NoDup_filter_fst.
Qed.

Lemma addSubDir_listings re sums n :
  unique_names n →
  ∀ rp, Forall (λ l, NoDup (Tree.names l)) (addSubDir re sums rp n).*2.
Proof.
  induction n as [d|es IH] using node_ind'; intros Hu rp; [constructor|].
  apply unique_names_Directory in Hu as [Hn Hall].
  simpl. constructor; [by apply NoDup_createRufsFileInfos|].
  clear Hn. induction es as [|[k ch] es IHes]; [constructor|].
  apply Forall_cons in IH as [IHch IH].
  apply Forall_cons in Hall as [Hch Hall].
  rewrite fmap_app. apply Forall_app. split; [|by apply IHes].
  destruct (is_dir ch); [by apply IHch|constructor].
Qed.

(** X12: the answer of [Dir] is well formed.  It holds a listing for each
    directory; on a file system where no directory lists a name twice, no
    listing holds a name twice; an answer with an error holds nothing;
    without recursion the answer holds the asked directory at most, with
    the entries whose name matches the pattern, in the order of the
    directory; and a directory which does not exist gives the empty
    answer without an error. *)
Theorem Dir_answers_are_well_formed (b : Branch) (h : state)
  (spath pattern : string) (recursive checksums : bool) :
  unique_names (fs h) →
  let r := Dir b h spath pattern recursive checksums in
  List.length r.1.1 = List.length r.1.2
  ∧ Forall (λ l, NoDup (Tree.names l)) r.1.2
  ∧ (r.2 ≠ None → r.1.1 = [] ∧ r.1.2 = [])
  ∧ (recursive = false →
     r.1 = ([], [])
     ∨ ∃ re subPath es,
         regexp_Compile pattern = inr re
         ∧ constructSubPath b h spath = inr subPath
         ∧ ReadDir h subPath = inr es
         ∧ r.1.1 = [spath]
         ∧ Tree.names <$> r.1.2
           = [(List.filter (λ e : string * node, re e.1) es).*1])
  ∧ ∀ re subPath,
      regexp_Compile pattern = inr re →
      constructSubPath b h spath = inr subPath →
      walk (components subPath) (fs h) = inl ENOENT →
      r = ([], [], None).
Proof.
  intros Hu r. subst r. unfold Branch.Dir.
  destruct (regexp_Compile pattern) as [e|re]; simpl.
  { split_and!; try done; try (by constructor); by left. }
  destruct (constructSubPath b h spath) as [e|subPath]; simpl.
  { split_and!; try done; try (by constructor); by left. }
  unfold ReadDir.
  destruct (walk (components subPath) (fs h)) as [e|[d|es]] eqn:Hw; simpl.
  - split_and!; try done; try (by constructor); try (by left).
    intros re' sp _ [= <-] Hw'. rewrite Hw in Hw'. by injection Hw' as ->.
  - split_and!; try done; try (by constructor); try (by left).
    intros re' sp _ [= <-] Hw'. by rewrite Hw in Hw'.
  - assert (Hmiss : ∀ sp, @inr error string subPath = inr sp →
                          walk (components sp) (fs h) ≠ inl ENOENT).
    { intros sp [= <-]. by rewrite Hw. }
    pose proof Hw as Hw0.
    apply walk_unique_names in Hw; [|done].
    destruct recursive; simpl.
    + split_and!; try done; try (intros ? sp _ Hs Hw'; by destruct (Hmiss sp)).
      * by rewrite !length_fmap.
      * constructor.
        -- apply unique_names_Directory in Hw as [Hn _].
           by apply NoDup_createRufsFileInfos.
        -- pose proof (addSubDir_listings re checksums (Directory es) Hw
                         spath) as Hl.
           simpl in Hl. by apply Forall_cons in Hl as [_ Hl].
    + split_and!; try done; try (intros ? sp _ Hs Hw'; by destruct (Hmiss sp)).
      * constructor; [|constructor].
        apply unique_names_Directory in Hw as [Hn _].
        by apply NoDup_createRufsFileInfos.
      * intros _. right. exists re, subPath, es. split_and!; try done.
        -- by rewrite Hw0.
        -- simpl. f_equal.
           apply (names_createRufsFileInfos re checksums es).
Qed.

End Listings.

Lemma Dir_answers_are_well_formed_witness :
  unique_names (fs host0)
  ∧ Dir re0 ck0 branch0 host0 "" "" false false
    = ([""], [[file_info "a" 2]], None)
  ∧ Forall (λ l, NoDup (Tree.names l))
      (Dir re0 ck0 branch0 host0 "" "" true false).1.2.
Proof.
  assert (H1 : unique_names (fs host0)).
  { simpl. split_and!; try done; apply (bool_decide_unpack _); by vm_compute. }
  destruct (Dir_answers_are_well_formed re0 ck0 branch0 host0 "" "" true
              false H1) as (_ & H2 & _).
  split_and!; [exact H1|by vm_compute|exact H2].
Defined.

(** *** Item operations *)

Lemma mkdirAll_walk p n n' :
  mkdirAll p n = inr n' → ∃ es, walk p n' = inr (Directory es).
Proof.
  revert n n'. induction p as [|c p IH]; intros [d|es] n'; simpl; try done.
  - intros [= <-]. eauto.
  - destruct (mkdirAll p _) as [e|ch] eqn:Hm; [done|].
    intros [= <-]. simpl. rewrite assoc_put_entry_eq. eauto.
Qed.

Lemma assoc_remove_entry {A} (k : string) (l : list (string * A)) :
  assoc k (remove_entry k l) = None.
Proof.
  induction l as [|[k' v] l IH]; simpl; [done|].
  case_decide as Hk; [done|]. simpl. by rewrite decide_False.
Qed.

Lemma remove_below c c' p es ch :
  assoc c es = Some ch →
  remove (c :: c' :: p) (Directory es)
  = Directory (put_entry c (remove (c' :: p) ch) es).
Proof. intros Ha. simpl. by rewrite Ha. Qed.

Lemma remove_walk p n x :
  p ≠ [] → walk p n = inr x → walk p (remove p n) = inl ENOENT.
Proof.
  revert n. induction p as [|c p IH]; intros n Hp Hw; [done|].
  destruct n as [d|es]; [done|].
  cbn [walk] in Hw.
  destruct (assoc c es) as [ch|] eqn:Ha; [|done].
  destruct p as [|c' p].
  - simpl. by rewrite assoc_remove_entry.
  - rewrite (remove_below c c' p es ch Ha).
    cbn [walk]. rewrite assoc_put_entry_eq. by apply IH.
Qed.

Lemma Split_snd_no_slash (p : string) :
  ContainsChar (Split p).2 "/" = false.
Proof.
  induction p as [|c p IH]; simpl; [done|].
  destruct (Split p) as [d f]. simpl in IH.
  case_decide as Hc; [by case_decide|].
  case_decide; simpl; [|done].
  rewrite decide_False by done. done.
Qed.

Section ItemOps.

Variable regexp_Compile : string → error + (string → bool).
Variable GlobToRegex : string → error + string.
Variable CheckSumFileFast : list byte → string.

Abbreviation ItemOp :=
  (ItemOp regexp_Compile GlobToRegex CheckSumFileFast).

(** X13: what [ItemOp] creates and deletes.  The operation acts on the
    entry of the directory the path names whose name is the last component
    of the given name, a name without a slash; without such a name it
    fails and changes nothing.  After a [mkdir] without an error the entry
    is a directory.  A [delete] of an existing entry, without a wildcard,
    succeeds and the entry is gone afterwards. *)
Theorem ItemOp_creates_and_deletes (b : Branch) (h : state)
  (spath subPath : string) (opdata : gmap string string) :
  readonly b = false →
  constructSubPath b h spath = inr subPath →
  let name := (Split (get opdata ItemOpName)).2 in
  let target := Join [subPath; name] in
  let r := ItemOp b h spath opdata in
  ContainsChar name "/" = false
  ∧ (name = "" →
     get opdata ItemOpAction = ItemOpActMkDir
     ∨ get opdata ItemOpAction = ItemOpActDelete →
     r = (h, (false,
              Some (Errorf
                "This operation requires a specific file or directory"))))
  ∧ (name ≠ "" →
     get opdata ItemOpAction = ItemOpActMkDir →
     r.2.2 = None →
     r.2.1 = true ∧ ∃ es, Stat r.1 target = inr (Directory es))
  ∧ (name ≠ "" →
     get opdata ItemOpAction = ItemOpActDelete →
     ContainsChar target "*" = false →
     components target ≠ [] →
     PathExists h target = true →
     r.2 = (true, None) ∧ PathExists r.1 target = false).
Proof.
  intros Hro Hsub name target r.
  assert (Hr : r = let '(h', err) :=
                     ItemOp_action regexp_Compile GlobToRegex
                       CheckSumFileFast b h spath subPath opdata in
                   (h', (bool_decide (err = None) || IsNotExist err, err))).
  { subst r. unfold Branch.ItemOp, checkReadOnly. by rewrite Hro, Hsub. }
  assert (Hfile : fileFromOpData opdata subPath ItemOpName
                  = if decide (name = "") then
                      inl (Errorf
                        "This operation requires a specific file or directory")
                    else inr target).
  { unfold fileFromOpData. subst target name.
    by destruct (Split (get opdata ItemOpName)) as [d f]. }
  split_and!.
  - apply Split_snd_no_slash.
  - intros Hn Hact. rewrite Hr. unfold ItemOp_action.
    rewrite Hfile, (decide_True (P := name = "")) by done.
    destruct Hact as [-> | ->]; by rewrite ?decide_True by done.
  - intros Hn Hact. rewrite Hr. unfold ItemOp_action.
    rewrite Hfile, (decide_False (P := name = "")) by done.
    rewrite Hact, decide_True by done.
    unfold MkdirAll.
    destruct (mkdirAll (components target) (fs h)) as [e|n'] eqn:Hm;
      [done|].
    intros _. split; [done|]. simpl.
    apply mkdirAll_walk in Hm as [es Hes]. exists es.
    unfold Stat. simpl. by rewrite Hes.
  - intros Hn Hact Hstar Hcomp Hex. rewrite Hr. unfold ItemOp_action.
    rewrite Hfile, (decide_False (P := name = "")) by done.
    rewrite Hact. rewrite (decide_False (P := ItemOpActDelete = _)) by done.
    rewrite (decide_False (P := ItemOpActDelete = _)) by done.
    rewrite decide_True by done. rewrite Hstar. unfold del. rewrite Hex.
    split; [done|]. simpl.
    unfold PathExists, Stat in *. simpl.
    destruct (walk (components target) (fs h)) as [e|x] eqn:Hw; [done|].
    by rewrite (remove_walk _ _ x Hcomp Hw).
Qed.

End ItemOps.

Lemma ItemOp_creates_and_deletes_witness :
  let opdata : gmap string string :=
    {[ ItemOpAction := ItemOpActDelete; ItemOpName := "x/a" ]} in
  let r := Branch.ItemOp re0 gl0 ck0 branch0 host0 "" opdata in
  readonly branch0 = false
  ∧ constructSubPath branch0 host0 "" = inr "/data/foo"
  ∧ PathExists host0 "/data/foo/a" = true
  ∧ r.2 = (true, None)
  ∧ PathExists r.1 "/data/foo/a" = false.
Proof.
  set (opdata := ({[ ItemOpAction := ItemOpActDelete; ItemOpName := "x/a" ]}
                  : gmap string string)).
  assert (H1 : readonly branch0 = false) by done.
  assert (H2 : constructSubPath branch0 host0 "" = inr "/data/foo")
    by by vm_compute.
  assert (H3 : PathExists host0 "/data/foo/a" = true) by by vm_compute.
  destruct (ItemOp_creates_and_deletes re0 gl0 ck0 branch0 host0 ""
              "/data/foo" opdata H1 H2) as (_ & _ & _ & Hd).
  destruct Hd as [Hd1 Hd2]; [by vm_compute..|].
  split_and!; [exact H1|exact H2|exact H3|exact Hd1|exact Hd2].
Defined.

(** *** Numbers in the control map *)

Lemma parse_digits_app (s1 s2 : string) :
  ∀ acc, parse_digits acc (s1 +:+ s2)
         = parse_digits acc s1 ≫= λ v, parse_digits v s2.
Proof.
  induction s1 as [|c s1 IH]; intros acc; simpl; [done|].
  destruct (_ && _); [apply IH|done].
Qed.

Lemma string_app_assoc (a b c : string) :
  (a +:+ b) +:+ c = a +:+ (b +:+ c).
Proof.
  induction a as [|x a IH]; [done|].
  change (String x ((a +:+ b) +:+ c) = String x (a +:+ (b +:+ c))).
  by rewrite IH.
Qed.

Lemma pretty_N_go_app (x : N) :
  ∀ s, pretty_N_go x s = pretty_N_go x "" +:+ s.
Proof.
  induction (N.lt_wf_0 x) as [x _ IH]; intros s.
  destruct (decide (x = 0)%N) as [->|Hx].
  { by rewrite !pretty_N_go_0. }
  rewrite !(pretty_N_go_step x) by lia.
  assert (Hlt : (x `div` 10 < x)%N) by (apply N.div_lt; lia).
  set (c := pretty_N_char (x `mod` 10)).
  rewrite (IH _ Hlt (String c s)), (IH _ Hlt (String c "")).
  by rewrite string_app_assoc.
Qed.

Lemma pretty_N_char_digit (d : N) :
  (d < 10)%N →
  Z.of_nat (nat_of_ascii (pretty_N_char d)) = 48 + Z.of_N d.
Proof.
  intros Hd.
  assert (d = 0 ∨ d = 1 ∨ d = 2 ∨ d = 3 ∨ d = 4 ∨ d = 5 ∨ d = 6 ∨ d = 7
          ∨ d = 8 ∨ d = 9)%N as H by lia.
  repeat (destruct H as [->|H]; [done|]). by subst.
Qed.

Lemma parse_digits_pretty_N_go (x : N) :
  parse_digits 0 (pretty_N_go x "") = Some (Z.of_N x).
Proof.
  induction (N.lt_wf_0 x) as [x _ IH].
  destruct (decide (x = 0)%N) as [->|Hx].
  { by rewrite pretty_N_go_0. }
  rewrite (pretty_N_go_step x) by lia.
  assert (Hlt : (x `div` 10 < x)%N) by (apply N.div_lt; lia).
  rewrite pretty_N_go_app, parse_digits_app, (IH _ Hlt). simpl.
  assert (Hm : (x `mod` 10 < 10)%N) by (by apply N.mod_lt).
  rewrite (pretty_N_char_digit _ Hm).
  assert (Hz : Z.of_N x
               = 10 * Z.of_N (x `div` 10) + Z.of_N (x `mod` 10)).
  { rewrite (N.div_mod x 10) at 1 by done.
    by rewrite N2Z.inj_add, N2Z.inj_mul. }
  assert (Hd : 0 ≤ Z.of_N (x `mod` 10) < 10).
  { split; [apply N2Z.is_nonneg|]. change 10 with (Z.of_N 10).
    by apply N2Z.inj_lt. }
  revert Hz Hd.
  generalize (Z.of_N (x `mod` 10)), (Z.of_N (x `div` 10)), (Z.of_N x).
  intros d q z Hz Hd.
  rewrite (proj2 (Z.leb_le 48 _)) by lia.
  rewrite (proj2 (Z.leb_le _ 57)) by lia. simpl. f_equal. lia.
Qed.

Lemma pretty_N_go_nonempty (x : N) : (0 < x)%N → pretty_N_go x "" ≠ "".
Proof.
  intros Hx. rewrite pretty_N_go_step by done. rewrite pretty_N_go_app.
  by destruct (pretty_N_go (x `div` 10) "").
Qed.

Lemma ParseInt_digits (fn s : string) (v : Z) :
  s ≠ "" →
  parse_digits 0 s = Some v →
  - 2 ^ 63 ≤ v < 2 ^ 63 →
  ParseInt fn s = inr v.
Proof.
  intros Hs Hp Hv. destruct s as [|c s]; [done|].
  assert (Hc : 48 ≤ Z.of_nat (nat_of_ascii c) ≤ 57).
  { simpl in Hp. destruct (48 <=? _) eqn:E1; [|done].
    destruct (_ <=? 57) eqn:E2; [|done]. lia. }
  unfold ParseInt.
  assert (Hm : (match String c s with
                | String "-" s' => (true, s')
                | String "+" s' => (false, s')
                | _ => (false, String c s)
                end) = (false, String c s)).
  { destruct c as [[] [] [] [] [] [] [] []]; try done;
      vm_compute in Hc; destruct Hc as [H1 H2];
      try (by destruct H1); by destruct H2. }
  rewrite Hm. rewrite decide_False by done. rewrite Hp.
  rewrite (proj2 (Z.leb_le _ _)) by lia.
  by rewrite (proj2 (Z.ltb_lt _ _)) by lia.
Qed.

Lemma ParseInt_pretty (fn : string) (z : Z) :
  - 2 ^ 63 ≤ z < 2 ^ 63 →
  ParseInt fn (pretty z) = inr z.
Proof.
  intros Hz. destruct z as [|p|p].
  - by vm_compute.
  - change (pretty (Z.pos p)) with (pretty_N_go (N.pos p) "").
    apply ParseInt_digits; [by apply pretty_N_go_nonempty| |done].
    by rewrite parse_digits_pretty_N_go.
  - change (pretty (Z.neg p)) with ("-" +:+ pretty_N_go (N.pos p) "").
    unfold ParseInt.
    change ("-" +:+ pretty_N_go (N.pos p) "")
      with (String "-" (pretty_N_go (N.pos p) "")).
    cbv iota beta.
    rewrite decide_False by by apply pretty_N_go_nonempty.
    rewrite parse_digits_pretty_N_go.
    change (- Z.of_N (N.pos p)) with (Z.neg p).
    rewrite (proj2 (Z.leb_le _ _)) by lia.
    by rewrite (proj2 (Z.ltb_lt _ _)) by lia.
Qed.

(** X14: the numbers survive the trip through the control map: what
    [fmt.Sprint] writes for an offset or a size, the decimal digits with a
    minus sign for a negative number, [strconv.ParseInt] and
    [strconv.Atoi] read back as the same number, for every number of 64
    bits. *)
Theorem ParseInt_reads_pretty (fn : string) (z : Z) :
  - 2 ^ 63 ≤ z < 2 ^ 63 →
  ParseInt fn (pretty z) = inr z.
Proof. apply ParseInt_pretty. Qed.

Lemma ParseInt_reads_pretty_witness :
  - 2 ^ 63 ≤ -42 < 2 ^ 63
  ∧ pretty (-42) = "-42"
  ∧ ParseInt "ParseInt" "-42" = inr (-42).
Proof.
  assert (H : - 2 ^ 63 ≤ -42 < 2 ^ 63) by lia.
  split; [exact H|]. split; [by vm_compute|].
  exact (ParseInt_reads_pretty "ParseInt" (-42) H).
Defined.

(** *** What changes the files *)

Section Handler.

Variable regexp_Compile : string → error + (string → bool).
Variable GlobToRegex : string → error + string.
Variable CheckSumFileFast : list byte → string.

Abbreviation Dir := (Dir regexp_Compile CheckSumFileFast).
Abbreviation ItemOp :=
  (ItemOp regexp_Compile GlobToRegex CheckSumFileFast).
Abbreviation requestHandler :=
  (requestHandler regexp_Compile GlobToRegex CheckSumFileFast).

(** X15: only writes and item operations on a branch which is not
    read-only change the files.  A read-only branch refuses [WriteFile],
    [WriteFileFromBuffer] and [ItemOp] with the error which names it and
    leaves the host as it is; and whatever the request, the handler of a
    read-only branch, and the handler of any branch for a request which
    is neither a write nor an item operation, leaves the file system and
    the working directory as they are. *)
Theorem files_change_by_writes_only (b : Branch) (h : state)
  (ctrl : gmap string string) (data : list byte) :
  (readonly b = true →
   let err := Some (Errorf ("Branch " +:+ Name b +:+ " is read-only")) in
   (∀ spath p offset, WriteFile b h spath p offset = (h, (0, err)))
   ∧ (∀ spath opdata, ItemOp b h spath opdata = (h, (false, err)))
   ∧ (∀ fuel spath buf,
        WriteFileFromBuffer (list byte) Buffer_Read fuel b h spath buf
        = Some (Return (h, buf, err))))
  ∧ (readonly b = true
     ∨ (get ctrl ParamAction ≠ OpWrite ∧ get ctrl ParamAction ≠ OpItemOp) →
     fs (requestHandler b h ctrl data).1 = fs h
     ∧ cwd (requestHandler b h ctrl data).1 = cwd h).
Proof.
  split.
  - intros Hro. simpl. split_and!; intros.
    + unfold WriteFile, checkReadOnly. by rewrite Hro.
    + unfold Branch.ItemOp, checkReadOnly. by rewrite Hro.
    + unfold WriteFileFromBuffer, checkReadOnly. by rewrite Hro.
  - intros Hcase. unfold Branch.requestHandler.
    set (run := if decide (get ctrl ParamAction = OpDir) then _ else _).
    assert (Hrun : fs run.1 = fs h ∧ cwd run.1 = cwd h).
    { subst run. case_decide as Hd.
      { by destruct (Branch.Dir _ _ _ _ _ _ _ _) as [[dirs fis] [e|]]. }
      case_decide as Hi.
      { destruct Hcase as [Hro|[_ Hni]]; [|done].
        unfold Branch.ItemOp, checkReadOnly. by rewrite Hro. }
      case_decide as Hr.
      { destruct (ParseInt "Atoi" _) as [e|size]; [done|].
        destruct (ParseInt "ParseInt" _) as [e|offset]; [done|].
        pose proof (pool_Get_keeps h) as (Hf & Hc & _).
        destruct (pool_Get h) as [buf h1]. simpl in Hf, Hc.
        destruct (size <? 0); [done|].
        by destruct (ReadFile _ _ _ _ _) as [[n p] err]. }
      case_decide as Hw; [|done].
      destruct Hcase as [Hro|[Hnw _]]; [|done].
      destruct (ParseInt "ParseInt" _) as [e|offset]; [done|].
      unfold WriteFile, checkReadOnly. by rewrite Hro. }
    by destruct run as [h' [[res [e|]]|]].
Qed.

Lemma get_write_ctrl (rpath o : string) :
  let ctrl : gmap string string :=
    {[ ParamAction := OpWrite; ParamPath := rpath; ParamOffset := o ]} in
  get ctrl ParamAction = OpWrite
  ∧ get ctrl ParamPath = rpath
  ∧ get ctrl ParamOffset = o.
Proof.
  unfold get. split_and!.
  - by rewrite lookup_insert_eq.
  - rewrite lookup_insert_ne by done. by rewrite lookup_insert_eq.
  - rewrite !lookup_insert_ne by done. by rewrite lookup_singleton_eq.
Qed.

Lemma get_read_ctrl (rpath o sz : string) :
  let ctrl : gmap string string :=
    {[ ParamAction := OpRead; ParamPath := rpath; ParamOffset := o;
       ParamSize := sz ]} in
  get ctrl ParamAction = OpRead
  ∧ get ctrl ParamPath = rpath
  ∧ get ctrl ParamOffset = o
  ∧ get ctrl ParamSize = sz.
Proof.
  unfold get. split_and!.
  - by rewrite lookup_insert_eq.
  - rewrite lookup_insert_ne by done. by rewrite lookup_insert_eq.
  - rewrite !lookup_insert_ne by done. by rewrite lookup_insert_eq.
  - rewrite !lookup_insert_ne by done. by rewrite lookup_singleton_eq.
Qed.

(** X16: the handler serves the requests of the tree.  For the control
    map [Tree.WriteFile] sends, the handler does the [WriteFile] of the
    branch with the path, the payload and the offset of the tree and
    answers with its count, or with its error, the absolute root path
    taken out of the text.  For the control map [Tree.ReadFile] sends for
    a regular file and an offset within it, the handler answers without
    an error, with the count the buffer size and the rest of the file
    allow and a buffer of the size asked for which starts with the bytes
    of the file from the offset on; the files stay as they are. *)
Theorem requestHandler_serves_the_tree (b : Branch) (h : state)
  (rpath : string) (offset : Z) :
  - 2 ^ 63 ≤ offset < 2 ^ 63 →
  (∀ data,
     requestHandler b h
       {[ ParamAction := OpWrite; ParamPath := rpath;
          ParamOffset := pretty offset ]} data
     = let r := WriteFile b h rpath data offset in
       (r.1,
        Return
          match r.2.2 with
          | None => (ResInt r.2.1, None)
          | Some e =>
              (ResNil,
               Some (Errorf
                       (remove_all (Abs (cwd h) (rootPath b)) 0
                          (Error e))))
          end))
  ∧ ∀ size subPath content,
      0 ≤ size < 2 ^ 63 →
      constructSubPath b h rpath = inr subPath →
      file_content h subPath = Some content →
      0 ≤ offset < Z.of_nat (List.length content) →
      ∃ h' buf,
        requestHandler b h
          {[ ParamAction := OpRead; ParamPath := rpath;
             ParamOffset := pretty offset; ParamSize := pretty size ]} []
        = (h', Return
                 (ResRead
                    (Z.min size (Z.of_nat (List.length content) - offset))
                    buf, None))
        ∧ Z.of_nat (List.length buf) = size
        ∧ take (Z.to_nat
                  (Z.min size (Z.of_nat (List.length content) - offset)))
            buf
          = take (Z.to_nat size) (drop (Z.to_nat offset) content)
        ∧ fs h' = fs h
        ∧ cwd h' = cwd h.
Proof.
  intros Hoff. split.
  - intros data. unfold Branch.requestHandler.
    destruct (get_write_ctrl rpath (pretty offset)) as (-> & -> & ->).
    rewrite (decide_False (P := OpWrite = OpDir)) by done.
    rewrite (decide_False (P := OpWrite = OpItemOp)) by done.
    rewrite (decide_False (P := OpWrite = OpRead)) by done.
    rewrite (decide_True (P := OpWrite = OpWrite)) by done.
    rewrite (ParseInt_pretty "ParseInt" offset Hoff).
    by destruct (WriteFile b h rpath data offset) as [h' [n [e|]]].
  - intros size subPath content Hsize Hsub Hfc Hin.
    apply file_content_Some in Hfc.
    unfold Branch.requestHandler.
    destruct (get_read_ctrl rpath (pretty offset) (pretty size))
      as (-> & -> & -> & ->).
    rewrite (decide_False (P := OpRead = OpDir)) by done.
    rewrite (decide_False (P := OpRead = OpItemOp)) by done.
    rewrite (decide_True (P := OpRead = OpRead)) by done.
    rewrite (ParseInt_pretty "Atoi" size) by lia.
    rewrite (ParseInt_pretty "ParseInt" offset Hoff).
    pose proof (pool_Get_keeps h) as (Hf & Hc & _).
    destruct (pool_Get h) as [buf0 h1]. simpl in Hf, Hc.
    set (buf := if Z.of_nat (List.length buf0) <? size then make size
                else buf0).
    assert (Hbuf : (Z.to_nat size ≤ List.length buf)%nat).
    { subst buf. destruct (Z.ltb_spec (Z.of_nat (List.length buf0)) size).
      - unfold make. by rewrite length_replicate.
      - lia. }
    rewrite (proj2 (Z.ltb_ge size 0)) by lia.
    set (k := Z.to_nat size) in *.
    unfold ReadFile.
    rewrite (constructSubPath_cwd b h h1 rpath Hc), Hsub.
    unfold Stat in *. rewrite Hf.
    destruct (walk (components subPath) (fs h)) as [e|x]; [done|].
    injection Hfc as ->.
    rewrite (proj2 (Z.ltb_ge offset 0)) by lia.
    rewrite (proj2 (Z.leb_gt _ _)) by lia.
    rewrite length_take, (Nat.min_l k) by lia.
    set (got := take k (drop (Z.to_nat offset) content)).
    assert (Hgot : List.length got
                   = Nat.min k (List.length content - Z.to_nat offset)).
    { unfold got. by rewrite length_take, length_drop. }
    assert (Hn : Z.of_nat (List.length got)
                 = Z.min size (Z.of_nat (List.length content) - offset))
      by lia.
    rewrite Hn. simpl.
    set (p' := got ++ drop (List.length got) (take k buf)).
    assert (Hp' : List.length p' = k).
    { unfold p'. rewrite length_app, length_drop, length_take. lia. }
    eexists _, _. split_and!; [reflexivity| | |done|done].
    + rewrite take_app_le by lia. rewrite take_ge by lia. lia.
    + rewrite take_app_le by lia. rewrite (take_ge p') by lia.
      unfold p'. rewrite <- Hn, Nat2Z.id. rewrite take_app_length.
      done.
Qed.

End Handler.

Lemma requestHandler_serves_the_tree_witness :
  - 2 ^ 63 ≤ 1 < 2 ^ 63
  ∧ 0 ≤ 8 < 2 ^ 63
  ∧ constructSubPath branch0 host0 "a" = inr "/data/foo/a"
  ∧ file_content host0 "/data/foo/a" = Some (bytes "XY")
  ∧ 0 ≤ 1 < Z.of_nat (List.length (bytes "XY"))
  ∧ ∃ h' buf,
      requestHandler re0 gl0 ck0 branch0 host0
        {[ ParamAction := OpRead; ParamPath := "a";
           ParamOffset := pretty 1; ParamSize := pretty 8 ]} []
      = (h', Return (ResRead 1 buf, None))
      ∧ take 1 buf = bytes "Y".
Proof.
  assert (H1 : - 2 ^ 63 ≤ 1 < 2 ^ 63) by lia.
  assert (H2 : 0 ≤ 8 < 2 ^ 63) by lia.
  assert (H3 : constructSubPath branch0 host0 "a" = inr "/data/foo/a")
    by by vm_compute.
  assert (H4 : file_content host0 "/data/foo/a" = Some (bytes "XY"))
    by by vm_compute.
  assert (H5 : 0 ≤ 1 < Z.of_nat (List.length (bytes "XY")))
    by (vm_compute; split; [discriminate|reflexivity]).
  destruct (requestHandler_serves_the_tree re0 gl0 ck0 branch0 host0 "a" 1
              H1) as [_ Hr].
  destruct (Hr 8 "/data/foo/a" (bytes "XY") H2 H3 H4 H5)
    as (h' & buf & Heq & _ & Ht & _).
  split; [exact H1|]. split; [exact H2|]. split; [exact H3|].
  split; [exact H4|]. split; [exact H5|].
  exists h', buf. split; [exact Heq|exact Ht].
Defined.

Lemma files_change_by_writes_only_witness :
  let b := {| rootPath := "/data/foo"; Name := "foo"; readonly := true |} in
  let ctrl : gmap string string :=
    {[ "a" := "write"; "p" := "a"; "o" := "0" ]} in
  readonly b = true
  ∧ WriteFile b host0 "a" (bytes "Z") 0
    = (host0, (0, Some (Errorf "Branch foo is read-only")))
  ∧ fs (requestHandler re0 gl0 ck0 b host0 ctrl (bytes "Z")).1 = fs host0.
Proof.
  set (b := {| rootPath := "/data/foo"; Name := "foo"; readonly := true |}).
  set (ctrl := ({[ "a" := "write"; "p" := "a"; "o" := "0" ]}
                : gmap string string)).
  assert (H1 : readonly b = true) by done.
  destruct (files_change_by_writes_only re0 gl0 ck0 b host0 ctrl
              (bytes "Z")) as [Ha Hb].
  destruct (Ha H1) as (Hw & _ & _).
  destruct (Hb (or_introl H1)) as [Hf _].
  split_and!; [exact H1|exact (Hw "a" (bytes "Z") 0)|exact Hf].
Defined.

End BranchMoreFacts.

(* ====================================================================== *)
(** ** More facts about the tree client                                    *)
(* ====================================================================== *)

Module TreeItemFacts.
Import Host Branch Tree TreeOps TreeAdmin MoreProps HostFacts Examples.
Import BranchMoreFacts.
Local Open Scope list_scope.

(** *** Mapping paths *)

Lemma split_slash_no_slash (s : string) :
  Forall (λ c, ContainsChar c "/" = false) (split_slash s).
Proof.
  induction s as [|c s IH]; simpl; [by repeat constructor|].
  case_decide as Hc; [by constructor|].
  assert (Hd : ∀ x, ContainsChar x "/" = false →
                    ContainsChar (String c x) "/" = false).
  { intros x Hx. simpl. by rewrite decide_False by congruence. }
  destruct (split_slash s) as [|x l].
  - constructor; [by apply Hd|constructor].
  - apply Forall_cons in IH as [Hx Hl]. constructor; [by apply Hd|done].
Qed.

Lemma addMapping_returns path b w :
  Forall (λ c, c ≠ "") path →
  ∀ t, ∃ t', addMapping path b w t = Return t'.
Proof.
  induction 1 as [|c path Hc _ IH]; intros t; simpl; [eauto|].
  rewrite decide_False by done.
  destruct (IH (default (TreeItem [] [] []) (assoc c (children t))))
    as [ch ->]. eauto.
Qed.

Lemma createMappingPath_no_slash (path : string) :
  Forall (λ c, c ≠ "" ∧ ContainsChar c "/" = false)
    (createMappingPath path).
Proof.
  unfold createMappingPath, components.
  apply Forall_forall. intros c [Hne Hin]%list_elem_of_filter.
  split; [done|].
  by apply (proj1 (Forall_forall _ _) (split_slash_no_slash path)).
Qed.

Lemma addMapping_createMappingPath (path b : string) (w : bool)
  (t : treeItem) :
  ∃ t', addMapping (createMappingPath path) b w t = Return t'.
Proof.
  apply addMapping_returns.
  eapply Forall_impl; [apply createMappingPath_no_slash|].
  by intros c [? _].
Qed.

(** X17: [createMappingPath] gives the components of a path: none of them
    is empty and none holds a slash; so [addMapping], which refuses empty
    components, always returns for such a path. *)
Theorem createMappingPath_components (path : string) (b : string)
  (w : bool) (t : treeItem) :
  Forall (λ c, c ≠ "" ∧ ContainsChar c "/" = false)
    (createMappingPath path)
  ∧ ∃ t', addMapping (createMappingPath path) b w t = Return t'.
Proof.
  split; [apply createMappingPath_no_slash|].
  apply addMapping_createMappingPath.
Qed.

(** *** Items along a path *)

Lemma assoc_put_entry_ne {A} (k k' : string) (v : A) l :
  k ≠ k' → assoc k (put_entry k' v l) = assoc k l.
Proof.
  intros Hk. induction l as [|[k0 v0] l IH]; simpl.
  - by rewrite decide_False.
  - case_decide as H0.
    + subst k0. simpl. by rewrite !decide_False.
    + destruct (String.ltb k' k0); simpl.
      * by rewrite (decide_False (P := k = k')).
      * by rewrite IH.
Qed.

Lemma branches_at_empty q : branches_at q (TreeItem [] [] []) = ([], []).
Proof. by destruct q. Qed.

Lemma branches_at_cons c q t :
  branches_at (c :: q) t
  = match assoc c (children t) with
    | Some ch => branches_at q ch
    | None => ([], [])
    end.
Proof. unfold branches_at. simpl. by destruct (assoc c (children t)). Qed.

Lemma addMapping_branches_at path b w :
  ∀ t t' q,
    addMapping path b w t = Return t' →
    branches_at q t'
    = if decide (q = path)
      then ((branches_at path t).1 ++ [b], (branches_at path t).2 ++ [w])
      else branches_at q t.
Proof.
  induction path as [|c path IH]; intros t t' q; simpl.
  - intros [= <-]. destruct q as [|c q]; [done|].
    rewrite decide_False by done. by rewrite !branches_at_cons.
  - case_decide as Hc; [done|].
    set (child := default (TreeItem [] [] []) (assoc c (children t))).
    destruct (addMapping path b w child) as [ch'|] eqn:Ha; [|done].
    intros [= <-]. destruct q as [|c2 q].
    { rewrite decide_False by done. done. }
    rewrite !branches_at_cons. simpl.
    destruct (decide (c2 = c)) as [->|Hne].
    + rewrite assoc_put_entry_eq. rewrite (IH child ch' q Ha).
      assert (Hchild : ∀ q', branches_at q' child
                = match assoc c (children t) with
                  | Some ch => branches_at q' ch
                  | None => ([], [])
                  end).
      { intros q'. subst child.
        destruct (assoc c (children t)); [done|apply branches_at_empty]. }
      destruct (decide (q = path)) as [->|Hq].
      * rewrite decide_True by done. by rewrite Hchild.
      * rewrite decide_False by congruence. apply Hchild.
    + rewrite assoc_put_entry_ne by done.
      rewrite decide_False by congruence. done.
Qed.

(** X18: [addMapping] adds the branch, with its writable flag, behind the
    branches mapped at the path, and changes the branches of no other
    path. *)
Theorem addMapping_maps_one_path (path : list string) (b : string)
  (w : bool) (t : treeItem) :
  Forall (λ c, c ≠ "") path →
  ∃ t',
    addMapping path b w t = Return t'
    ∧ branches_at path t'
      = ((branches_at path t).1 ++ [b], (branches_at path t).2 ++ [w])
    ∧ ∀ q, q ≠ path → branches_at q t' = branches_at q t.
Proof.
  intros Hp. destruct (addMapping_returns path b w Hp t) as [t' Ht].
  exists t'. split_and!; [done| |].
  - rewrite (addMapping_branches_at path b w t t' path Ht).
    by rewrite decide_True.
  - intros q Hq. rewrite (addMapping_branches_at path b w t t' q Ht).
    by rewrite decide_False.
Qed.

Lemma addMapping_maps_one_path_witness :
  Forall (λ c, c ≠ "") ["a"; "b"]
  ∧ ∃ t',
      addMapping ["a"; "b"] "foo" true tree0 = Return t'
      ∧ branches_at ["a"; "b"] t' = (["foo"], [true])
      ∧ branches_at [] t' = (["b1"; "b2"], [true; true]).
Proof.
  assert (H : Forall (λ c, c ≠ "") ["a"; "b"]) by by repeat constructor.
  destruct (addMapping_maps_one_path ["a"; "b"] "foo" true tree0 H)
    as (t' & Ht & Hb & Hq).
  split; [exact H|]. exists t'. split_and!; [exact Ht|exact Hb|].
  by rewrite (Hq [] ltac:(done)).
Defined.

(** *** The traversal *)

Lemma findPathBranches_nil chs bs ws treePath :
  findPathBranches (TreeItem chs bs ws) treePath [] false
  = [{| v_item := TreeItem chs bs ws; v_treePath := treePath;
        v_branchPath := []; v_branches := bs; v_writable := ws |}].
Proof. done. Qed.

Lemma findPathBranches_cons chs bs ws treePath c rest recursive :
  findPathBranches (TreeItem chs bs ws) treePath (c :: rest) recursive
  = {| v_item := TreeItem chs bs ws; v_treePath := treePath;
       v_branchPath := c :: rest; v_branches := bs; v_writable := ws |}
    :: match assoc c chs with
       | Some ch => findPathBranches ch (Join [treePath; c]) rest recursive
       | None => []
       end.
Proof.
  simpl. f_equal.
  induction chs as [|[n ch] chs IH]; simpl; [done|].
  destruct (decide (n = c)) as [->|Hn].
  - by rewrite decide_True.
  - by rewrite decide_False by congruence.
Qed.

Lemma findPathBranches_along path :
  ∀ t treePath k,
    match findPathBranches t treePath path false !! k with
    | Some v =>
        item_at (take k path) t = Some (v_item v)
        ∧ (k ≤ List.length path)%nat
        ∧ v_branchPath v = drop k path
        ∧ v_branches v = remoteBranches (v_item v)
        ∧ v_writable v = remoteBranchWriting (v_item v)
    | None =>
        (List.length path < k)%nat ∨ item_at (take k path) t = None
    end.
Proof.
  induction path as [|c rest IH]; intros [chs bs ws] treePath k.
  - rewrite findPathBranches_nil. destruct k as [|k]; simpl.
    + by split_and!.
    + left. lia.
  - rewrite findPathBranches_cons. destruct k as [|k].
    + simpl. split_and!; try done. lia.
    + cbn [lookup list_lookup take item_at children drop].
      destruct (assoc c chs) as [ch|].
      * specialize (IH ch (Join [treePath; c]) k).
        destruct (findPathBranches ch _ rest false !! k) as [v|].
        -- destruct IH as (H1 & H2 & H3 & H4 & H5).
           split_and!; try done. simpl. lia.
        -- destruct IH as [IH|IH]; [left; simpl; lia|by right].
      * by right.
Qed.

(** X19: without recursion [findPathBranches] visits the items along the
    path, the root first, as far as the tree has them: the visit number
    [k] is that of the item which the first [k] components of the path
    lead to, with these components taken off the path and with the
    branches and the writable flags of the item; and there is a visit for
    each such item. *)
Theorem findPathBranches_visits_the_path (t : treeItem)
  (treePath : string) (path : list string) :
  let vs := findPathBranches t treePath path false in
  (∀ k v,
     vs !! k = Some v →
     item_at (take k path) t = Some (v_item v)
     ∧ v_branchPath v = drop k path
     ∧ v_branches v = remoteBranches (v_item v)
     ∧ v_writable v = remoteBranchWriting (v_item v))
  ∧ (∀ k it,
       (k ≤ List.length path)%nat →
       item_at (take k path) t = Some it →
       ∃ v, vs !! k = Some v ∧ v_item v = it)
  ∧ (1 ≤ List.length vs ≤ S (List.length path))%nat
  ∧ (v_item <$> head vs) = Some t.
Proof.
  intros vs. split_and!.
  - intros k v Hv.
    pose proof (findPathBranches_along path t treePath k) as H.
    fold vs in H. rewrite Hv in H. destruct H as (? & ? & ? & ? & ?).
    by split_and!.
  - intros k it Hk Hit.
    pose proof (findPathBranches_along path t treePath k) as H.
    fold vs in H. destruct (vs !! k) as [v|].
    + destruct H as (H1 & _). exists v. split; [done|]. congruence.
    + destruct H as [H|H]; [lia|congruence].
  - subst vs. destruct t as [chs bs ws], path as [|c rest]; simpl; lia.
  - apply Nat.nlt_ge. intros Hlt.
    destruct (lookup_lt_is_Some_2 vs (S (List.length path)) Hlt) as [v Hv].
    pose proof (findPathBranches_along path t treePath
                  (S (List.length path))) as H.
    fold vs in H. rewrite Hv in H. lia.
  - pose proof (findPathBranches_along path t treePath 0%nat) as H.
    fold vs in H. rewrite <- head_lookup in H.
    destruct (head vs) as [v|]; simpl.
    + destruct H as (H1 & _). simpl in H1. congruence.
    + destruct H as [H|H]; [lia|done].
Qed.

(** *** Writable flags *)

Lemma treeItem_ind' (P : treeItem → Prop) :
  (∀ chs bs ws,
     Forall (λ e : string * treeItem, P e.2) chs →
     P (TreeItem chs bs ws)) →
  ∀ t, P t.
Proof.
  intros Hd. fix IH 1. intros [chs bs ws].
  apply Hd. induction chs as [|[k ch] chs IHchs]; constructor;
    [apply IH|apply IHchs].
Qed.

Lemma aligned_TreeItem chs bs ws :
  aligned (TreeItem chs bs ws)
  ↔ List.length bs = List.length ws
    ∧ Forall (λ e : string * treeItem, aligned e.2) chs.
Proof.
  simpl. apply and_iff_compat_l.
  induction chs as [|[k ch] chs IH]; simpl.
  - split; [constructor|done].
  - rewrite Forall_cons. simpl. by rewrite IH.
Qed.

Lemma Forall_put_entry {A} (P : A → Prop) (k : string) (v : A) l :
  P v →
  Forall (λ e : string * A, P e.2) l →
  Forall (λ e : string * A, P e.2) (put_entry k v l).
Proof.
  intros Hv. induction 1 as [|[k0 v0] l H0 Hl IH]; simpl.
  - by repeat constructor.
  - case_decide; [by constructor|].
    destruct (String.ltb k k0); by repeat constructor.
Qed.

Lemma addMapping_aligned path b w :
  ∀ t t', aligned t → addMapping path b w t = Return t' → aligned t'.
Proof.
  induction path as [|c path IH]; intros [chs bs ws] t' Ha; simpl.
  - intros [= <-]. apply aligned_TreeItem in Ha as [Hl Hc].
    apply aligned_TreeItem. split; [|done].
    rewrite !length_app. simpl. lia.
  - case_decide; [done|].
    set (child := default (TreeItem [] [] []) (assoc c chs)).
    destruct (addMapping path b w child) as [ch'|] eqn:Hm; [|done].
    intros [= <-]. apply aligned_TreeItem in Ha as [Hl Hc].
    apply aligned_TreeItem. split; [done|].
    apply Forall_put_entry; [|done].
    apply (IH child ch'); [|done]. subst child.
    destruct (assoc c chs) as [ch|] eqn:Hs; simpl.
    + apply assoc_elem_of in Hs.
      by apply (proj1 (Forall_forall _ _) Hc (c, ch)).
    + done.
Qed.

Lemma findPathBranches_aligned t :
  aligned t →
  ∀ treePath path recursive,
    Forall visit_aligned (findPathBranches t treePath path recursive).
Proof.
  induction t as [chs bs ws IH] using treeItem_ind'.
  intros [Hl Hc]%aligned_TreeItem treePath path recursive.
  destruct path as [|c rest].
  - simpl. constructor; [done|].
    destruct recursive; [|constructor].
    clear Hl. induction chs as [|[n ch] chs IHchs]; [constructor|].
    apply Forall_cons in IH as [IHch IH].
    apply Forall_cons in Hc as [Hch Hc].
    apply Forall_app. split; [by apply IHch|by apply IHchs].
  - rewrite findPathBranches_cons. constructor; [done|].
    destruct (assoc c chs) as [ch|] eqn:Hs; [|constructor].
    apply assoc_elem_of in Hs.
    apply (proj1 (Forall_forall _ _) IH (c, ch) Hs).
    by apply (proj1 (Forall_forall _ _) Hc (c, ch)).
Qed.

Section NoPanic.

Variable World : Type.
Variable SendData :
  World → string → gmap string string → list byte →
  World * (list byte * option error).
Variable decode_int : list byte → error + Z.
Variable decode_bool : list byte → error + bool.

Abbreviation WriteFile := (Tree.WriteFile World SendData decode_int).
Abbreviation WriteFile_branch :=
  (Tree.WriteFile_branch World SendData decode_int).
Abbreviation WriteFile_visit :=
  (Tree.WriteFile_visit World SendData decode_int).
Abbreviation ItemOp := (TreeOps.ItemOp World SendData decode_bool).
Abbreviation ItemOp_branch :=
  (TreeOps.ItemOp_branch World SendData decode_bool).
Abbreviation ItemOp_visit :=
  (TreeOps.ItemOp_visit World SendData decode_bool).

Lemma WriteFile_branches_return file p offset branchPath writable :
  ∀ (l : list string) (k : nat) st,
    (k + List.length l ≤ List.length writable)%nat →
    ∃ st',
      fold_left (WriteFile_branch file p offset branchPath writable)
        (imap (λ i b, ((k + i)%nat, b)) l) (Some st) = Some st'.
Proof.
  induction l as [|b l IH]; intros k st Hk; [simpl; eauto|].
  rewrite imap_cons. cbn [fold_left].
  assert (Hstep : ∃ st1,
            WriteFile_branch file p offset branchPath writable (Some st)
              ((k + 0)%nat, b) = Some st1).
  { unfold Tree.WriteFile_branch. destruct (w_err World st); [eauto|].
    simpl in Hk.
    destruct (lookup_lt_is_Some_2 writable (k + 0)%nat) as [x Hx]; [lia|].
    simpl. rewrite Hx. destruct x; [|eauto].
    destruct (SendData _ _ _ _) as [w' [res err]].
    destruct err; [eauto|]. destruct (decode_int res); eauto. }
  destruct Hstep as [st1 ->].
  rewrite (imap_ext _ (λ i b, ((S k + i)%nat, b))).
  - apply IH. simpl in Hk. lia.
  - intros i x _. simpl. f_equal. lia.
Qed.

Lemma WriteFile_visits_return file p offset :
  ∀ vs st,
    Forall visit_aligned vs →
    ∃ st', fold_left (WriteFile_visit file p offset) vs (Some st) = Some st'.
Proof.
  induction vs as [|v vs IH]; intros st Hvs; simpl; [eauto|].
  apply Forall_cons in Hvs as [Hv Hvs].
  destruct (WriteFile_branches_return file p offset (v_branchPath v)
              (v_writable v) (v_branches v) 0%nat st) as [st1 H1].
  { rewrite Hv. lia. }
  unfold Tree.WriteFile_visit. simpl in H1. rewrite H1. by apply IH.
Qed.

Lemma ItemOp_branches_return data branchPath writable :
  ∀ (l : list string) (k : nat) st,
    (k + List.length l ≤ List.length writable)%nat →
    ∃ st',
      fold_left (ItemOp_branch data branchPath writable)
        (imap (λ i b, ((k + i)%nat, b)) l) (Some st) = Some st'.
Proof.
  induction l as [|b l IH]; intros k st Hk; [simpl; eauto|].
  rewrite imap_cons. cbn [fold_left].
  assert (Hstep : ∃ st1,
            ItemOp_branch data branchPath writable (Some st)
              ((k + 0)%nat, b) = Some st1).
  { unfold TreeOps.ItemOp_branch. simpl in Hk.
    destruct (lookup_lt_is_Some_2 writable (k + 0)%nat) as [x Hx]; [lia|].
    simpl. rewrite Hx. destruct x; [|eauto].
    destruct (i_err World st); [eauto|].
    destruct (SendData _ _ _ _) as [w' [res err]].
    destruct err as [[]|]; try destruct isNotExist; eauto.
    destruct (decode_bool res); eauto. }
  destruct Hstep as [st1 ->].
  rewrite (imap_ext _ (λ i b, ((S k + i)%nat, b))).
  - apply IH. simpl in Hk. lia.
  - intros i x _. simpl. f_equal. lia.
Qed.

Lemma ItemOp_visits_return data :
  ∀ vs st,
    Forall visit_aligned vs →
    ∃ st', fold_left (ItemOp_visit data) vs (Some st) = Some st'.
Proof.
  induction vs as [|v vs IH]; intros st Hvs; simpl; [eauto|].
  apply Forall_cons in Hvs as [Hv Hvs].
  destruct (ItemOp_branches_return data (v_branchPath v)
              (v_writable v) (v_branches v) 0%nat st) as [st1 H1].
  { rewrite Hv. lia. }
  unfold TreeOps.ItemOp_visit. simpl in H1. rewrite H1. by apply IH.
Qed.

(** X20: a tree whose mappings were added by [addMapping] has a writable
    flag for each mapped branch, and on such a tree [WriteFile] and
    [ItemOp] always return: no index into the flags is out of range.
    The empty item has the property, and [addMapping] keeps it. *)
Theorem mapped_trees_never_panic (root : treeItem) (w : World) :
  aligned root →
  aligned emptyItem
  ∧ (∀ path b wr t', addMapping path b wr root = Return t' → aligned t')
  ∧ (∀ spath p offset, ∃ r, WriteFile root w spath p offset = Return r)
  ∧ (∀ dir opdata, ∃ r, ItemOp root w dir opdata = Return r).
Proof.
  intros Ha. split_and!.
  - by apply aligned_TreeItem.
  - intros path b wr t'. by apply addMapping_aligned.
  - intros spath p offset. unfold Tree.WriteFile.
    destruct (Split spath) as [dir file].
    destruct (WriteFile_visits_return file p offset
                (findPathBranches root dir (createMappingPath dir) false)
                {| w_world := w; w_n := 0; w_err := None;
                   w_totalCount := 0; w_ignoreCount := 0 |})
      as [st ->]; [by apply findPathBranches_aligned|].
    destruct (_ && _); eauto.
  - intros dir opdata. unfold TreeOps.ItemOp.
    match goal with
    | |- context [fold_left ?f ?vs (Some ?st0)] =>
        destruct (ItemOp_visits_return
                    (<[ParamAction := OpItemOp]> opdata) vs st0)
          as [st ->]; [by apply findPathBranches_aligned|]
    end.
    eauto.
Qed.

End NoPanic.

Lemma mapped_trees_never_panic_witness :
  aligned tree0
  ∧ ∃ r, Tree.WriteFile unit SendData0 decode_int0 tree0 tt "/x"
           (bytes "hi") 0 = Return r.
Proof.
  assert (H : aligned tree0) by done.
  destruct (mapped_trees_never_panic unit SendData0 decode_int0
              (λ _, inr true) tree0 tt H) as (_ & _ & Hw & _).
  split; [exact H|]. exact (Hw "/x" (bytes "hi") 0).
Defined.

End TreeItemFacts.

Module TreeClientFacts.
Import Host Branch Tree TreeOps Props MoreProps TreeFacts Examples.
Local Open Scope list_scope.

Section Client.

Variable regexp_Compile : string → error + (string → bool).
Variable World : Type.
Variable SendData :
  World → string → gmap string string → list byte →
  World * (list byte * option error).
Variable decode_dir :
  list byte → error + (list string * list (list FileInfo)).
Variable decode_bool : list byte → error + bool.

Abbreviation Dir := (Tree.Dir regexp_Compile World SendData decode_dir).
Abbreviation Stat := (TreeOps.Stat regexp_Compile World SendData decode_dir).
Abbreviation ItemOp := (TreeOps.ItemOp World SendData decode_bool).
Abbreviation ItemOp_branch :=
  (TreeOps.ItemOp_branch World SendData decode_bool).
Abbreviation ItemOp_visit :=
  (TreeOps.ItemOp_visit World SendData decode_bool).

(** *** Item operations *)

Lemma ItemOp_branches_read_only data branchPath :
  ∀ (l : list string) (k : nat) (pre : list bool) st,
    List.length pre = k →
    fold_left
      (ItemOp_branch data branchPath
         (pre ++ replicate (List.length l) false))
      (imap (λ i b, ((k + i)%nat, b)) l) (Some st)
    = Some {| i_world := i_world World st; i_ret := i_ret World st;
              i_err := i_err World st;
              i_totalCount :=
                i_totalCount World st + Z.of_nat (List.length l);
              i_ignoreCount :=
                i_ignoreCount World st + Z.of_nat (List.length l);
              i_notFoundCount := i_notFoundCount World st |}.
Proof.
  induction l as [|b l IH]; intros k pre st Hk.
  - simpl. destruct st. simpl. f_equal. f_equal; lia.
  - rewrite imap_cons. cbn [fold_left].
    assert (Hstep :
      ItemOp_branch data branchPath
        (pre ++ replicate (List.length (b :: l)) false) (Some st)
        ((k + 0)%nat, b)
      = Some {| i_world := i_world World st; i_ret := i_ret World st;
                i_err := i_err World st;
                i_totalCount := i_totalCount World st + 1;
                i_ignoreCount := i_ignoreCount World st + 1;
                i_notFoundCount := i_notFoundCount World st |}).
    { unfold TreeOps.ItemOp_branch. cbn [fst].
      rewrite lookup_app_r by lia.
      replace (k + 0 - List.length pre)%nat with 0%nat by lia. done. }
    rewrite Hstep.
    rewrite (imap_ext _ (λ i b, ((S k + i)%nat, b)))
      by (intros i x _; simpl; f_equal; lia).
    replace (pre ++ replicate (List.length (b :: l)) false)
      with ((pre ++ [false]) ++ replicate (List.length l) false)
      by (by rewrite <- app_assoc).
    rewrite IH by (rewrite length_app; simpl; lia).
    simpl. f_equal. f_equal; lia.
Qed.

Lemma ItemOp_visits_read_only data :
  ∀ vs st,
    Forall visit_read_only vs →
    ∃ n,
      fold_left (ItemOp_visit data) vs (Some st)
      = Some {| i_world := i_world World st; i_ret := i_ret World st;
                i_err := i_err World st;
                i_totalCount := i_totalCount World st + n;
                i_ignoreCount := i_ignoreCount World st + n;
                i_notFoundCount := i_notFoundCount World st |}.
Proof.
  induction vs as [|v vs IH]; intros st Hvs.
  - exists 0. simpl. destruct st. simpl. f_equal. f_equal; lia.
  - apply Forall_cons in Hvs as [Hv Hvs]. cbn [fold_left].
    unfold TreeOps.ItemOp_visit at 2. rewrite Hv.
    pose proof (ItemOp_branches_read_only data (v_branchPath v)
                  (v_branches v) 0%nat [] st eq_refl) as H1.
    simpl in H1. rewrite H1.
    match goal with
    | |- context [fold_left _ vs (Some ?s)] =>
        destruct (IH s Hvs) as [n ->]
    end.
    simpl.
    exists (Z.of_nat (List.length (v_branches v)) + n).
    f_equal. f_equal; lia.
Qed.

(** X21: [ItemOp] needs a branch which is mounted as writable: where all
    branches the traversal finds for the path are mounted as not
    writable, and where it finds none, the operation fails with the error
    which says so, returns false, and nothing is sent to any branch. *)
Theorem ItemOp_needs_a_writable_branch (root : treeItem) (w : World)
  (dir : string) (opdata : gmap string string) :
  Forall visit_read_only
    (findPathBranches root dir (createMappingPath dir)
       (ItemOp_recurse opdata)) →
  ItemOp root w dir opdata = Return (w, (false, Some ErrNotWritable)).
Proof.
  intros Hvs. unfold TreeOps.ItemOp. fold (ItemOp_recurse opdata).
  destruct (ItemOp_visits_read_only (<[ParamAction := OpItemOp]> opdata)
              _ {| i_world := w; i_ret := false; i_err := None;
                   i_totalCount := 0; i_ignoreCount := 0;
                   i_notFoundCount := 0 |} Hvs) as [n ->].
  simpl. by rewrite bool_decide_eq_true_2.
Qed.

(** *** Stat *)

Lemma Dir_returns (root : treeItem) (w : World) (dir pattern : string)
  (recursive checksums : bool) :
  answers_well_formed decode_dir →
  ∃ w' dirs fis err,
    Dir root w dir pattern recursive checksums
    = (w', Return (dirs, fis, err)).
Proof.
  intros Hwf.
  destruct (regexp_Compile pattern) as [e|re] eqn:Hre.
  { unfold Tree.Dir. rewrite Hre. by eauto 10. }
  pose proof (Dir_cases regexp_Compile World SendData decode_dir root w dir
                pattern recursive checksums re Hre) as Hc.
  destruct (Dir root w dir pattern recursive checksums)
    as [w' [[[dirs fis] err]|]]; [by eauto 10|].
  destruct Hc as (w0 & b & ctrl & w1 & res & bdirs & bfis & _ & Hdec & Hlt).
  destruct (Hwf _ _ _ Hdec) as [Hle _]. lia.
Qed.

(** X22: [Stat] gives an info or an error.  Where the answers of the
    branches are well formed it returns; the info it gives carries the
    name asked for, the last component of the path; and where it gives no
    info it gives an error, the remote error of a missing file if the
    listing gave none. *)
Theorem Stat_gives_info_or_error (root : treeItem) (w : World)
  (item : string) :
  answers_well_formed decode_dir →
  ∃ w' fi err,
    Stat root w item = (w', Return (fi, err))
    ∧ (∀ x, fi = Some x → FiName x = (Split item).2)
    ∧ (fi = None → err ≠ None)
    ∧ ∀ dirs fis,
        Dir root w (Split item).1 (Split item).2 false true
        = (w', Return (dirs, fis, None)) →
        fi = None → err = Some ErrRemoteNotExist.
Proof.
  intros Hwf. unfold TreeOps.Stat.
  destruct (Split item) as [dir file]. simpl.
  destruct (Dir_returns root w dir file false true Hwf)
    as (w' & dirs & fis & err & ->).
  set (found := match fis with
                | [l] => List.find (λ fi, bool_decide (FiName fi = file)) l
                | _ => None
                end).
  destruct found as [fi|] eqn:Hfound.
  - exists w', (Some fi), err. split_and!; try done.
    intros x [= <-]. subst found.
    destruct fis as [|l [|]]; try done.
    apply find_some in Hfound as [_ Hn].
    by apply bool_decide_eq_true in Hn.
  - exists w', None. eexists. split_and!; [done|done| |].
    + by destruct err.
    + by intros ? ? [= _ _ ->] _.
Qed.

End Client.

Lemma ItemOp_needs_a_writable_branch_witness :
  let root := TreeItem [] ["b1"; "b2"] [false; false] in
  let opdata : gmap string string :=
    {[ ItemOpAction := ItemOpActDelete; ItemOpName := "x" ]} in
  Forall visit_read_only
    (findPathBranches root "/" (createMappingPath "/")
       (ItemOp_recurse opdata))
  ∧ TreeOps.ItemOp unit SendData0 (λ _, inr true) root tt "/" opdata
    = Return (tt, (false, Some ErrNotWritable)).
Proof.
  set (root := TreeItem [] ["b1"; "b2"] [false; false]).
  set (opdata := ({[ ItemOpAction := ItemOpActDelete; ItemOpName := "x" ]}
                  : gmap string string)).
  assert (H : Forall visit_read_only
                (findPathBranches root "/" (createMappingPath "/")
                   (ItemOp_recurse opdata))).
  { vm_compute. by repeat constructor. }
  split; [exact H|].
  exact (ItemOp_needs_a_writable_branch unit SendData0 (λ _, inr true)
           root tt "/" opdata H).
Defined.

Lemma Stat_gives_info_or_error_witness :
  answers_well_formed decode_dir1
  ∧ TreeOps.Stat re0 unit SendData1 decode_dir1 tree1 tt "/test2"
    = (tt, Return (Some (file_info "test2" 10), None))
  ∧ ∃ w' fi err,
      TreeOps.Stat re0 unit SendData1 decode_dir1 tree1 tt "/nothing"
      = (w', Return (fi, err))
      ∧ (fi = None → err ≠ None).
Proof.
  assert (H : answers_well_formed decode_dir1)
    by exact decode_dir1_well_formed.
  split_and!; [exact H|by vm_compute|].
  destruct (Stat_gives_info_or_error re0 unit SendData1 decode_dir1 tree1
              tt "/nothing" H) as (w' & fi & err & Hs & _ & Hn & _).
  by exists w', fi, err.
Defined.

End TreeClientFacts.

Module TreeAdminFacts.
Import Node NodePeers Tree TreeAdmin MoreProps NodeMoreFacts TreeItemFacts.
Import Examples.
Local Open Scope list_scope.

(** *** Mappings *)

Lemma AddMapping_other_peers dir b w m :
  ∀ l st, b ∉ l → fold_left (AddMapping_peer dir b w m) l st = st.
Proof.
  induction l as [|p l IH]; intros st Hb; [done|].
  apply not_elem_of_cons in Hb as [Hne Hb]. cbn [fold_left].
  rewrite IH by done. unfold AddMapping_peer.
  destruct st as [[t e]|]; [|done]. by rewrite decide_False.
Qed.

Lemma AddMapping_one_peer dir b w m :
  ∀ l st,
    NoDup l → b ∈ l →
    fold_left (AddMapping_peer dir b w m) l st
    = AddMapping_peer dir b w m st b.
Proof.
  induction l as [|p l IH]; intros st Hnd Hb; [by apply elem_of_nil in Hb|].
  apply NoDup_cons in Hnd as [Hp Hnd]. cbn [fold_left].
  destruct (decide (p = b)) as [->|Hne].
  - by apply AddMapping_other_peers.
  - apply elem_of_cons in Hb as [->|Hb]; [done|].
    rewrite IH by done. f_equal. unfold AddMapping_peer.
    destruct st as [[t e]|]; [|done]. by rewrite decide_False.
Qed.

(** X23: [AddMapping] maps the branches the client knows.  It always
    returns and records the mapping among all mappings; for a branch
    which is a registered peer it adds the mapping to the tree, exactly
    once, and to the active mappings, without an error; for any other
    branch it leaves the tree and the active mappings as they are and
    returns the error of an unknown target. *)
Theorem AddMapping_maps_known_branches (t : Tree) (dir b : string)
  (w : bool) :
  let m := {| m_path := dir; m_branch := b; m_writeable := w |} in
  ∃ t' err,
    AddMapping t dir b w = Return (t', err)
    ∧ client t' = client t
    ∧ branches t' = branches t
    ∧ branchesAll t' = branchesAll t
    ∧ mappingAll t' = mappingAll t ++ [m]
    ∧ match peers (client t) !! b with
      | Some _ =>
          err = None
          ∧ addMapping (createMappingPath dir) b w (root t)
            = Return (root t')
          ∧ mapping t' = mapping t ++ [m]
      | None =>
          err = Some (TypeError ErrUnknownTarget)
          ∧ root t' = root t
          ∧ mapping t' = mapping t
      end.
Proof.
  intros m. unfold AddMapping. fold m.
  pose proof (Peers_elem_of (client t) b) as Hin.
  destruct (peers (client t) !! b) as [rpc|] eqn:Hp.
  - rewrite AddMapping_one_peer;
      [|apply Peers_NoDup|apply Hin; by eexists].
    unfold AddMapping_peer. rewrite decide_True by done. simpl.
    destruct (addMapping_createMappingPath dir b w (root t)) as [r Hr].
    rewrite Hr. eexists _, _. by split_and!.
  - rewrite AddMapping_other_peers.
    + eexists _, _. by split_and!.
    + intros Hb. apply Hin in Hb. by destruct Hb.
Qed.

(** *** Resetting *)

Lemma RemovePeer_all (l : list string) :
  ∀ c k,
    peers (fold_left RemovePeer l c) !! k
    = (if bool_decide (k ∈ l) then None else peers c !! k)
    ∧ conns (fold_left RemovePeer l c) !! k
      = (if bool_decide (k ∈ l) then None else conns c !! k)
    ∧ fingerprints (fold_left RemovePeer l c) !! k
      = (if bool_decide (k ∈ l) then None else fingerprints c !! k).
Proof.
  induction l as [|p l IH]; intros c k; [done|].
  cbn [fold_left]. destruct (IH (RemovePeer c p) k) as (-> & -> & ->).
  unfold RemovePeer. simpl.
  destruct (decide (k = p)) as [->|Hne].
  - rewrite !lookup_delete_eq.
    rewrite (bool_decide_eq_true_2 (p ∈ p :: l)) by apply list_elem_of_here.
    by destruct (bool_decide (p ∈ l)).
  - rewrite !lookup_delete_ne by done.
    destruct (decide (k ∈ l)) as [Hk|Hk].
    + rewrite !bool_decide_eq_true_2; [done|by apply list_elem_of_further|done].
    + rewrite !bool_decide_eq_false_2; [done| |done].
      by intros [?|?]%elem_of_cons.
Qed.

(** X24: [Reset] with the branches flag forgets everything: no peer is
    registered afterwards, no connection and no expected fingerprint of a
    registered peer is kept, and the tree, the branches and the mappings
    are empty.  Without the flag the client and the branches stay, and
    the tree and the mappings are emptied. *)
Theorem Reset_forgets (t : Tree) :
  peers (client (Reset t true)) = ∅
  ∧ (Peers (client (Reset t true))).1 = []
  ∧ (∀ k, is_Some (peers (client t) !! k) →
          conns (client (Reset t true)) !! k = None
          ∧ fingerprints (client (Reset t true)) !! k = None)
  ∧ (∀ bs, root (Reset t bs) = emptyItem
           ∧ mapping (Reset t bs) = []
           ∧ mappingAll (Reset t bs) = [])
  ∧ branches (Reset t true) = []
  ∧ branchesAll (Reset t true) = []
  ∧ client (Reset t false) = client t
  ∧ branches (Reset t false) = branches t
  ∧ branchesAll (Reset t false) = branchesAll t.
Proof.
  assert (Hp : peers (client (Reset t true)) = ∅).
  { apply map_eq. intros k. rewrite lookup_empty.
    change (peers (fold_left RemovePeer (Peers (client t)).1 (client t))
              !! k = None).
    destruct (RemovePeer_all (Peers (client t)).1 (client t) k) as (-> & _).
    case_bool_decide as Hk; [done|].
    destruct (peers (client t) !! k) eqn:E; [|done].
    destruct Hk. apply Peers_elem_of. by eexists. }
  split_and!; try done.
  - assert (H : ∀ x, x ∉ (Peers (client (Reset t true))).1).
    { intros x Hx. apply Peers_elem_of in Hx. rewrite Hp in Hx.
      rewrite lookup_empty in Hx. by destruct Hx. }
    destruct ((Peers (client (Reset t true))).1) as [|x l]; [done|].
    destruct (H x). apply list_elem_of_here.
  - intros k Hk.
    change (conns (fold_left RemovePeer (Peers (client t)).1 (client t))
              !! k = None
            ∧ fingerprints
                (fold_left RemovePeer (Peers (client t)).1 (client t))
                !! k = None).
    destruct (RemovePeer_all (Peers (client t)).1 (client t) k)
      as (_ & -> & ->).
    rewrite bool_decide_eq_true_2; [done|]. by apply Peers_elem_of.
Qed.

(** *** Branches *)

Section Network.

Variable sha256_hex : list byte → string.
Variable World : Type.
Variable dial : World → string → World * DialResult.
Variable call :
  World → Conn → RPCFunction → string → RufsNodeToken →
  option RequestArgs → World * (Response * option error).

Abbreviation AddBranch := (AddBranch sha256_hex World dial call).
Abbreviation SendPing := (Node.SendPing sha256_hex World dial call).

(** X25: [AddBranch] records every branch, and makes active the branches
    which answered and were accepted.  The branch is added to all
    branches in every case, with its name and address.  Without an error
    it is added to the active branches too, it is a registered peer under
    its address, and the fingerprint recorded for it, in both lists and
    with the client, is the one the ping observed, which is the given
    fingerprint if one was given.  With an error, or a panic, the active
    branches and the peers of the client are as before and the recorded
    fingerprint is the given one.  The tree and the mappings stay. *)
Theorem AddBranch_records_and_activates (t : Tree) (w : World)
  (branchName branchRPC branchFingerprint : string) :
  let r := AddBranch t w branchName branchRPC branchFingerprint in
  let t' := r.1.1 in
  let ping := SendPing (client t) w branchName branchRPC in
  ∃ m,
    branchesAll t' = branchesAll t ++ [m]
    ∧ m !! "branch" = Some branchName
    ∧ m !! "rpc" = Some branchRPC
    ∧ root t' = root t
    ∧ mapping t' = mapping t
    ∧ mappingAll t' = mappingAll t
    ∧ r.1.2 = ping.1.2
    ∧ match r.2 with
      | Return None =>
          ∃ ret fp,
            ping.2 = Return (ret, fp, None)
            ∧ (branchFingerprint = "" ∨ branchFingerprint = fp)
            ∧ m !! "fingerprint" = Some fp
            ∧ branches t' = branches t ++ [m]
            ∧ peers (client t) !! branchName = None
            ∧ branchRPC ≠ ""
            ∧ peers (client t') !! branchName = Some branchRPC
            ∧ fingerprints (client t') !! branchName = Some fp
      | _ =>
          branches t' = branches t
          ∧ peers (client t') = peers (client t)
          ∧ m !! "fingerprint" = Some branchFingerprint
      end.
Proof.
  intros r t' ping. subst t' r. unfold TreeAdmin.AddBranch. fold ping.
  pose proof (SendPing_frame sha256_hex World dial call (client t) w
                branchName branchRPC) as (Hpeers & _).
  fold ping in Hpeers.
  destruct ping as [[c1 w1] out]. simpl in Hpeers.
  set (branchMap := ({[ "branch" := branchName; "rpc" := branchRPC;
                        "fingerprint" := branchFingerprint ]}
                     : gmap string string)).
  assert (Hm : branchMap !! "branch" = Some branchName
               ∧ branchMap !! "rpc" = Some branchRPC
               ∧ branchMap !! "fingerprint" = Some branchFingerprint).
  { subst branchMap. split_and!.
    - by rewrite lookup_insert_eq.
    - rewrite lookup_insert_ne by done. by rewrite lookup_insert_eq.
    - rewrite !lookup_insert_ne by done. by rewrite lookup_singleton_eq. }
  destruct Hm as (Hb & Hr & Hf).
  destruct out as [[[ret fp] [e|]]|]; simpl.
  - exists branchMap. by split_and!.
  - destruct (bool_decide (branchFingerprint ≠ "")
              && bool_decide (branchFingerprint ≠ fp)) eqn:Hchk; simpl.
    { exists branchMap. by split_and!. }
    assert (Hfp : branchFingerprint = "" ∨ branchFingerprint = fp).
    { apply andb_false_iff in Hchk as [H|H];
        apply bool_decide_eq_false in H; [left|right];
        by apply dec_stable. }
    unfold RegisterPeer.
    destruct (peers c1 !! branchName) as [x|] eqn:Hp1; simpl.
    { exists branchMap. by split_and!. }
    destruct (decide (branchRPC = "")) as [Hrpc|Hrpc]; simpl.
    { exists branchMap. by split_and!. }
    exists (<["fingerprint" := fp]> branchMap).
    split_and!; try done.
    exists ret, fp.
    split_and!; try done; try (by rewrite lookup_insert_eq).
    by rewrite <- Hpeers.
  - exists branchMap. by split_and!.
Qed.

End Network.

End TreeAdminFacts.

Module TreeUtilFacts.
Import TreeOps.

(** *** Relative paths *)

Lemma prefix_app (s x : string) : String.prefix s (s +:+ x) = true.
Proof.
  induction s as [|c s IH]; simpl; [by destruct x|].
  by destruct (ascii_dec c c).
Qed.

Lemma prefix_refl (s : string) : String.prefix s s = true.
Proof.
  induction s as [|c s IH]; simpl; [done|]. by destruct (ascii_dec c c).
Qed.

Lemma substring_all (x : string) : substring 0 (String.length x) x = x.
Proof. induction x as [|c x IH]; simpl; congruence. Qed.

Lemma substring_none (k : nat) (s : string) : substring k 0 s = "".
Proof.
  revert k. induction s as [|c s IH]; intros [|k]; simpl; try done.
Qed.

Lemma substring_app_r (s x : string) :
  substring (String.length s)
    (String.length (s +:+ x) - String.length s) (s +:+ x) = x.
Proof.
  induction s as [|c s IH]; simpl.
  - rewrite Nat.sub_0_r. apply substring_all.
  - exact IH.
Qed.

(** X26: [relPath] takes the normalised prefix off the normalised path:
    a path relative to itself is the root; a normalised path which starts
    with the normalised prefix gives what follows the prefix, the root if
    nothing follows; and a path which does not start with the prefix is
    only normalised. *)
Theorem relPath_strips_the_prefix (p q x : string) :
  relPath p p = "/"
  ∧ (norm q = q → norm (q +:+ x) = q +:+ x →
     relPath (q +:+ x) q = if decide (x = "") then "/" else x)
  ∧ (HasPrefix (norm p) (norm q) = false → relPath p q = norm p).
Proof.
  split_and!.
  - unfold relPath, HasPrefix. rewrite prefix_refl, Nat.sub_diag.
    by rewrite substring_none.
  - intros Hq Hqx. unfold relPath, HasPrefix. rewrite Hq, Hqx.
    by rewrite prefix_app, substring_app_r.
  - intros Hp. unfold relPath. by rewrite Hp.
Qed.

Lemma relPath_strips_the_prefix_witness :
  norm "/a" = "/a"
  ∧ norm ("/a" +:+ "/b") = "/a" +:+ "/b"
  ∧ relPath ("/a" +:+ "/b") "/a" = "/b"
  ∧ HasPrefix (norm "a/b/") (norm "/c") = false
  ∧ relPath "a/b/" "/c" = "/a/b".
Proof.
  destruct (relPath_strips_the_prefix "a/b/" "/a" "/b") as (_ & H2 & _).
  destruct (relPath_strips_the_prefix "a/b/" "/c" "") as (_ & _ & H3).
  assert (Hq : norm "/a" = "/a") by by vm_compute.
  assert (Hqx : norm ("/a" +:+ "/b") = "/a" +:+ "/b") by by vm_compute.
  assert (Hp : HasPrefix (norm "a/b/") (norm "/c") = false) by by vm_compute.
  split_and!; [exact Hq|exact Hqx|exact (H2 Hq Hqx)|exact Hp|].
  rewrite (H3 Hp). by vm_compute.
Defined.

End TreeUtilFacts.
